(** * FLACidal: the concurrent download queue manager

    A shallow embedding of [backend/download_manager.go].

    The manager is a shared object used by many goroutines (the worker pool
    and the callers of its API).  Its methods are cut at the points where
    another goroutine can observe or change the shared state: one step per
    critical section of [dm.mu], per channel operation, per call of the
    progress callback, per read of a cancellation context and per call of
    the fetch collaborator.  A goroutine is a program point ([PC]) that
    carries the local variables alive at that point, and [tstep] is the
    code of one step.  Every step records what it did ([action]): the calls
    of the progress callback, API calls and returns, [go] statements and
    panics.

    The code is read at three levels:
    - [step] and [exec]: a configuration (the manager, the goroutines, the
      trace) and a schedule that says which goroutine steps next;
    - [trun]: one call as the goroutine that makes it sees it, every step
      starting from whatever manager the other goroutines have left
      ([exec_trun]: what a goroutine does in an execution is such a run);
    - [run]: one call with no other goroutine stepping in between, which
      gives the methods as functions ([QueueDownload], [processJob], ...;
      [run_steps_trun]: such a run is a [trun]);
    - [run_among]: one call as a function of the managers that the goroutine
      finds at its steps, which shows that a call comes to its end
      ([run_among_trun]: such a run is a [trun]).

    What does not come from the manager comes with the step: what the fetch
    collaborator returns, and the order in which the runtime iterates over a
    map. *)

From stdpp Require Import base gmap list strings.

(** ** Data *)

(** [DownloadResult] ([backend/source_qobuz.go]). *)
Record DownloadResult := mkResult {
  res_TrackID : Z;
  res_Title : string;
  res_Artist : string;
  res_Album : string;
  res_FilePath : string;
  res_FileSize : Z;
  res_Quality : string;
  res_CoverURL : string;
  Success : bool;
  res_Error : string;
}.

(** [context.Context] values are handles into the set of cancelled contexts
    kept with the shared state; [context.WithCancel] returns the same handle
    twice, as the context and as its cancel function. *)
Definition ctx_handle := nat.

(** [DownloadJob].  [ctx] and [cancelFunc] may be nil in Go. *)
Record DownloadJob := mkJob {
  TrackID : Z;
  OutputDir : string;
  Title : string;
  Artist : string;
  ctx : option ctx_handle;
  cancelFunc : option ctx_handle;
}.

(** One call [dm.onProgress(trackID, status, result)]; the fields are those
    of [DownloadEvent]. *)
Record DownloadEvent := mkEvent {
  ev_TrackID : Z;
  ev_Status : string;
  ev_Result : option DownloadResult;
}.

#[global] Instance DownloadResult_eq_dec : EqDecision DownloadResult.
Proof. solve_decision. Defined.
#[global] Instance DownloadJob_eq_dec : EqDecision DownloadJob.
Proof. solve_decision. Defined.
#[global] Instance DownloadEvent_eq_dec : EqDecision DownloadEvent.
Proof. solve_decision. Defined.

(** The two errors built with [fmt.Errorf]:
    "download manager not running" and
    "track %d is not currently downloading". *)
Inductive error :=
  | ErrNotRunning
  | ErrNotDownloading (trackID : Z).

#[global] Instance error_eq_dec : EqDecision error.
Proof. solve_decision. Defined.

(** Capacity of [dm.queue] and of [dm.results]: [make(chan ..., 1000)]. *)
Definition chan_cap : nat := 1000.
#[global] Arguments chan_cap : simpl never.

(** [DownloadManager].  [queue] with [queue_closed] is the buffered channel;
    [wg] the WaitGroup counter; [pauseCond] the goroutines parked in
    [pauseCond.Wait()]; [onProgress] tells whether the callback is non-nil.
    [ctx_done] and [ctx_next] are the contexts made by [context.WithCancel]:
    the cancelled ones and the next fresh handle.  The mutex [mu] is the
    atomicity of the steps of [tstep]; what [service] returns comes with the
    schedule. *)
Record DownloadManager := mkDM {
  workers : Z;
  queue : list DownloadJob;
  queue_closed : bool;
  results : list (option DownloadResult);
  activeJobs : gmap Z DownloadJob;
  failedJobs : gmap Z DownloadJob;
  wg : Z;
  running : bool;
  paused : bool;
  pauseCond : list nat;
  onProgress : bool;
  ctx_done : gset ctx_handle;
  ctx_next : ctx_handle;
}.

Definition set_queue (q : list DownloadJob) (dm : DownloadManager) :=
  mkDM (workers dm) q (queue_closed dm) (results dm) (activeJobs dm)
       (failedJobs dm) (wg dm) (running dm) (paused dm) (pauseCond dm)
       (onProgress dm) (ctx_done dm) (ctx_next dm).
Definition set_queue_closed (b : bool) (dm : DownloadManager) :=
  mkDM (workers dm) (queue dm) b (results dm) (activeJobs dm)
       (failedJobs dm) (wg dm) (running dm) (paused dm) (pauseCond dm)
       (onProgress dm) (ctx_done dm) (ctx_next dm).
Definition set_results (r : list (option DownloadResult)) (dm : DownloadManager) :=
  mkDM (workers dm) (queue dm) (queue_closed dm) r (activeJobs dm)
       (failedJobs dm) (wg dm) (running dm) (paused dm) (pauseCond dm)
       (onProgress dm) (ctx_done dm) (ctx_next dm).
Definition set_activeJobs (m : gmap Z DownloadJob) (dm : DownloadManager) :=
  mkDM (workers dm) (queue dm) (queue_closed dm) (results dm) m
       (failedJobs dm) (wg dm) (running dm) (paused dm) (pauseCond dm)
       (onProgress dm) (ctx_done dm) (ctx_next dm).
Definition set_failedJobs (m : gmap Z DownloadJob) (dm : DownloadManager) :=
  mkDM (workers dm) (queue dm) (queue_closed dm) (results dm) (activeJobs dm)
       m (wg dm) (running dm) (paused dm) (pauseCond dm)
       (onProgress dm) (ctx_done dm) (ctx_next dm).
Definition set_wg (n : Z) (dm : DownloadManager) :=
  mkDM (workers dm) (queue dm) (queue_closed dm) (results dm) (activeJobs dm)
       (failedJobs dm) n (running dm) (paused dm) (pauseCond dm)
       (onProgress dm) (ctx_done dm) (ctx_next dm).
Definition set_running (b : bool) (dm : DownloadManager) :=
  mkDM (workers dm) (queue dm) (queue_closed dm) (results dm) (activeJobs dm)
       (failedJobs dm) (wg dm) b (paused dm) (pauseCond dm)
       (onProgress dm) (ctx_done dm) (ctx_next dm).
Definition set_paused (b : bool) (dm : DownloadManager) :=
  mkDM (workers dm) (queue dm) (queue_closed dm) (results dm) (activeJobs dm)
       (failedJobs dm) (wg dm) (running dm) b (pauseCond dm)
       (onProgress dm) (ctx_done dm) (ctx_next dm).
Definition set_pauseCond (l : list nat) (dm : DownloadManager) :=
  mkDM (workers dm) (queue dm) (queue_closed dm) (results dm) (activeJobs dm)
       (failedJobs dm) (wg dm) (running dm) (paused dm) l
       (onProgress dm) (ctx_done dm) (ctx_next dm).
Definition set_onProgress (b : bool) (dm : DownloadManager) :=
  mkDM (workers dm) (queue dm) (queue_closed dm) (results dm) (activeJobs dm)
       (failedJobs dm) (wg dm) (running dm) (paused dm) (pauseCond dm)
       b (ctx_done dm) (ctx_next dm).
Definition set_ctx_done (s : gset ctx_handle) (dm : DownloadManager) :=
  mkDM (workers dm) (queue dm) (queue_closed dm) (results dm) (activeJobs dm)
       (failedJobs dm) (wg dm) (running dm) (paused dm) (pauseCond dm)
       (onProgress dm) s (ctx_next dm).
Definition set_ctx_next (n : ctx_handle) (dm : DownloadManager) :=
  mkDM (workers dm) (queue dm) (queue_closed dm) (results dm) (activeJobs dm)
       (failedJobs dm) (wg dm) (running dm) (paused dm) (pauseCond dm)
       (onProgress dm) (ctx_done dm) n.

(** ** Construction *)

(** [NewDownloadManager(service, workers)]: the worker count is clamped to
    3 when not positive and to 10 when larger. *)
Definition NewDownloadManager (w : Z) : DownloadManager :=
  let w := if (w <=? 0)%Z then 3%Z else w in
  let w := if (10 <? w)%Z then 10%Z else w in
  mkDM w [] false [] ∅ ∅ 0 false false [] false ∅ 0.

(** [SetProgressCallback(callback)] with a non-nil callback. *)
Definition SetProgressCallback (dm : DownloadManager) : DownloadManager :=
  set_onProgress true dm.

(** ** Contexts *)

(** [select { case <-job.ctx.Done(): ... default: }] under [job.ctx != nil]. *)
Definition ctx_is_done (job : DownloadJob) (dm : DownloadManager) : bool :=
  match ctx job with
  | Some c => bool_decide (c ∈ ctx_done dm)
  | None => false
  end.

(** [ctx, cancelFunc := context.WithCancel(context.Background())]. *)
Definition WithCancel (dm : DownloadManager) : ctx_handle * DownloadManager :=
  (ctx_next dm, set_ctx_next (S (ctx_next dm)) dm).

(** [job.cancelFunc()] under [job.cancelFunc != nil]. *)
Definition call_cancelFunc (job : DownloadJob) (dm : DownloadManager) : DownloadManager :=
  match cancelFunc job with
  | Some c => set_ctx_done ({[c]} ∪ ctx_done dm) dm
  | None => dm
  end.

(** ** The methods that are one critical section *)

Definition GetActiveCount (dm : DownloadManager) : Z := Z.of_nat (size (activeJobs dm)).
Definition GetQueueLength (dm : DownloadManager) : Z := Z.of_nat (length (queue dm)).
Definition GetFailedCount (dm : DownloadManager) : Z := Z.of_nat (size (failedJobs dm)).
Definition IsRunning (dm : DownloadManager) : bool := running dm.
Definition IsPaused (dm : DownloadManager) : bool := paused dm.

(** [CancelDownload(trackID)]. *)
Definition CancelDownload (trackID : Z) (dm : DownloadManager)
  : option error * DownloadManager :=
  match activeJobs dm !! trackID with
  | None => (Some (ErrNotDownloading trackID), dm)
  | Some job => (None, call_cancelFunc job dm)
  end.

(** [ClearFailed()]. *)
Definition ClearFailed (dm : DownloadManager) : Z * DownloadManager :=
  (Z.of_nat (size (failedJobs dm)), set_failedJobs ∅ dm).

(** [PauseQueue()]. *)
Definition PauseQueue (dm : DownloadManager) : bool * DownloadManager :=
  if paused dm then (false, dm) else (true, set_paused true dm).

(** [pauseCond.Broadcast()]: every parked goroutine is released. *)
Definition Broadcast (dm : DownloadManager) : DownloadManager :=
  set_pauseCond [] dm.

(** [ResumeQueue()]. *)
Definition ResumeQueue (dm : DownloadManager) : bool * DownloadManager :=
  if negb (paused dm) then (false, dm)
  else (true, Broadcast (set_paused false dm)).

(** ** Goroutines *)

(** The API calls a client goroutine can make. *)
Inductive Op :=
  | OStart
  | OStop
  | OQueueDownload (trackID : Z) (outputDir title artist : string)
  | OCancelDownload (trackID : Z)
  | ORetryAllFailed
  | OClearFailed
  | OPauseQueue
  | OResumeQueue
  | OGetActiveCount
  | OGetQueueLength
  | OGetFailedCount
  | OIsRunning
  | OIsPaused.

Inductive retval :=
  | RUnit
  | RErr (e : option error)
  | RInt (n : Z)
  | RBool (b : bool).

(** What a step does that other parties can see. *)
Inductive action :=
  | ANotify (e : DownloadEvent)      (* dm.onProgress(trackID, status, result) *)
  | ACall (o : Op)
  | ARet (o : Op) (r : retval)
  | AGo (id : Z)                     (* go dm.worker(id) *)
  | APanic (msg : string).

#[global] Instance Op_eq_dec : EqDecision Op.
Proof. solve_decision. Defined.
#[global] Instance retval_eq_dec : EqDecision retval.
Proof. solve_decision. Defined.
#[global] Instance action_eq_dec : EqDecision action.
Proof. solve_decision. Defined.

(** Who called [QueueDownload]: a client, or the loop of [RetryAllFailed]
    with its local variables (the jobs still to retry, and [retried]). *)
Inductive caller :=
  | KClient
  | KRetry (rest : list DownloadJob) (retried : Z).

(** What the fetch collaborator [dm.service.DownloadTrack] returns:
    [(result, err)], each possibly nil. *)
Definition FetchRet : Type := option DownloadResult * option string.

(** Program points.  The line numbers are those of [download_manager.go]. *)
Inductive PC :=
  (* a client goroutine between two calls, and a goroutine that ended *)
  | Idle
  | Finished
  | Crashed
  (* worker, lines 112-133 *)
  | W_Range                                  (* 115: for job := range dm.queue *)
  | W_PauseGate (job : DownloadJob)          (* 117-121 *)
  | W_Parked (job : DownloadJob)             (* 119: inside pauseCond.Wait() *)
  | W_CheckRunning (job : DownloadJob)       (* 124-129 *)
  | W_Return                                 (* 113: deferred dm.wg.Done() *)
  (* processJob, lines 136-204 *)
  | PJ_PreCheck (job : DownloadJob)          (* 138-147 *)
  | PJ_PreCancelled (job : DownloadJob)      (* 141-144 *)
  | PJ_NotifyStart (job : DownloadJob)       (* 150-152 *)
  | PJ_MarkActive (job : DownloadJob)        (* 155-159 *)
  | PJ_Download (job : DownloadJob)          (* 162 *)
  | PJ_PostCheck (job : DownloadJob) (result : option DownloadResult) (err : option string)      (* 165-172 *)
  | PJ_RemoveActive (job : DownloadJob) (result : option DownloadResult) (err : option string)
                    (cancelled : bool)       (* 175-177 *)
  | PJ_HandleResult (job : DownloadJob) (result : option DownloadResult) (err : option string)
                    (cancelled : bool)       (* 180-197 *)
  | PJ_NotifyError (job : DownloadJob) (result : option DownloadResult)   (* 190-192 *)
  | PJ_SendResult (result : option DownloadResult)                        (* 200-203 *)
  (* Start, lines 79-93 *)
  | ST_Lock                                  (* 80-86 *)
  | ST_Spawn (i : Z)                         (* 89-92 *)
  (* Stop, lines 96-109 *)
  | SP_Lock                                  (* 97-105 *)
  | SP_Close                                 (* 107 *)
  | SP_Wait                                  (* 108 *)
  (* QueueDownload, lines 207-236 *)
  | QD_CheckRunning (trackID : Z) (outputDir title artist : string) (k : caller)   (* 208-213 *)
  | QD_MakeJob (trackID : Z) (outputDir title artist : string) (k : caller)        (* 216-225 *)
  | QD_Send (job : DownloadJob) (k : caller) (* 228 *)
  | QD_Notify (job : DownloadJob) (k : caller)   (* 231-235 *)
  (* RetryAllFailed, lines 289-310 *)
  | RA_Snapshot                              (* 290-298 *)
  | RA_Loop (jobsToRetry : list DownloadJob) (retried : Z)   (* 302-309 *)
  (* the methods that are one critical section *)
  | Atomic (o : Op).

(** [if dm.onProgress != nil { dm.onProgress(trackID, status, result) }]. *)
Definition notify (dm : DownloadManager) (trackID : Z) (status : string)
    (result : option DownloadResult) : list action :=
  if onProgress dm then [ANotify (mkEvent trackID status result)] else [].

(** The [OQueueDownload] call a job's fields stand for. *)
Definition op_of_job (job : DownloadJob) : Op :=
  OQueueDownload (TrackID job) (OutputDir job) (Title job) (Artist job).

(** [return err] of [QueueDownload]: back to the client, or to line 304 of
    the loop of [RetryAllFailed] ([if err == nil { retried++ }]). *)
Definition QueueDownload_return (o : Op) (k : caller) (err : option error)
  : PC * list action :=
  match k with
  | KClient => (Idle, [ARet o (RErr err)])
  | KRetry rest retried =>
      (RA_Loop rest (if err is None then (retried + 1)%Z else retried),
       [ARet o (RErr err)])
  end.

(** Lines 117-121, entered at the lock or on waking up inside [Wait] (which
    returns with the lock held): [for dm.paused && dm.running { Wait() }]. *)
Definition pause_gate (me : nat) (job : DownloadJob) (dm : DownloadManager)
  : PC * DownloadManager :=
  if paused dm && running dm
  then (W_Parked job, set_pauseCond (me :: pauseCond dm) dm)
  else (W_CheckRunning job, dm).

(** The values of a map in the order of one iteration over it
    ([for _, job := range m]).  Go leaves that order to the runtime, and it
    differs from one iteration to the next: [order] is the choice of the
    runtime for this iteration, read as "the keys of [order] first, as they
    come, then what is left".  Every order of the entries is had for some
    [order] ([map_values_any_order]). *)
Fixpoint map_values (order : list Z) (m : gmap Z DownloadJob) : list DownloadJob :=
  match order with
  | [] => (map_to_list m).*2
  | k :: order =>
      match m !! k with
      | Some job => job :: map_values order (delete k m)
      | None => map_values order m
      end
  end.

(** One step of goroutine [me] at program point [p].  [fetch] is what the
    fetch collaborator returns if this step is the call of line 162, and
    [order] the order in which the runtime visits the Failed Registry if
    this step is the loop of lines 293-295.
    [None]: the goroutine is blocked (or has ended) and cannot step. *)
Definition tstep (me : nat) (fetch : FetchRet) (order : list Z) (p : PC)
    (dm : DownloadManager) : option (PC * DownloadManager * list action) :=
  match p with
  | Idle | Finished | Crashed => None
  (* worker *)
  | W_Range =>
      match queue dm with
      | job :: q => Some (W_PauseGate job, set_queue q dm, [])
      | [] => if queue_closed dm then Some (W_Return, dm, []) else None
      end
  | W_PauseGate job =>
      let '(p', dm') := pause_gate me job dm in Some (p', dm', [])
  | W_Parked job =>
      if bool_decide (me ∈ pauseCond dm) then None
      else let '(p', dm') := pause_gate me job dm in Some (p', dm', [])
  | W_CheckRunning job =>
      if negb (running dm) then Some (W_Return, dm, [])
      else Some (PJ_PreCheck job, dm, [])
  | W_Return => Some (Finished, set_wg (wg dm - 1)%Z dm, [])
  (* processJob *)
  | PJ_PreCheck job =>
      if ctx_is_done job dm then Some (PJ_PreCancelled job, dm, [])
      else Some (PJ_NotifyStart job, dm, [])
  | PJ_PreCancelled job =>
      Some (W_Range, dm, notify dm (TrackID job) "cancelled" None)
  | PJ_NotifyStart job =>
      Some (PJ_MarkActive job, dm, notify dm (TrackID job) "downloading" None)
  | PJ_MarkActive job =>
      Some (PJ_Download job,
            set_failedJobs (delete (TrackID job) (failedJobs dm))
              (set_activeJobs (<[TrackID job := job]> (activeJobs dm)) dm),
            [])
  | PJ_Download job =>
      Some (PJ_PostCheck job fetch.1 fetch.2, dm, [])
  | PJ_PostCheck job result err =>
      Some (PJ_RemoveActive job result err (ctx_is_done job dm), dm, [])
  | PJ_RemoveActive job result err cancelled =>
      Some (PJ_HandleResult job result err cancelled,
            set_activeJobs (delete (TrackID job) (activeJobs dm)) dm, [])
  | PJ_HandleResult job result err cancelled =>
      if cancelled then
        Some (PJ_SendResult result, dm, notify dm (TrackID job) "cancelled" None)
      else
        let track_failed :=
          Some (PJ_NotifyError job result,
                set_failedJobs (<[TrackID job := job]> (failedJobs dm)) dm, []) in
        match err with
        | Some _ => track_failed
        | None =>
            match result with
            | None =>
                Some (Crashed, dm,
                      [APanic "invalid memory address or nil pointer dereference"])
            | Some r =>
                if negb (Success r) then track_failed
                else Some (PJ_SendResult result, dm,
                           notify dm (TrackID job) "completed" result)
            end
        end
  | PJ_NotifyError job result =>
      Some (PJ_SendResult result, dm, notify dm (TrackID job) "error" result)
  | PJ_SendResult result =>
      Some (W_Range,
            if bool_decide (length (results dm) < chan_cap)
            then set_results (results dm ++ [result]) dm
            else dm,
            [])
  (* Start *)
  | ST_Lock =>
      if running dm then Some (Idle, dm, [ARet OStart RUnit])
      else Some (ST_Spawn 0, set_running true dm, [])
  | ST_Spawn i =>
      if (i <? workers dm)%Z
      then Some (ST_Spawn (i + 1), set_wg (wg dm + 1)%Z dm, [AGo i])
      else Some (Idle, dm, [ARet OStart RUnit])
  (* Stop *)
  | SP_Lock =>
      if negb (running dm) then Some (Idle, dm, [ARet OStop RUnit])
      else Some (SP_Close, Broadcast (set_paused false (set_running false dm)), [])
  | SP_Close =>
      if queue_closed dm
      then Some (Crashed, dm, [APanic "close of closed channel"])
      else Some (SP_Wait, set_queue_closed true dm, [])
  | SP_Wait =>
      if (wg dm =? 0)%Z then Some (Idle, dm, [ARet OStop RUnit]) else None
  (* QueueDownload *)
  | QD_CheckRunning trackID outputDir title artist k =>
      if negb (running dm) then
        let '(p', acts) :=
          QueueDownload_return (OQueueDownload trackID outputDir title artist)
            k (Some ErrNotRunning) in
        Some (p', dm, acts)
      else Some (QD_MakeJob trackID outputDir title artist k, dm, [])
  | QD_MakeJob trackID outputDir title artist k =>
      let '(c, dm') := WithCancel dm in
      Some (QD_Send (mkJob trackID outputDir title artist (Some c) (Some c)) k,
            dm', [])
  | QD_Send job k =>
      if queue_closed dm
      then Some (Crashed, dm, [APanic "send on closed channel"])
      else if bool_decide (length (queue dm) < chan_cap)
      then Some (QD_Notify job k, set_queue (queue dm ++ [job]) dm, [])
      else None
  | QD_Notify job k =>
      let '(p', acts) := QueueDownload_return (op_of_job job) k None in
      Some (p', dm, notify dm (TrackID job) "queued" None ++ acts)
  (* RetryAllFailed *)
  | RA_Snapshot =>
      Some (RA_Loop (map_values order (failedJobs dm)) 0, set_failedJobs ∅ dm, [])
  | RA_Loop jobsToRetry retried =>
      match jobsToRetry with
      | [] => Some (Idle, dm, [ARet ORetryAllFailed (RInt retried)])
      | job :: rest =>
          Some (QD_CheckRunning (TrackID job) (OutputDir job) (Title job)
                  (Artist job) (KRetry rest retried),
                dm, [ACall (op_of_job job)])
      end
  (* one critical section *)
  | Atomic o =>
      match o with
      | OCancelDownload trackID =>
          let '(err, dm') := CancelDownload trackID dm in
          Some (Idle, dm', [ARet o (RErr err)])
      | OClearFailed =>
          let '(n, dm') := ClearFailed dm in Some (Idle, dm', [ARet o (RInt n)])
      | OPauseQueue =>
          let '(b, dm') := PauseQueue dm in Some (Idle, dm', [ARet o (RBool b)])
      | OResumeQueue =>
          let '(b, dm') := ResumeQueue dm in Some (Idle, dm', [ARet o (RBool b)])
      | OGetActiveCount => Some (Idle, dm, [ARet o (RInt (GetActiveCount dm))])
      | OGetQueueLength => Some (Idle, dm, [ARet o (RInt (GetQueueLength dm))])
      | OGetFailedCount => Some (Idle, dm, [ARet o (RInt (GetFailedCount dm))])
      | OIsRunning => Some (Idle, dm, [ARet o (RBool (IsRunning dm))])
      | OIsPaused => Some (Idle, dm, [ARet o (RBool (IsPaused dm))])
      | _ => None
      end
  end.

(** The first program point of a call. *)
Definition entry (o : Op) : PC :=
  match o with
  | OStart => ST_Lock
  | OStop => SP_Lock
  | OQueueDownload trackID outputDir title artist =>
      QD_CheckRunning trackID outputDir title artist KClient
  | ORetryAllFailed => RA_Snapshot
  | _ => Atomic o
  end.

(** ** Configurations and schedules *)

(** A goroutine: where it is, and (for a client) the calls it still makes. *)
Record Thread := mkThread {
  pc : PC;
  script : list Op;
}.

(** The manager, the goroutines, and everything done so far, each action
    with the goroutine that did it.  A panic ends the whole program. *)
Record Config := mkConfig {
  manager : DownloadManager;
  threads : list Thread;
  trace : list (nat * action);
  crashed : bool;
}.

Definition is_panic (a : action) : bool :=
  match a with APanic _ => true | _ => false end.

(** The goroutines started by the [go] statements among [acts]. *)
Definition spawned (acts : list action) : list Thread :=
  omap (λ a, match a with AGo _ => Some (mkThread W_Range []) | _ => None end) acts.

(** The call an idle client makes next, with the rest of its script. *)
Definition next_call (t : Thread) : option (Op * list Op) :=
  match pc t, script t with
  | Idle, o :: rest => Some (o, rest)
  | _, _ => None
  end.

(** Goroutine [i] makes one step (or none: it is blocked, has ended, does
    not exist, or the program has crashed).  An idle client starts the next
    call of its script. *)
Definition step (i : nat) (fetch : FetchRet) (order : list Z) (c : Config) : Config :=
  if crashed c then c else
  match threads c !! i with
  | None => c
  | Some t =>
      match next_call t with
      | Some (o, rest) =>
          mkConfig (manager c) (<[i := mkThread (entry o) rest]> (threads c))
                   (trace c ++ [(i, ACall o)]) false
      | None =>
          match tstep i fetch order (pc t) (manager c) with
          | None => c
          | Some (p', dm', acts) =>
              mkConfig dm'
                       (<[i := mkThread p' (script t)]> (threads c) ++ spawned acts)
                       (trace c ++ ((λ a, (i, a)) <$> acts))
                       (existsb is_panic acts)
          end
      end
  end.

(** A schedule: which goroutine steps, what the fetch collaborator returns
    if the step is its call, and in which order the runtime visits the
    Failed Registry if the step iterates over it. *)
Definition schedule := list (nat * FetchRet * list Z).

Definition exec (s : schedule) (c : Config) : Config :=
  foldl (λ c x, step x.1.1 x.1.2 x.2 c) c s.

(** The calls of the progress callback, in the order they were made: what a
    listener observes. *)
Definition events_of (tr : list (nat * action)) : list DownloadEvent :=
  omap (λ x, match x.2 with ANotify e => Some e | _ => None end) tr.

Definition events (c : Config) : list DownloadEvent := events_of (trace c).

(** A manager built by [NewDownloadManager] (with the callback installed or
    not) and client goroutines with their scripts; no worker yet. *)
Definition init_config (w : Z) (callback : bool) (scripts : list (list Op)) : Config :=
  mkConfig (set_onProgress callback (NewDownloadManager w))
           (mkThread Idle <$> scripts) [] false.

Definition reachable (c : Config) : Prop :=
  ∃ w callback scripts s, c = exec s (init_config w callback scripts).

(** Where goroutine [i] is. *)
Definition pc_at (i : nat) (c : Config) : option PC := pc <$> threads c !! i.

(** ** One call, seen from the goroutine that makes it *)

(** The program points where a call has returned to its caller: a client is
    idle again, a worker is back at the head of its loop, or the goroutine
    is over. *)
Definition at_rest (p : PC) : bool :=
  match p with
  | Idle | W_Range | Finished | Crashed => true
  | _ => false
  end.

(** One step as the goroutine sees it: the manager before, the manager
    after, what it did. *)
Definition tstep_record : Type := DownloadManager * DownloadManager * list action.

Definition actions_of (steps : list tstep_record) : list action :=
  concat (snd <$> steps).

(** [trun cb me p steps p']: goroutine [me] goes from [p] to the first
    point of rest [p'] by [steps].  Between two of its steps the other
    goroutines may have changed the manager in any way, except for the
    callback, which stays installed or not ([cb]): each step starts from a
    manager of its own. *)
Inductive trun (cb : bool) (me : nat) : PC → list tstep_record → PC → Prop :=
  | trun_last p fetch order dm p' dm' acts :
      onProgress dm = cb →
      tstep me fetch order p dm = Some (p', dm', acts) →
      at_rest p' = true →
      trun cb me p [(dm, dm', acts)] p'
  | trun_more p fetch order dm p' dm' acts steps p'' :
      onProgress dm = cb →
      tstep me fetch order p dm = Some (p', dm', acts) →
      at_rest p' = false →
      trun cb me p' steps p'' →
      trun cb me p ((dm, dm', acts) :: steps) p''.

(** The steps of its code that goroutine [i] makes when [s] is executed from
    [c] (the start of a call by an idle client is not one of them). *)
Fixpoint local_steps (i : nat) (s : schedule) (c : Config) : list tstep_record :=
  match s with
  | [] => []
  | (j, fetch, order) :: s =>
      let here :=
        if bool_decide (j = i) && negb (crashed c) then
          match threads c !! i with
          | Some t =>
              match next_call t, tstep i fetch order (pc t) (manager c) with
              | None, Some (_, dm', acts) => [(manager c, dm', acts)]
              | _, _ => []
              end
          | None => []
          end
        else [] in
      here ++ local_steps i s (step j fetch order c)
  end.

(** The same without interference: the goroutine runs alone until it is at
    rest, blocked or out of fuel; every call of the fetch collaborator
    returns [fetch], and every iteration over the Failed Registry goes by
    [order]. *)
Fixpoint run (fuel : nat) (me : nat) (fetch : FetchRet) (order : list Z) (p : PC)
    (dm : DownloadManager) : PC * DownloadManager * list action :=
  match fuel with
  | O => (p, dm, [])
  | S fuel =>
      match tstep me fetch order p dm with
      | None => (p, dm, [])
      | Some (p', dm', acts) =>
          if at_rest p' then (p', dm', acts)
          else let '(p'', dm'', acts') := run fuel me fetch order p' dm' in
               (p'', dm'', acts ++ acts')
      end
  end.

(** The steps of that run, one record each. *)
Fixpoint run_steps (fuel : nat) (me : nat) (fetch : FetchRet) (order : list Z)
    (p : PC) (dm : DownloadManager) : list tstep_record * PC :=
  match fuel with
  | O => ([], p)
  | S fuel =>
      match tstep me fetch order p dm with
      | None => ([], p)
      | Some (p', dm', acts) =>
          if at_rest p' then ([(dm, dm', acts)], p')
          else let '(steps, p'') := run_steps fuel me fetch order p' dm' in
               ((dm, dm', acts) :: steps, p'')
      end
  end.

(** The run of goroutine [me] from [p] among other goroutines: [dms] are
    the managers it finds, one at each of its steps (what the others have
    made of the manager since its step before).  The run ends at the first
    point of rest, where the goroutine is blocked, or when [dms] is used
    up; the result is the steps made and the program point reached. *)
Fixpoint run_among (me : nat) (fetch : FetchRet) (order : list Z) (p : PC)
    (dms : list DownloadManager) : list tstep_record * PC :=
  match dms with
  | [] => ([], p)
  | dm :: dms =>
      match tstep me fetch order p dm with
      | None => ([], p)
      | Some (p', dm', acts) =>
          if at_rest p' then ([(dm, dm', acts)], p')
          else let '(steps, p'') := run_among me fetch order p' dms in
               ((dm, dm', acts) :: steps, p'')
      end
  end.

(** The methods of several steps, run alone by goroutine 0.  Only
    [RetryAllFailed] iterates over a map, and only [processJob] calls the
    fetch collaborator. *)
Definition no_fetch : FetchRet := (None, None).

Definition Start (dm : DownloadManager) :=
  run (2 + Z.to_nat (workers dm)) 0 no_fetch [] ST_Lock dm.

Definition Stop (dm : DownloadManager) :=
  run 3 0 no_fetch [] SP_Lock dm.

Definition QueueDownload (trackID : Z) (outputDir title artist : string)
    (dm : DownloadManager) :=
  run 4 0 no_fetch [] (QD_CheckRunning trackID outputDir title artist KClient) dm.

Definition RetryAllFailed (order : list Z) (dm : DownloadManager) :=
  run (2 + 5 * size (failedJobs dm)) 0 no_fetch order RA_Snapshot dm.

Definition processJob (fetch : FetchRet) (job : DownloadJob) (dm : DownloadManager) :=
  run 9 0 fetch [] (PJ_PreCheck job) dm.

(** ** Reading traces *)

(** The three terminal statuses. *)
Definition terminal_status (s : string) : bool :=
  bool_decide (s = "completed" ∨ s = "error" ∨ s = "cancelled").

(** The calls of the progress callback among [acts]. *)
Definition notified (acts : list action) : list DownloadEvent :=
  omap (λ a, match a with ANotify e => Some e | _ => None end) acts.

Definition terminal_event (e : DownloadEvent) : Prop :=
  terminal_status (ev_Status e) = true.

#[global] Instance terminal_event_dec e : Decision (terminal_event e).
Proof. unfold terminal_event. apply _. Defined.

(** The calls made among [acts]. *)
Definition calls_of (acts : list action) : list Op :=
  omap (λ a, match a with ACall o => Some o | _ => None end) acts.

(** A return of [QueueDownload] without error. *)
Definition is_enqueued (a : action) : bool :=
  match a with
  | ARet (OQueueDownload _ _ _ _) (RErr None) => true
  | _ => false
  end.

(** How many calls of [QueueDownload] returned without error. *)
Definition enqueued (acts : list action) : nat :=
  length (List.filter is_enqueued acts).

(** In [evs], every "downloading" of [trackID] has a "queued" of [trackID]
    strictly before it. *)
Definition queued_first (trackID : Z) (evs : list DownloadEvent) : Prop :=
  ∀ i, evs !! i = Some (mkEvent trackID "downloading" None) →
       ∃ j, j < i ∧ evs !! j = Some (mkEvent trackID "queued" None).







(** ** Well-formed jobs *)

(** A job made by [QueueDownload]: its context and its cancel function are
    the same handle, one that [context.WithCancel] has already given out
    ([n] is the next fresh handle). *)
Definition job_ok (n : ctx_handle) (job : DownloadJob) : Prop :=
  ∃ c, ctx job = Some c ∧ cancelFunc job = Some c ∧ c < n.

Definition caller_ok (n : ctx_handle) (k : caller) : Prop :=
  match k with
  | KClient => True
  | KRetry rest _ => Forall (job_ok n) rest
  end.

(** The jobs among the local variables of a goroutine. *)
Definition pc_ok (n : ctx_handle) (p : PC) : Prop :=
  match p with
  | W_PauseGate job | W_Parked job | W_CheckRunning job
  | PJ_PreCheck job | PJ_PreCancelled job | PJ_NotifyStart job
  | PJ_MarkActive job | PJ_Download job | PJ_PostCheck job _ _
  | PJ_RemoveActive job _ _ _ | PJ_HandleResult job _ _ _
  | PJ_NotifyError job _ => job_ok n job
  | QD_CheckRunning _ _ _ _ k | QD_MakeJob _ _ _ _ k => caller_ok n k
  | QD_Send job k | QD_Notify job k => job_ok n job ∧ caller_ok n k
  | RA_Loop jobs _ => Forall (job_ok n) jobs
  | _ => True
  end.

Definition dm_ok (dm : DownloadManager) : Prop :=
  Forall (job_ok (ctx_next dm)) (queue dm)
  ∧ map_Forall (λ _, job_ok (ctx_next dm)) (activeJobs dm)
  ∧ map_Forall (λ _, job_ok (ctx_next dm)) (failedJobs dm).

Definition config_ok (c : Config) : Prop :=
  dm_ok (manager c)
  ∧ Forall (λ t, pc_ok (ctx_next (manager c)) (pc t)) (threads c).

(** The copy of [job] that [QueueDownload] makes with the fresh handle [c]. *)
Definition fresh_copy (c : ctx_handle) (job : DownloadJob) : DownloadJob :=
  mkJob (TrackID job) (OutputDir job) (Title job) (Artist job) (Some c) (Some c).

(** ** Scenarios *)

(** A schedule whose steps are neither calls of the fetch collaborator nor
    iterations over the Failed Registry. *)
Definition runs (l : list nat) : schedule := (λ i, (i, no_fetch, [])) <$> l.

(** What [DownloadTrack] returns when the transfer fails: a result with
    [Success] false, and the error. *)
Definition timeout_result (trackID : Z) : DownloadResult :=
  mkResult trackID "" "" "" "" 0 "" "" false "network timeout".

Definition fetch_timeout (trackID : Z) : FetchRet :=
  (Some (timeout_result trackID), Some "network timeout").

(** One worker; a client starts the manager and enqueues track 7.  The
    client runs up to the send of line 228 (goroutine 0: the four steps of
    [Start], then call, check, job, send); the worker (goroutine 1) receives
    the job and gets as far as the "downloading" of line 151; then the
    client makes its last step, lines 231-235. *)
Definition race_init : Config :=
  init_config 1 true [[OStart; OQueueDownload 7 "out" "t" "a"]].

Definition race_schedule : schedule :=
  runs [0;0;0;0; 0;0;0;0; 1;1;1;1;1; 0].




(** One worker; a client starts the manager, enqueues track 7 and cancels
    it.  [cancel_schedule] stops when the fetch of the worker has returned
    (with success) and the client is about to call [CancelDownload]: track 7
    is in the Active Registry.  [cancel_call] is that call. *)
Definition ok_result (trackID : Z) : DownloadResult :=
  mkResult trackID "t" "a" "" "out/a - t.flac" 1024 "FLAC LOSSLESS" "" true "".

Definition fetch_ok (trackID : Z) : FetchRet := (Some (ok_result trackID), None).

Definition job7 : DownloadJob := mkJob 7 "out" "t" "a" (Some 0) (Some 0).

Definition cancel_init : Config :=
  init_config 1 true [[OStart; OQueueDownload 7 "out" "t" "a"; OCancelDownload 7]].

Definition cancel_schedule : schedule :=
  runs [0;0;0;0; 0;0;0;0;0; 1;1;1;1;1;1] ++ [(1, fetch_ok 7, [])].

Definition cancel_call : schedule := runs [0;0].

(** Two workers; a client starts the manager and enqueues track 7 twice.
    The first worker (goroutine 1) takes the first job as far as the fetch:
    track 7 is in the Active Registry.  The second worker (goroutine 2)
    takes the second job as far as the "downloading" of line 151. *)
Definition twice_init : Config :=
  init_config 2 true
    [[OStart; OQueueDownload 7 "out" "t" "a"; OQueueDownload 7 "out" "t" "a"]].

Definition twice_schedule : schedule :=
  runs [0;0;0;0;0; 0;0;0;0;0; 0;0;0;0;0; 1;1;1;1;1;1; 2;2;2;2;2].

(** The second job of that scenario. *)
Definition job7' : DownloadJob := mkJob 7 "out" "t" "a" (Some 1) (Some 1).





(** One worker; a client calls [Start], [Stop], [Start] and then
    [QueueDownload].  The worker of the first [Start] (goroutine 1) ends
    when the queue is closed, so that [Stop] returns. *)
Definition restart_init : Config :=
  init_config 1 true [[OStart; OStop; OStart; OQueueDownload 1 "out" "" ""]].

Definition restart_schedule : schedule :=
  runs [0;0;0;0; 0;0;0; 1;1; 0; 0;0;0;0; 0;0;0;0].

(** ** The rest of the manager *)

(** [TidalTrack] (package [backend]); [QueueMultiple] reads [ID], [Title]
    and [Artist]. *)
Record TidalTrack := mkTrack {
  track_ID : Z;
  track_Title : string;
  track_Artist : string;
  track_Artists : string;
  track_Album : string;
  track_AlbumID : Z;
  track_ISRC : string;
  track_Duration : Z;
  track_TrackNum : Z;
  track_CoverURL : string;
  track_Explicit : bool;
  track_TidalURL : string;
}.

(** [err == nil] for the call of [QueueDownload] that did [acts]. *)
Definition returned_nil (acts : list action) : bool :=
  match last acts with
  | Some (ARet (OQueueDownload _ _ _ _) (RErr None)) => true
  | _ => false
  end.

(** [QueueMultiple(tracks, outputDir)], lines 239-248, with nothing
    interleaved; [queued] is the counter of the loop.  A call of
    [QueueDownload] that does not return (it is blocked on a full queue, or
    it panics) ends the loop where it is. *)
Fixpoint QueueMultiple_loop (tracks : list TidalTrack) (outputDir : string)
    (queued : Z) (dm : DownloadManager)
  : PC * DownloadManager * list action * Z :=
  match tracks with
  | [] => (Idle, dm, [], queued)
  | track :: tracks =>
      let '(p, dm', acts) :=
        QueueDownload (track_ID track) outputDir (track_Title track)
          (track_Artist track) dm in
      match p with
      | Idle =>
          let '(p'', dm'', acts', n) :=
            QueueMultiple_loop tracks outputDir
              (if returned_nil acts then (queued + 1)%Z else queued) dm' in
          (p'', dm'', acts ++ acts', n)
      | _ => (p, dm', acts, queued)
      end
  end.

Definition QueueMultiple (tracks : list TidalTrack) (outputDir : string)
    (dm : DownloadManager) : PC * DownloadManager * list action * Z :=
  QueueMultiple_loop tracks outputDir 0 dm.

(** The job that [QueueDownload] makes for [track] with the fresh handle [c]. *)
Definition job_of_track (outputDir : string) (c : ctx_handle) (track : TidalTrack)
  : DownloadJob :=
  mkJob (track_ID track) outputDir (track_Title track) (track_Artist track)
        (Some c) (Some c).

(** The program points of a worker goroutine that has not ended. *)
Definition is_worker_pc (p : PC) : bool :=
  match p with
  | W_Range | W_PauseGate _ | W_Parked _ | W_CheckRunning _ | W_Return
  | PJ_PreCheck _ | PJ_PreCancelled _ | PJ_NotifyStart _ | PJ_MarkActive _
  | PJ_Download _ | PJ_PostCheck _ _ _ | PJ_RemoveActive _ _ _ _
  | PJ_HandleResult _ _ _ _ | PJ_NotifyError _ _ | PJ_SendResult _ => true
  | _ => false
  end.

(** How many worker goroutines are alive. *)
Definition live_workers (c : Config) : nat :=
  length (List.filter (λ t, is_worker_pc (pc t)) (threads c)).

(** The job a worker is executing, from the return of the critical section
    that enters it in the Active Registry (lines 155-159) to the one that
    removes it (lines 175-177). *)
Definition executing (p : PC) : option DownloadJob :=
  match p with
  | PJ_Download job | PJ_PostCheck job _ _ | PJ_RemoveActive job _ _ _ => Some job
  | _ => None
  end.

(** The ids of the jobs that the workers are executing. *)
Definition executing_ids (c : Config) : list Z :=
  omap (λ t, TrackID <$> executing (pc t)) (threads c).

(** Every entry of the Active Registry is under the id of its job. *)
Definition active_keyed (dm : DownloadManager) : Prop :=
  ∀ id job, activeJobs dm !! id = Some job → id = TrackID job.

(** Every entry of the Active Registry is the job that some worker is
    executing. *)
Definition active_held (c : Config) : Prop :=
  ∀ id job, activeJobs (manager c) !! id = Some job →
    id = TrackID job
    ∧ ∃ i t, threads c !! i = Some t ∧ executing (pc t) = Some job.

(** The calls of [Start] in a script. *)
Definition is_start (o : Op) : bool :=
  match o with OStart => true | _ => false end.

Definition count_starts (script : list Op) : nat :=
  length (List.filter is_start script).

(** The workers that a goroutine inside [Start] may still start, when the
    manager has [w] workers: all of them before the check of [running], the
    rounds left of the loop after it. *)
Definition pending_spawns (w : Z) (p : PC) : nat :=
  match p with
  | ST_Lock => Z.to_nat w
  | ST_Spawn i => Z.to_nat (w - i)
  | _ => 0
  end.

(** The workers that a goroutine accounts for: itself if it is a live
    worker, and those it may still start, now or by a later call of [Start]
    of its script. *)
Definition worker_budget (w : Z) (t : Thread) : nat :=
  (if is_worker_pc (pc t) then 1 else 0)
  + Z.to_nat w * count_starts (script t)
  + pending_spawns w (pc t).

Definition total_budget (c : Config) : nat :=
  sum_list_with (worker_budget (workers (manager c))) (threads c).

(** The context of a job, as a list. *)
Definition job_handles (job : DownloadJob) : list ctx_handle :=
  match ctx job with Some c => [c] | None => [] end.

(** The contexts of the jobs that a goroutine holds and that have not
    entered the Active Registry yet: the job that [QueueDownload] is about
    to send, and the job of a worker before line 159. *)
Definition waiting_pc (p : PC) : list ctx_handle :=
  match p with
  | QD_Send job _
  | W_PauseGate job | W_Parked job | W_CheckRunning job
  | PJ_PreCheck job | PJ_PreCancelled job | PJ_NotifyStart job
  | PJ_MarkActive job => job_handles job
  | _ => []
  end.

(** The contexts of the jobs in the queue. *)
Definition waiting_queue (dm : DownloadManager) : list ctx_handle :=
  queue dm ≫= job_handles.

(** The contexts of all the jobs that have not started. *)
Definition waiting (c : Config) : list ctx_handle :=
  waiting_queue (manager c) ++ (threads c ≫= (λ t, waiting_pc (pc t))).

(** The contexts [hs] are pairwise different, have been given out, are not
    cancelled, and no job of the Active Registry cancels one of them. *)
Definition not_started (dm : DownloadManager) (hs : list ctx_handle) : Prop :=
  NoDup hs
  ∧ ∀ h, h ∈ hs →
      h < ctx_next dm ∧ (h ∉ ctx_done dm)
      ∧ ∀ id job, activeJobs dm !! id = Some job → cancelFunc job ≠ Some h.

(** Only contexts that have been given out are cancelled. *)
Definition done_below (dm : DownloadManager) : Prop :=
  ∀ h, h ∈ ctx_done dm → h < ctx_next dm.

Definition no_pre_cancelled (p : PC) : Prop :=
  match p with PJ_PreCancelled _ => False | _ => True end.

Definition waiting_ok (c : Config) : Prop :=
  done_below (manager c)
  ∧ not_started (manager c) (waiting c)
  ∧ Forall (λ t, no_pre_cancelled (pc t)) (threads c).

(** The program points of [processJob]. *)
Definition in_processJob (p : PC) : bool :=
  match p with
  | PJ_PreCheck _ | PJ_PreCancelled _ | PJ_NotifyStart _ | PJ_MarkActive _
  | PJ_Download _ | PJ_PostCheck _ _ _ | PJ_RemoveActive _ _ _ _
  | PJ_HandleResult _ _ _ _ | PJ_NotifyError _ _ | PJ_SendResult _ => true
  | _ => false
  end.

(** A result of [tstep] or of [run] with the pause flag set to [b]. *)
Definition with_paused (b : bool) (r : PC * DownloadManager * list action)
  : PC * DownloadManager * list action :=
  (r.1.1, set_paused b r.1.2, r.2).

(** ** File names

    [SanitizeFileName] (source_qobuz.go) makes the name of the folder that
    [App.QueueDownloads] passes to [QueueMultiple] as the output directory.
    A Go string is its bytes.  Both regular expressions and the cut set of
    [strings.Trim] name ASCII bytes only, which never occur inside a
    multi-byte UTF-8 sequence, so the function is modelled byte by byte. *)

From Stdlib Require Import Ascii.

(** The class of the first regular expression, by byte value: the control
    bytes 0 to 31 and the bytes of [<], [>], [:], the double quote, [/], the
    backslash, [|], [?] and [*]. *)
Definition invalid (c : Ascii.ascii) : bool :=
  (Ascii.nat_of_ascii c <=? 31)
  || existsb (Nat.eqb (Ascii.nat_of_ascii c)) [60; 62; 58; 34; 47; 92; 124; 63; 42].

(** The class [\s] of Go's regexp: tab, newline, form feed, carriage return
    and space. *)
Definition space (c : Ascii.ascii) : bool :=
  existsb (Nat.eqb (Ascii.nat_of_ascii c)) [9; 10; 12; 13; 32].

(** The cut set [". "]. *)
Definition cutset (c : Ascii.ascii) : bool :=
  existsb (Nat.eqb (Ascii.nat_of_ascii c)) [46; 32].

(** [invalid.ReplaceAllString] with the empty replacement: every match is
    one byte and is dropped. *)
Definition remove_invalid (s : list Ascii.ascii) : list Ascii.ascii :=
  List.filter (λ c, negb (invalid c)) s.

(** [spaces.ReplaceAllString(sanitized, " ")]: every maximal run of [\s]
    becomes one space; [in_run] tells that the byte before was in a run. *)
Fixpoint collapse_spaces (in_run : bool) (s : list Ascii.ascii) : list Ascii.ascii :=
  match s with
  | [] => []
  | c :: rest =>
      if space c
      then (if in_run then collapse_spaces true rest
            else " "%char :: collapse_spaces true rest)
      else c :: collapse_spaces false rest
  end.

Fixpoint TrimLeft (s : list Ascii.ascii) : list Ascii.ascii :=
  match s with
  | [] => []
  | c :: rest => if cutset c then TrimLeft rest else s
  end.

Definition TrimRight (s : list Ascii.ascii) : list Ascii.ascii :=
  reverse (TrimLeft (reverse s)).

(** [strings.Trim(s, ". ")] trims the right end, then the left end. *)
Definition Trim (s : list Ascii.ascii) : list Ascii.ascii := TrimLeft (TrimRight s).

Definition Unknown : list Ascii.ascii := String.list_ascii_of_string "Unknown".

Definition SanitizeFileName (name : list Ascii.ascii) : list Ascii.ascii :=
  if decide (name = []) then Unknown
  else
    let sanitized := remove_invalid name in
    let sanitized := collapse_spaces false sanitized in
    let sanitized := Trim sanitized in
    let sanitized :=
      if 200 <? length sanitized then take 200 sanitized else sanitized in
    if decide (sanitized = []) then Unknown else sanitized.

(** No two neighbouring bytes are both of the class [\s]. *)
Fixpoint single_spaced (s : list Ascii.ascii) : bool :=
  match s with
  | c :: rest =>
      negb (space c && match rest with d :: _ => space d | [] => false end)
      && single_spaced rest
  | [] => true
  end.

(** A name that needs no change. *)
Definition clean (s : list Ascii.ascii) : Prop :=
  s ≠ [] ∧ length s ≤ 200
  ∧ Forall (λ c, invalid c = false) s
  ∧ single_spaced s = true
  ∧ (∀ c, head s = Some c → cutset c = false)
  ∧ (∀ c, last s = Some c → cutset c = false).

(** One worker; a client starts the manager and enqueues track 5, whose
    fetch fails; then it calls [Stop] (the worker ends when the queue is
    closed) and [Start] again.  [retry_restart_schedule] stops there: track
    5 is in the Failed Registry and the manager is running.  [retry_call]
    is the call of [RetryAllFailed] that the client makes next, as far as it
    gets. *)
Definition retry_restart_init : Config :=
  init_config 1 true
    [[OStart; OQueueDownload 5 "out" "t" "a"; OStop; OStart; ORetryAllFailed]].

Definition retry_restart_schedule : schedule :=
  runs [0;0;0;0; 0;0;0;0;0; 1;1;1;1;1;1] ++ [(1, fetch_timeout 5, [])]
  ++ runs [1;1;1;1;1; 0;0;0; 1;1; 0; 0;0;0;0].

Definition retry_call : schedule := runs [0;0;0;0;0;0].

(** One worker; a client starts the manager and enqueues tracks 5 and 9;
    the fetch of each fails. *)
Definition two_failed_init : Config :=
  init_config 1 true
    [[OStart; OQueueDownload 5 "out" "t" "a"; OQueueDownload 9 "out" "u" "a"]].

Definition two_failed_schedule : schedule :=
  runs [0;0;0;0; 0;0;0;0;0; 0;0;0;0;0; 1;1;1;1;1;1]
  ++ [(1, fetch_timeout 5, [])]
  ++ runs [1;1;1;1;1; 1;1;1;1;1;1] ++ [(1, fetch_timeout 9, [])]
  ++ runs [1;1;1;1;1].

(** * Properties *)

(** ** Steps *)

Ltac tstep_inv H :=
  cbn [tstep] in H;
  unfold pause_gate, WithCancel, QueueDownload_return, CancelDownload,
    ClearFailed, PauseQueue, ResumeQueue in H;
  repeat (case_match; simplify_eq); simplify_eq.

Lemma notify_callback dm trackID status result :
  onProgress dm = true →
  notify dm trackID status result = [ANotify (mkEvent trackID status result)].
Proof. unfold notify. by intros ->. Qed.

Lemma notify_no_callback dm trackID status result :
  onProgress dm = false → notify dm trackID status result = [].
Proof. unfold notify. by intros ->. Qed.

(** No step of any goroutine changes the callback. *)
Lemma tstep_onProgress me fetch order p dm p' dm' acts :
  tstep me fetch order p dm = Some (p', dm', acts) → onProgress dm' = onProgress dm.
Proof.
  intros H. destruct p; tstep_inv H; try done.
  unfold call_cancelFunc. by case_match.
Qed.

(** ** Pause, resume, stop (C7) *)

Lemma PauseQueue_paused dm : paused dm = true → PauseQueue dm = (false, dm).
Proof. unfold PauseQueue. by intros ->. Qed.

Lemma PauseQueue_not_paused dm :
  paused dm = false → PauseQueue dm = (true, set_paused true dm).
Proof. unfold PauseQueue. by intros ->. Qed.

Lemma ResumeQueue_not_paused dm : paused dm = false → ResumeQueue dm = (false, dm).
Proof. unfold ResumeQueue. by intros ->. Qed.

Lemma ResumeQueue_paused dm :
  paused dm = true →
  ResumeQueue dm = (true, set_pauseCond [] (set_paused false dm)).
Proof. unfold ResumeQueue. by intros ->. Qed.

(** A worker parked in [pauseCond.Wait()] cannot step; after the broadcast of
    [ResumeQueue] it leaves the gate (unless the queue is paused again
    before the worker has the lock). *)
Lemma ResumeQueue_wakes me fetch order job dm :
  paused dm = true → me ∈ pauseCond dm →
  tstep me fetch order (W_Parked job) dm = None
  ∧ tstep me fetch order (W_Parked job) (ResumeQueue dm).2
    = Some (W_CheckRunning job, (ResumeQueue dm).2, []).
Proof.
  intros Hp Hin. rewrite ResumeQueue_paused by done. cbn.
  rewrite bool_decide_eq_true_2 by done. split; [done|].
  rewrite bool_decide_eq_false_2 by set_solver. done.
Qed.

Lemma Stop_not_running dm :
  running dm = false → Stop dm = (Idle, dm, [ARet OStop RUnit]).
Proof. unfold Stop. cbn. by intros ->. Qed.

(** However far [Stop] gets (it returns, waits for the workers, or panics on
    a queue closed before), it leaves [running] false. *)
Lemma Stop_running dm : running (Stop dm).1.2 = false.
Proof.
  unfold Stop. cbn. destruct (running dm) eqn:Hr; cbn; [|done].
  destruct (queue_closed dm); cbn; [done|].
  destruct (wg dm =? 0)%Z; done.
Qed.

(** C7. [PauseQueue] and [ResumeQueue] return a boolean, never an error:
    [PauseQueue] returns false and changes nothing when already paused, and
    otherwise sets [paused] and returns true; [ResumeQueue] returns false
    and changes nothing when not paused, and otherwise clears [paused],
    releases every goroutine parked on the condition and returns true; a
    [Stop] that follows a [Stop] returns at once: the manager (its queue
    included) is unchanged and its only action is its return. *)
Theorem C7_pause_resume_stop_idempotent (dm : DownloadManager) :
  (if paused dm
   then PauseQueue dm = (false, dm)
        ∧ ResumeQueue dm = (true, set_pauseCond [] (set_paused false dm))
   else PauseQueue dm = (true, set_paused true dm)
        ∧ ResumeQueue dm = (false, dm))
  ∧ PauseQueue (PauseQueue dm).2 = (false, (PauseQueue dm).2)
  ∧ ResumeQueue (ResumeQueue dm).2 = (false, (ResumeQueue dm).2)
  ∧ Stop (Stop dm).1.2 = (Idle, (Stop dm).1.2, [ARet OStop RUnit]).
Proof.
  split_and!.
  - destruct (paused dm) eqn:Hp.
    + by rewrite PauseQueue_paused, ResumeQueue_paused.
    + by rewrite PauseQueue_not_paused, ResumeQueue_not_paused.
  - apply PauseQueue_paused. unfold PauseQueue. by destruct (paused dm) eqn:Hp.
  - apply ResumeQueue_not_paused. unfold ResumeQueue.
    by destruct (paused dm) eqn:Hp.
  - apply Stop_not_running, Stop_running.
Qed.

(** ** Jobs stay well-formed *)

Lemma job_ok_mono n m job : job_ok n job → n ≤ m → job_ok m job.
Proof. intros (c & ? & ? & ?) ?. exists c. split_and!; [done..|lia]. Qed.

Lemma jobs_ok_mono n m (jobs : list DownloadJob) :
  Forall (job_ok n) jobs → n ≤ m → Forall (job_ok m) jobs.
Proof. intros H ?. eapply Forall_impl; [done|]. eauto using job_ok_mono. Qed.

Lemma map_jobs_ok_mono n m (jobs : gmap Z DownloadJob) :
  map_Forall (λ _, job_ok n) jobs → n ≤ m → map_Forall (λ _, job_ok m) jobs.
Proof. intros H ? i job Hi. eapply job_ok_mono; [by eapply H|done]. Qed.

Lemma caller_ok_mono n m k : caller_ok n k → n ≤ m → caller_ok m k.
Proof. destruct k; cbn; eauto using jobs_ok_mono. Qed.

Lemma pc_ok_mono n m p : pc_ok n p → n ≤ m → pc_ok m p.
Proof.
  destruct p; cbn; try done; intros; destruct_and?; try split;
    eauto using job_ok_mono, jobs_ok_mono, caller_ok_mono.
Qed.

(** ** Iterating over a map *)

(** Whatever the order, an iteration visits every entry once. *)
Lemma map_values_perm order : ∀ m : gmap Z DownloadJob,
  map_values order m ≡ₚ (map_to_list m).*2.
Proof.
  induction order as [|k order IH]; intros m; [done|]. cbn.
  destruct (m !! k) as [job|] eqn:Hk; [|done].
  by rewrite IH, <-(map_to_list_delete m k job Hk).
Qed.

(** Every order of the entries is the order of some iteration. *)
Lemma map_values_any_order (l : list (Z * DownloadJob)) : ∀ m,
  l ≡ₚ map_to_list m → map_values l.*1 m = l.*2.
Proof.
  induction l as [|[k job] l IH]; intros m Hl.
  - symmetry in Hl. apply Permutation_nil_r in Hl. cbn. by rewrite Hl.
  - assert (Hk : m !! k = Some job).
    { apply elem_of_map_to_list. rewrite <-Hl. by left. }
    cbn. rewrite Hk. f_equal. apply IH.
    rewrite <-(map_to_list_delete m k job Hk) in Hl.
    by apply Permutation_cons_inv in Hl.
Qed.

Lemma map_values_empty order : map_values order ∅ = [].
Proof.
  induction order as [|k order IH]; cbn; [by rewrite map_to_list_empty|].
  by rewrite lookup_empty.
Qed.

Lemma length_map_values order (m : gmap Z DownloadJob) :
  length (map_values order m) = size m.
Proof. by rewrite map_values_perm, length_fmap, length_map_to_list. Qed.

Lemma elem_of_map_values order (m : gmap Z DownloadJob) job :
  job ∈ map_values order m ↔ ∃ k, m !! k = Some job.
Proof.
  rewrite map_values_perm, list_elem_of_fmap. split.
  - intros ([k j] & -> & Hin). exists k. by apply elem_of_map_to_list.
  - intros [k Hk]. exists (k, job). split; [done|]. by apply elem_of_map_to_list.
Qed.

Lemma map_values_ok n order (m : gmap Z DownloadJob) :
  map_Forall (λ _, job_ok n) m → Forall (job_ok n) (map_values order m).
Proof.
  intros H. apply Forall_forall. intros job [k Hk]%elem_of_map_values.
  by eapply H.
Qed.

Lemma call_cancelFunc_fields job dm :
  queue (call_cancelFunc job dm) = queue dm
  ∧ activeJobs (call_cancelFunc job dm) = activeJobs dm
  ∧ failedJobs (call_cancelFunc job dm) = failedJobs dm
  ∧ ctx_next (call_cancelFunc job dm) = ctx_next dm.
Proof. unfold call_cancelFunc. by case_match. Qed.

Lemma tstep_ok me fetch order p dm p' dm' acts :
  dm_ok dm → pc_ok (ctx_next dm) p →
  tstep me fetch order p dm = Some (p', dm', acts) →
  dm_ok dm' ∧ pc_ok (ctx_next dm') p' ∧ ctx_next dm ≤ ctx_next dm'.
Proof.
  intros (Hq & Ha & Hf) Hp H. unfold dm_ok.
  destruct p; tstep_inv H; cbn in *; destruct_and?;
    repeat match goal with
      | H : Forall _ (_ :: _) |- _ => apply Forall_cons in H as [? ?]
      | |- context [call_cancelFunc ?j ?d] =>
          destruct (call_cancelFunc_fields j d) as (-> & -> & -> & ->)
      end;
    split_and?; auto;
    try first
      [ by apply map_Forall_insert_2
      | by apply map_Forall_delete
      | by apply map_Forall_empty
      | by apply map_values_ok
      | by apply Forall_app_2; [|apply Forall_singleton]
      | by eapply jobs_ok_mono; [|apply Nat.le_succ_diag_r]
      | by eapply caller_ok_mono; [|apply Nat.le_succ_diag_r]
      | by eapply map_jobs_ok_mono; [|apply Nat.le_succ_diag_r]
      | by eexists; split_and!; [done..|lia]
      | congruence ].
Qed.

Lemma spawned_ok n acts : Forall (λ t, pc_ok n (pc t)) (spawned acts).
Proof.
  unfold spawned. apply Forall_forall. intros t Ht.
  apply list_elem_of_omap in Ht as (a & _ & Ha). by destruct a; simplify_eq.
Qed.

Lemma entry_ok n o : pc_ok n (entry o).
Proof. by destruct o. Qed.

Lemma step_ok i fetch order c : config_ok c → config_ok (step i fetch order c).
Proof.
  intros [Hdm Hts]. unfold step.
  destruct (crashed c); [done|].
  destruct (threads c !! i) as [t|] eqn:Hi; [|done].
  destruct (next_call t) as [[o rest]|].
  { split; [done|]. cbn. apply Forall_insert; [done|]. apply entry_ok. }
  destruct (tstep i fetch order (pc t) (manager c)) as [[[p' dm'] acts]|] eqn:Hstep;
    [|done].
  eapply tstep_ok in Hstep as (Hdm' & Hp' & Hle); [|done|].
  - split; [done|]. cbn. apply Forall_app_2; [|apply spawned_ok].
    apply Forall_insert; [|done].
    eapply Forall_impl; [done|]. cbn. eauto using pc_ok_mono.
  - by eapply (Forall_lookup_1 _ _ _ _ Hts) in Hi.
Qed.

Lemma exec_ok s c : config_ok c → config_ok (exec s c).
Proof.
  revert c. induction s as [|[[i f] ord] s IH]; intros c Hc; [done|].
  cbn. apply IH. by apply step_ok.
Qed.

Lemma init_config_ok w callback scripts : config_ok (init_config w callback scripts).
Proof.
  split; [by split_and!|]. cbn.
  apply Forall_fmap, Forall_forall. by intros.
Qed.

(** In every reachable configuration all the jobs (in the queue, in the two
    registries and held by the goroutines) were made by [QueueDownload]. *)
Lemma reachable_ok c : reachable c → config_ok c.
Proof. intros (w & cb & scripts & s & ->). apply exec_ok, init_config_ok. Qed.

(** ** Cancellation by id *)


Lemma CancelDownload_not_active trackID dm :
  activeJobs dm !! trackID = None →
  CancelDownload trackID dm = (Some (ErrNotDownloading trackID), dm).
Proof. unfold CancelDownload. by intros ->. Qed.

Lemma CancelDownload_active trackID job dm :
  activeJobs dm !! trackID = Some job →
  CancelDownload trackID dm = (None, call_cancelFunc job dm).
Proof. unfold CancelDownload. by intros ->. Qed.


(** ** One execution of processJob (C3, C8, C9, C10) *)

(** Whether a context is done depends on the set of cancelled contexts only. *)
Lemma ctx_is_done_ext job dm1 dm2 :
  ctx_done dm1 = ctx_done dm2 → ctx_is_done job dm1 = ctx_is_done job dm2.
Proof. unfold ctx_is_done. by intros ->. Qed.

Ltac trun_inv :=
  match goal with
  | H : trun _ _ ?p _ _ |- ?G =>
      let hidden := fresh "hidden" in
      set (hidden := G);
      inversion H; subst; clear H;
      match goal with
      | Hs : tstep _ _ _ _ _ = Some _ |- _ => tstep_inv Hs
      end;
      subst hidden;
      try match goal with
        | Hr : at_rest _ = _ |- _ => by cbn in Hr
        end;
      try match goal with
        | Hr : at_rest _ = _ |- _ => clear Hr
        end
  end.

(** A run among other goroutines that ends at a point of rest is a run in
    the sense of [trun]. *)
Lemma run_among_trun cb me fetch order : ∀ dms p steps p',
  Forall (λ d, onProgress d = cb) dms →
  run_among me fetch order p dms = (steps, p') →
  at_rest p = false → at_rest p' = true →
  trun cb me p steps p'.
Proof.
  induction dms as [|dm dms IH]; intros p steps p' Hcb Hrun Hp Hp'.
  { cbn in Hrun. simplify_eq. congruence. }
  apply Forall_cons in Hcb as [Hdm Hcb]. cbn in Hrun.
  destruct (tstep me fetch order p dm) as [[[p1 dm1] acts]|] eqn:Hstep;
    [|simplify_eq; congruence].
  destruct (at_rest p1) eqn:Hp1.
  - simplify_eq. by eapply trun_last.
  - destruct (run_among me fetch order p1 dms) as [steps1 p2] eqn:Hrest.
    simplify_eq. eapply trun_more; [done..|]. by eapply IH.
Qed.

(** No step of [processJob] is ever blocked: from its entry, whatever
    managers the worker finds at its steps, at most nine steps take it to a
    point of rest, which is the head of the worker loop unless the fetch
    returned [(nil, nil)]. *)
Lemma processJob_returns me fetch order job dms :
  9 ≤ length dms →
  let r := run_among me fetch order (PJ_PreCheck job) dms in
  length r.1 ≤ 9
  ∧ (r.2 = W_Range ∨ (r.2 = Crashed ∧ fetch = (None, None))).
Proof.
  intros Hlen.
  destruct dms as [|d1 [|d2 [|d3 [|d4 [|d5 [|d6 [|d7 [|d8 [|d9 dms]]]]]]]]];
    cbn in Hlen; try lia. clear Hlen.
  cbn [run_among tstep at_rest fst snd].
  destruct (ctx_is_done job d1); cbn [run_among tstep at_rest fst snd length].
  { split; [lia|auto]. }
  destruct (ctx_is_done job d5); cbn [run_among tstep at_rest fst snd length].
  { split; [lia|auto]. }
  destruct fetch as [[r|] [e|]]; cbn [run_among tstep at_rest fst snd length];
    try (split; [lia|auto]).
  destruct (Success r); cbn [negb run_among tstep at_rest fst snd length];
    (split; [lia|auto]).
Qed.

(** C8. Take any execution of [processJob] by a worker, whatever the other
    goroutines do meanwhile, with the progress callback installed.  It ends
    back in the worker loop or in a panic.  The callback is called at most
    once per status and at most once with a terminal status.  When the
    execution returns, it has made exactly one terminal call, with
    "cancelled", "error" or "completed", and its calls are either the single
    "cancelled" of the check before the fetch, or "downloading" followed by
    that terminal call.  And every execution comes to that end: whatever
    managers the worker finds at its steps, none of its steps is blocked,
    and at most nine of them take it back to the worker loop, having made
    exactly one terminal call, or, only when the fetch returned
    [(nil, nil)], to the panic. *)
Theorem C8_one_terminal_event (me : nat) (job : DownloadJob)
    (steps : list tstep_record) (p' : PC)
    (fetch : FetchRet) (order : list Z) (dms : list DownloadManager) :
  (trun true me (PJ_PreCheck job) steps p' →
   let evs := notified (actions_of steps) in
   (p' = W_Range ∨ p' = Crashed)
   ∧ NoDup (ev_Status <$> evs)
   ∧ length (filter terminal_event evs) ≤ 1
   ∧ (p' = W_Range →
      ∃ status result,
        filter terminal_event evs = [mkEvent (TrackID job) status result]
        ∧ (status = "cancelled" ∨ status = "error" ∨ status = "completed")
        ∧ (evs = [mkEvent (TrackID job) "cancelled" None]
           ∨ evs = [mkEvent (TrackID job) "downloading" None;
                    mkEvent (TrackID job) status result])))
  ∧ (9 ≤ length dms → Forall (λ d, onProgress d = true) dms →
     let r := run_among me fetch order (PJ_PreCheck job) dms in
     trun true me (PJ_PreCheck job) r.1 r.2
     ∧ length r.1 ≤ 9
     ∧ (r.2 = W_Range ∨ (r.2 = Crashed ∧ fetch = (None, None)))
     ∧ (r.2 = W_Range →
        length (filter terminal_event (notified (actions_of r.1))) = 1)).
Proof.
  assert (Hone : ∀ steps p',
    trun true me (PJ_PreCheck job) steps p' →
    let evs := notified (actions_of steps) in
    (p' = W_Range ∨ p' = Crashed)
    ∧ NoDup (ev_Status <$> evs)
    ∧ length (filter terminal_event evs) ≤ 1
    ∧ (p' = W_Range →
       ∃ status result,
         filter terminal_event evs = [mkEvent (TrackID job) status result]
         ∧ (status = "cancelled" ∨ status = "error" ∨ status = "completed")
         ∧ (evs = [mkEvent (TrackID job) "cancelled" None]
            ∨ evs = [mkEvent (TrackID job) "downloading" None;
                     mkEvent (TrackID job) status result]))).
  { clear steps p'. intros steps p' H evs. subst evs.
    repeat trun_inv; unfold actions_of; cbn;
      rewrite ?notify_callback by done; cbn.
    all: split_and!; [auto | compute_done
                     | compute_done | ].
    all: try (intros ?; discriminate).
    all: intros _; do 2 eexists; split_and!;
      [vm_compute; reflexivity | eauto | eauto]. }
  split; [apply Hone|].
  intros Hlen Hcb r.
  destruct (processJob_returns me fetch order job dms Hlen) as [Hsteps Hend].
  fold r in Hsteps, Hend.
  assert (Hrun : trun true me (PJ_PreCheck job) r.1 r.2).
  { apply (run_among_trun true me fetch order dms); [done| |done|].
    - subst r. by destruct (run_among _ _ _ _ _).
    - by destruct Hend as [->|[-> _]]. }
  split_and!; [done..|].
  intros Hret. destruct (Hone _ _ Hrun) as (_ & _ & _ & Hex).
  destruct (Hex Hret) as (status & result & -> & _). done.
Qed.

(** C3. Take any execution of [processJob] from the check of the job's
    context after the fetch (lines 165-172), whatever the other goroutines do
    meanwhile and whatever the fetch returned, success or error.  If the
    context is done at that check, the execution returns to the worker loop,
    its only call of the callback (if one is installed) is "cancelled" with a
    nil result, and none of its steps changes the Failed Registry.  And the
    execution does come to that end: whatever managers the worker finds at
    its three later steps, none of the four steps is blocked and the fourth
    is back in the worker loop. *)
Theorem C3_cancelled_after_fetch (cb : bool) (me : nat) (job : DownloadJob)
    (result : option DownloadResult) (err : option string)
    (dm dm1 : DownloadManager) (acts1 : list action)
    (steps : list tstep_record) (p' : PC)
    (fetch : FetchRet) (order : list Z) (d2 d3 d4 : DownloadManager) :
  ctx_is_done job dm = true →
  (trun cb me (PJ_PostCheck job result err) ((dm, dm1, acts1) :: steps) p' →
   p' = W_Range
   ∧ notified (actions_of ((dm, dm1, acts1) :: steps))
     = (if cb then [mkEvent (TrackID job) "cancelled" None] else [])
   ∧ Forall (λ s : tstep_record, failedJobs s.1.2 = failedJobs s.1.1)
       ((dm, dm1, acts1) :: steps))
  ∧ (onProgress dm = cb → onProgress d2 = cb →
     onProgress d3 = cb → onProgress d4 = cb →
     let r := run_among me fetch order (PJ_PostCheck job result err)
                [dm; d2; d3; d4] in
     r.2 = W_Range
     ∧ r.1.*1.*1 = [dm; d2; d3; d4]
     ∧ trun cb me (PJ_PostCheck job result err) r.1 r.2
     ∧ notified (actions_of r.1)
       = (if cb then [mkEvent (TrackID job) "cancelled" None] else [])
     ∧ Forall (λ s : tstep_record, failedJobs s.1.2 = failedJobs s.1.1) r.1).
Proof.
  intros Hdone. split.
  - intros H. trun_inv. rewrite Hdone in *.
    repeat trun_inv; unfold actions_of, notify; cbn;
      repeat match goal with
        | H : onProgress _ = _ |- _ => rewrite ?H; clear H
        end; cbn.
    all: split_and!; [done | by destruct (onProgress _) | ].
    all: repeat (apply Forall_cons_2; [done|]); apply Forall_nil_2.
  - intros H1 H2 H3 H4 r.
    assert (Hr : r = ([(dm, dm, []);
                       (d2, set_activeJobs (delete (TrackID job) (activeJobs d2)) d2,
                        []);
                       (d3, d3, notify d3 (TrackID job) "cancelled" None);
                       (d4, if bool_decide (length (results d4) < chan_cap)
                            then set_results (results d4 ++ [result]) d4
                            else d4, [])], W_Range)).
    { subst r. cbn [run_among tstep at_rest]. by rewrite Hdone. }
    split_and!.
    + by rewrite Hr.
    + by rewrite Hr.
    + apply (run_among_trun cb me fetch order [dm; d2; d3; d4]);
        [by repeat constructor| |done|by rewrite Hr].
      clear Hr. subst r. by destruct (run_among _ _ _ _ _).
    + rewrite Hr. unfold actions_of, notify. cbn. rewrite H3.
      by destruct cb.
    + rewrite Hr. repeat (apply Forall_cons_2; [|]); try apply Forall_nil_2;
        cbn; try done. by destruct (bool_decide _).
Qed.

(** C9. The result handling of [processJob] (lines 180-197) panics on a nil
    pointer exactly when the job is not cancelled and the fetch returned a
    nil result with a nil error.  With a non-nil error the result is passed
    on as it is, nil or not, and never read.  So an execution of
    [processJob] whose fetch returns [(nil, nil)] panics when the context is
    not done, and one whose fetch returns anything else returns. *)
Theorem C9_nil_result_nil_error_panics (me : nat) (fetch : FetchRet)
    (order : list Z)
    (job : DownloadJob) (dm : DownloadManager) :
  (∀ result err cancelled,
     (∃ dm' acts,
        tstep me fetch order (PJ_HandleResult job result err cancelled) dm
        = Some (Crashed, dm', acts))
     ↔ cancelled = false ∧ err = None ∧ result = None)
  ∧ (∀ result e,
       tstep me fetch order (PJ_HandleResult job result (Some e) false) dm
       = Some (PJ_NotifyError job result,
               set_failedJobs (<[TrackID job := job]> (failedJobs dm)) dm, []))
  ∧ (ctx_is_done job dm = false →
     (processJob (None, None) job dm).1.1 = Crashed
     ∧ (processJob (None, None) job dm).2
       = notify dm (TrackID job) "downloading" None
         ++ [APanic "invalid memory address or nil pointer dereference"])
  ∧ (fetch ≠ (None, None) → (processJob fetch job dm).1.1 = W_Range).
Proof.
  split_and!.
  - intros result err cancelled. split.
    + intros (dm' & acts & H). by tstep_inv H.
    + intros (-> & -> & ->). by do 2 eexists.
  - done.
  - intros Hdone. unfold processJob. cbn [run tstep at_rest fst snd].
    rewrite Hdone. cbn [run tstep at_rest fst snd].
    rewrite (ctx_is_done_ext job _ dm), Hdone by done. cbn.
    done.
  - intros Hf. unfold processJob. cbn [run tstep at_rest fst snd].
    destruct (ctx_is_done job dm) eqn:Hdone; cbn [run tstep at_rest fst snd];
      [done|].
    rewrite (ctx_is_done_ext job _ dm), Hdone by done.
    destruct fetch as [[r|] [e|]]; [| | |done]; cbn; try done.
    by destruct (Success r).
Qed.

(** C10 (counterexample). Track 7 has been enqueued twice.  The first job is
    in the Active Registry; the worker of the second job has called the
    callback with "downloading" and has not yet entered its job.  In that
    window [GetActiveCount] counts the id already, [CancelDownload] of the id
    returns nil (it cancels the first job, not the second), and the step that
    enters the second job leaves the count as it is. *)
Lemma C10_downloading_while_id_active :
  let c := exec twice_schedule twice_init in
  pc_at 2 c = Some (PJ_MarkActive job7')
  ∧ last (trace c) = Some (2, ANotify (mkEvent 7 "downloading" None))
  ∧ activeJobs (manager c) !! 7%Z = Some job7
  ∧ GetActiveCount (manager c) = 1%Z
  ∧ (CancelDownload 7 (manager c)).1 = None
  ∧ ctx_is_done job7 (CancelDownload 7 (manager c)).2 = true
  ∧ ctx_is_done job7' (CancelDownload 7 (manager c)).2 = false
  ∧ activeJobs (manager (step 2 no_fetch [] c)) !! 7%Z = Some job7'
  ∧ GetActiveCount (manager (step 2 no_fetch [] c)) = 1%Z.
Proof. by vm_compute. Qed.

(** C10 (amended). A worker calls the callback with "downloading" (lines
    150-152) in a step that leaves the manager as it is, and enters the job
    in the Active Registry only in its next step (lines 155-159); that step
    is reached from no other, and no other step makes the job the entry of
    its id.  Between the two steps "downloading" has been observed and the
    job is not in the registry.  When no job with the same id is in the
    registry, [GetActiveCount] does not count the id, [CancelDownload] of
    the id returns the error "not currently downloading" and changes
    nothing, and the insertion makes the count one more.  When another job
    with the same id is in the registry, [CancelDownload] of the id calls
    the cancel function of that other job and returns nil, and the insertion
    replaces the entry and leaves the count as it is. *)
Theorem C10_downloading_before_active (me : nat) (fetch : FetchRet)
    (order : list Z) (job : DownloadJob) (dm : DownloadManager) :
  onProgress dm = true →
  tstep me fetch order (PJ_NotifyStart job) dm
  = Some (PJ_MarkActive job, dm,
          [ANotify (mkEvent (TrackID job) "downloading" None)])
  ∧ (∃ dm', tstep me fetch order (PJ_MarkActive job) dm
            = Some (PJ_Download job, dm', [])
            ∧ activeJobs dm' !! TrackID job = Some job
            ∧ GetActiveCount dm'
              = match activeJobs dm !! TrackID job with
                | Some _ => GetActiveCount dm
                | None => (GetActiveCount dm + 1)%Z
                end)
  ∧ (activeJobs dm !! TrackID job = None →
     CancelDownload (TrackID job) dm
     = (Some (ErrNotDownloading (TrackID job)), dm))
  ∧ (∀ other, activeJobs dm !! TrackID job = Some other →
       CancelDownload (TrackID job) dm = (None, call_cancelFunc other dm))
  ∧ (∀ p f ord dm0 dm1 acts,
       tstep me f ord p dm0 = Some (PJ_MarkActive job, dm1, acts) →
       p = PJ_NotifyStart job ∧ dm1 = dm0
       ∧ acts = notify dm0 (TrackID job) "downloading" None)
  ∧ (∀ p f ord dm0 p1 dm1 acts,
       tstep me f ord p dm0 = Some (p1, dm1, acts) →
       activeJobs dm0 !! TrackID job ≠ Some job →
       activeJobs dm1 !! TrackID job = Some job →
       p = PJ_MarkActive job).
Proof.
  intros Hcb. split_and!.
  - cbn. by rewrite notify_callback.
  - eexists. split; [done|]. cbn. split; [by rewrite lookup_insert_eq|].
    unfold GetActiveCount. cbn.
    destruct (activeJobs dm !! TrackID job) eqn:Hj.
    + by rewrite map_size_insert_Some.
    + rewrite map_size_insert_None by done. lia.
  - apply CancelDownload_not_active.
  - intros other Hother. by apply CancelDownload_active.
  - intros p f ord dm0 dm1 acts H. by destruct p; tstep_inv H.
  - intros p f ord dm0 p1 dm1 acts H Hn Hs.
    destruct p; tstep_inv H; cbn in *; try congruence.
    + destruct (decide (TrackID job0 = TrackID job)) as [Heq|Hne].
      * rewrite Heq, lookup_insert_eq in Hs. congruence.
      * rewrite lookup_insert_ne in Hs by done. congruence.
    + apply lookup_delete_Some in Hs as [_ Hs]. congruence.
    + destruct (call_cancelFunc_fields d dm0) as (_ & Ha & _).
      rewrite Ha in Hs. congruence.
Qed.

(** ** Enqueueing (C1, C2, C6) *)

(** C1 (amended). Take any call of [QueueDownload] by a client, whatever the
    other goroutines do meanwhile, with the progress callback installed.
    Either it finds the manager not running and returns the error in one
    step that changes nothing; or it runs into a closed queue and panics; or
    it returns nil, and then it has, in this order, made the job with a new
    context, appended it to the queue, and in its last step called the
    callback with "queued" and returned. *)
Theorem C1_queued_emitted_before_return (me : nat) (trackID : Z)
    (outputDir title artist : string) (steps : list tstep_record) (p' : PC) :
  trun true me (QD_CheckRunning trackID outputDir title artist KClient) steps p' →
  let o := OQueueDownload trackID outputDir title artist in
  (p' = Idle
   ∧ ∃ dm, running dm = false
           ∧ steps = [(dm, dm, [ARet o (RErr (Some ErrNotRunning))])])
  ∨ (p' = Crashed
     ∧ last (actions_of steps) = Some (APanic "send on closed channel"))
  ∨ (p' = Idle
     ∧ ∃ d1 d2 d3 d4,
         let job := mkJob trackID outputDir title artist
                      (Some (ctx_next d2)) (Some (ctx_next d2)) in
         running d1 = true
         ∧ queue_closed d3 = false
         ∧ steps = [(d1, d1, []);
                    (d2, set_ctx_next (S (ctx_next d2)) d2, []);
                    (d3, set_queue (queue d3 ++ [job]) d3, []);
                    (d4, d4, [ANotify (mkEvent trackID "queued" None);
                              ARet o (RErr None)])]).
Proof.
  intros H o. subst o. repeat trun_inv.
  - left. split; [done|]. eexists. split; [|done].
    by apply negb_true_iff.
  - right. left. done.
  - right. right. split; [done|]. do 4 eexists. split_and!; [|done|].
    + by apply negb_false_iff.
    + by rewrite notify_callback.
Qed.

(** C1 (counterexample). A client enqueues track 7 and [QueueDownload]
    returns nil, but the listener has observed "downloading" for track 7
    before "queued": the worker received the job between the send of line
    228 and the notification of line 232. *)
Lemma C1_downloading_before_queued :
  let c := exec race_schedule race_init in
  last (trace c) = Some (0, ARet (OQueueDownload 7 "out" "t" "a") (RErr None))
  ∧ events c = [mkEvent 7 "downloading" None; mkEvent 7 "queued" None]
  ∧ ¬ queued_first 7 (events c).
Proof.
  split_and!; [by vm_compute..|].
  intros H. destruct (H 0) as (j & Hj & _); [by vm_compute|lia].
Qed.


(** [QueueDownload] run alone, by the state it finds. *)
Lemma QueueDownload_not_running trackID outputDir title artist dm :
  running dm = false →
  QueueDownload trackID outputDir title artist dm
  = (Idle, dm,
     [ARet (OQueueDownload trackID outputDir title artist)
           (RErr (Some ErrNotRunning))]).
Proof. intros Hr. unfold QueueDownload. cbn. by rewrite Hr. Qed.

Lemma QueueDownload_running_open trackID outputDir title artist dm :
  running dm = true → queue_closed dm = false →
  length (queue dm) < chan_cap →
  QueueDownload trackID outputDir title artist dm
  = (Idle,
     set_queue (queue dm ++ [mkJob trackID outputDir title artist
                               (Some (ctx_next dm)) (Some (ctx_next dm))])
       (set_ctx_next (S (ctx_next dm)) dm),
     notify dm trackID "queued" None
     ++ [ARet (OQueueDownload trackID outputDir title artist) (RErr None)]).
Proof.
  intros Hr Hc Hlen. unfold QueueDownload.
  cbn [run tstep at_rest WithCancel fst snd]. rewrite Hr.
  cbn [negb run tstep at_rest WithCancel fst snd queue_closed set_ctx_next queue].
  rewrite Hc, bool_decide_eq_true_2 by done. done.
Qed.

(** Blocked on the send of line 228 while the queue is full. *)
Lemma QueueDownload_running_full trackID outputDir title artist dm :
  running dm = true → queue_closed dm = false →
  chan_cap ≤ length (queue dm) →
  QueueDownload trackID outputDir title artist dm
  = (QD_Send (mkJob trackID outputDir title artist
                (Some (ctx_next dm)) (Some (ctx_next dm))) KClient,
     set_ctx_next (S (ctx_next dm)) dm, []).
Proof.
  intros Hr Hc Hlen. unfold QueueDownload.
  cbn [run tstep at_rest WithCancel fst snd]. rewrite Hr.
  cbn [negb run tstep at_rest WithCancel fst snd queue_closed set_ctx_next queue].
  rewrite Hc, bool_decide_eq_false_2 by lia. done.
Qed.

Lemma QueueDownload_running_closed trackID outputDir title artist dm :
  running dm = true → queue_closed dm = true →
  QueueDownload trackID outputDir title artist dm
  = (Crashed, set_ctx_next (S (ctx_next dm)) dm,
     [APanic "send on closed channel"]).
Proof.
  intros Hr Hc. unfold QueueDownload.
  cbn [run tstep at_rest WithCancel fst snd]. rewrite Hr.
  cbn [negb run tstep at_rest WithCancel fst snd queue_closed set_ctx_next queue].
  by rewrite Hc.
Qed.

(** C6 (failing input). After [Start], [Stop], [Start] the manager is
    running on a closed queue: [QueueDownload] passes the check of
    [running] and panics on the send of line 228. *)
Theorem C6_queue_after_restart_panics :
  let c := exec restart_schedule restart_init in
  running (manager c) = true
  ∧ queue_closed (manager c) = true
  ∧ crashed c = true
  ∧ last (trace c) = Some (0, APanic "send on closed channel")
  ∧ queue (manager c) = [].
Proof. by vm_compute. Qed.


(** An execution of [processJob] that nothing interferes with, on a context
    that is not done and a fetch that succeeds. *)
Lemma processJob_success job r dm :
  ctx_is_done job dm = false → Success r = true →
  ∃ dm',
    processJob (Some r, None) job dm
    = (W_Range, dm',
       notify dm (TrackID job) "downloading" None
       ++ notify dm (TrackID job) "completed" (Some r))
    ∧ failedJobs dm' = delete (TrackID job) (failedJobs dm)
    ∧ activeJobs dm' = delete (TrackID job) (activeJobs dm).
Proof.
  intros Hdone Hr. unfold processJob. cbn [run tstep at_rest fst snd].
  rewrite Hdone. cbn [run tstep at_rest fst snd].
  rewrite (ctx_is_done_ext job _ dm), Hdone by done.
  cbn. rewrite Hr. cbn. eexists. split; [by rewrite app_nil_r|].
  destruct (bool_decide _); cbn; by rewrite delete_insert_eq.
Qed.









(** ** Retrying *)

Lemma actions_of_cons (s : tstep_record) steps :
  actions_of (s :: steps) = s.2 ++ actions_of steps.
Proof. done. Qed.

Lemma calls_of_app acts1 acts2 :
  calls_of (acts1 ++ acts2) = calls_of acts1 ++ calls_of acts2.
Proof. apply omap_app. Qed.

Lemma enqueued_app acts1 acts2 :
  enqueued (acts1 ++ acts2) = enqueued acts1 + enqueued acts2.
Proof. unfold enqueued. by rewrite List.filter_app, length_app. Qed.

Lemma calls_of_notify dm trackID status result :
  calls_of (notify dm trackID status result) = [].
Proof. unfold notify. by destruct (onProgress dm). Qed.

Lemma enqueued_notify dm trackID status result :
  enqueued (notify dm trackID status result) = 0.
Proof. unfold notify. by destruct (onProgress dm). Qed.

Ltac trun_inv_call :=
  match goal with
  | H : trun _ _ (RA_Loop _ _) _ _ |- _ => fail 1
  | _ => trun_inv
  end.

(** The loop of [RetryAllFailed] (lines 302-309), whatever the other
    goroutines do meanwhile: when it returns, it has called [QueueDownload]
    once for each job, in order and with the fields of the job, it returns
    [retried] plus the number of these calls that returned nil, and none of
    its steps has changed the Failed Registry. *)
Lemma retry_loop_run cb me jobs retried steps :
  trun cb me (RA_Loop jobs retried) steps Idle →
  Forall (λ s : tstep_record, failedJobs s.1.2 = failedJobs s.1.1) steps
  ∧ calls_of (actions_of steps) = op_of_job <$> jobs
  ∧ last (actions_of steps)
    = Some (ARet ORetryAllFailed
              (RInt (retried + Z.of_nat (enqueued (actions_of steps))))).
Proof.
  revert retried steps. induction jobs as [|job rest IH]; intros retried steps H.
  { trun_inv. split_and!; [by apply Forall_singleton|done|].
    cbn. by rewrite Z.add_0_r. }
  trun_inv. repeat trun_inv_call.
  all: match goal with
       | H : trun _ _ (RA_Loop _ _) _ _ |- _ =>
           apply IH in H as (Hf & Hc & Hl)
       end.
  all: rewrite !actions_of_cons; cbn [fst snd app TrackID].
  all: try match goal with
         | |- context [notify ?d _ _ _] => unfold notify; destruct (onProgress d)
         end; cbn [app].
  all: split_and!;
    [ by repeat (apply Forall_cons_2; [done|])
    | unfold calls_of in *; cbn; by rewrite Hc
    | rewrite !last_cons, Hl; unfold enqueued; cbn; do 3 f_equal; lia ].
Qed.

(** The same loop when nothing interferes, on a running manager whose queue
    is open and has room for the jobs: every job is copied with a fresh
    context and appended to the queue. *)
Lemma run_retry_loop_running order jobs : ∀ dm retried fuel,
  running dm = true → queue_closed dm = false →
  length (queue dm) + length jobs ≤ chan_cap →
  1 + 5 * length jobs ≤ fuel →
  ∃ acts,
    run fuel 0 no_fetch order (RA_Loop jobs retried) dm
    = (Idle,
       set_ctx_next (ctx_next dm + length jobs)
         (set_queue (queue dm ++ imap (λ i, fresh_copy (ctx_next dm + i)) jobs) dm),
       acts)
    ∧ last acts
      = Some (ARet ORetryAllFailed (RInt (retried + Z.of_nat (length jobs)))).
Proof.
  induction jobs as [|job rest IH]; intros dm retried fuel Hr Hc Hlen Hfuel.
  { destruct fuel as [|fuel]; [lia|]. cbn. eexists. split.
    - destruct dm. unfold set_ctx_next, set_queue. cbn.
      by rewrite app_nil_r, Nat.add_0_r.
    - by rewrite Z.add_0_r. }
  cbn [length] in *.
  do 5 (destruct fuel as [|fuel]; [lia|]).
  cbn [run tstep at_rest WithCancel fst snd].
  rewrite Hr. cbn [negb run tstep at_rest WithCancel fst snd].
  cbn [queue_closed set_ctx_next queue]. rewrite Hc.
  rewrite bool_decide_eq_true_2 by lia.
  cbn [run tstep at_rest QueueDownload_return].
  edestruct (IH (set_queue (queue dm ++ [fresh_copy (ctx_next dm) job])
                   (set_ctx_next (S (ctx_next dm)) dm)) (retried + 1)%Z fuel)
    as (acts & Hrun & Hlast); [done | done | | lia |].
  { cbn. rewrite length_app. cbn. lia. }
  unfold fresh_copy at 1 in Hrun. rewrite Hrun. cbn [app].
  eexists. split.
  - do 2 f_equal. destruct dm. unfold set_ctx_next, set_queue. cbn.
    f_equal; [|lia]. rewrite <-app_assoc. cbn. do 2 f_equal.
    + by rewrite Nat.add_0_r.
    + apply imap_ext. intros i x _. cbn. f_equal. lia.
  - rewrite last_cons, last_app, Hlast. do 3 f_equal. lia.
Qed.

Lemma run_retry_loop_stopped order jobs : ∀ dm retried fuel,
  running dm = false →
  1 + 2 * length jobs ≤ fuel →
  ∃ acts,
    run fuel 0 no_fetch order (RA_Loop jobs retried) dm = (Idle, dm, acts)
    ∧ last acts = Some (ARet ORetryAllFailed (RInt retried))
    ∧ enqueued acts = 0.
Proof.
  induction jobs as [|job rest IH]; intros dm retried fuel Hr Hfuel.
  { destruct fuel as [|fuel]; [lia|]. cbn. by eexists. }
  cbn [length] in *.
  do 2 (destruct fuel as [|fuel]; [lia|]).
  cbn [run tstep at_rest fst snd]. rewrite Hr.
  cbn [negb run tstep at_rest QueueDownload_return].
  edestruct (IH dm retried fuel) as (acts & Hrun & Hlast & Hadm); [done|lia|].
  rewrite Hrun. cbn [app]. eexists. split_and!; [done| |done].
  by rewrite !last_cons, Hlast.
Qed.

(** The same loop on a manager that is running on a closed queue: the
    first call of [QueueDownload] panics. *)
Lemma run_retry_loop_closed order job rest dm retried fuel :
  running dm = true → queue_closed dm = true → 4 ≤ fuel →
  run fuel 0 no_fetch order (RA_Loop (job :: rest) retried) dm
  = (Crashed, set_ctx_next (S (ctx_next dm)) dm,
     [ACall (op_of_job job); APanic "send on closed channel"]).
Proof.
  intros Hr Hc Hfuel.
  do 4 (destruct fuel as [|fuel]; [lia|]).
  cbn [run tstep at_rest WithCancel fst snd]. rewrite Hr.
  cbn [negb run tstep at_rest WithCancel fst snd queue_closed set_ctx_next].
  by rewrite Hc.
Qed.

Lemma run_unfold fuel me fetch order p dm :
  run (S fuel) me fetch order p dm
  = match tstep me fetch order p dm with
    | None => (p, dm, [])
    | Some (p', dm', acts) =>
        if at_rest p' then (p', dm', acts)
        else let '(p'', dm'', acts') := run fuel me fetch order p' dm' in
             (p'', dm'', acts ++ acts')
    end.
Proof. done. Qed.


(** C4 (failing input). Track 5 has failed and is in the Failed Registry;
    after [Stop] and [Start] the manager is running on the queue that [Stop]
    closed.  [RetryAllFailed] takes the job out of the registry, and the
    [QueueDownload] it calls for it passes the check of [running] and panics
    on the send of line 228: no copy is enqueued, nothing is returned, and
    the job is in the registry no more. *)
Theorem C4_retry_after_restart_panics :
  let before := exec retry_restart_schedule retry_restart_init in
  let c := exec retry_call before in
  running (manager before) = true
  ∧ queue_closed (manager before) = true
  ∧ crashed before = false
  ∧ failedJobs (manager before) !! 5%Z
    = Some (mkJob 5 "out" "t" "a" (Some 0) (Some 0))
  ∧ GetFailedCount (manager before) = 1%Z
  ∧ crashed c = true
  ∧ last (trace c) = Some (0, APanic "send on closed channel")
  ∧ calls_of (snd <$> drop (length (trace before)) (trace c))
    = [ORetryAllFailed; OQueueDownload 5 "out" "t" "a"]
  ∧ GetFailedCount (manager c) = 0%Z
  ∧ queue (manager c) = [].
Proof. by vm_compute. Qed.

(** X21. [RetryAllFailed], whatever the other goroutines do meanwhile and
    in whatever order the runtime iterates over the Failed Registry: its
    first step takes the jobs of the Failed Registry, each once, and empties
    it, in one critical section; then it calls [QueueDownload] once for each
    job taken, with the fields of the job; no later step of it changes the
    Failed Registry; and when it returns, it returns the number of these
    calls that returned nil.  When nothing interferes and the manager (of a
    reachable configuration) is running with an open queue that has room,
    every job taken is appended to the queue as a copy with a context of its
    own, different from the context of every job taken, the Failed Registry
    is empty and the count of the jobs is returned; when the manager is
    stopped, nothing is enqueued, the Failed Registry is empty all the same,
    and 0 is returned; and when the manager is running on a closed queue and
    the registry is not empty, the first [QueueDownload] panics, with the
    registry empty and nothing enqueued. *)
Theorem RetryAllFailed_retries_each (c : Config) (cb : bool) (me : nat)
    (order : list Z) (steps : list tstep_record) :
  reachable c →
  trun cb me RA_Snapshot steps Idle →
  let dm := manager c in
  let jobs := map_values order (failedJobs dm) in
  (∃ dm0 rest taken,
     steps = (dm0, set_failedJobs ∅ dm0, []) :: rest
     ∧ taken ≡ₚ (map_to_list (failedJobs dm0)).*2
     ∧ Forall (λ s : tstep_record, failedJobs s.1.2 = failedJobs s.1.1) rest
     ∧ calls_of (actions_of steps) = op_of_job <$> taken
     ∧ last (actions_of steps)
       = Some (ARet ORetryAllFailed
                 (RInt (Z.of_nat (enqueued (actions_of steps))))))
  ∧ jobs ≡ₚ (map_to_list (failedJobs dm)).*2
  ∧ (running dm = true → queue_closed dm = false →
     length (queue dm) + size (failedJobs dm) ≤ chan_cap →
     ∃ dm' acts,
       RetryAllFailed order dm = (Idle, dm', acts)
       ∧ last acts = Some (ARet ORetryAllFailed (RInt (GetFailedCount dm)))
       ∧ failedJobs dm' = ∅
       ∧ queue dm' = queue dm ++ imap (λ i, fresh_copy (ctx_next dm + i)) jobs
       ∧ ∀ job i, job ∈ jobs → ctx job ≠ Some (ctx_next dm + i))
  ∧ (running dm = false →
     ∃ acts,
       RetryAllFailed order dm = (Idle, set_failedJobs ∅ dm, acts)
       ∧ last acts = Some (ARet ORetryAllFailed (RInt 0)))
  ∧ (running dm = true → queue_closed dm = true → failedJobs dm ≠ ∅ →
     ∃ dm' acts,
       RetryAllFailed order dm = (Crashed, dm', acts)
       ∧ last acts = Some (APanic "send on closed channel")
       ∧ failedJobs dm' = ∅
       ∧ queue dm' = queue dm).
Proof.
  intros Hreach Hrun. cbv zeta.
  assert (Hok : dm_ok (manager c)) by by apply reachable_ok.
  clear Hreach. revert Hok. generalize (manager c) as dm. intros dm Hok.
  split_and!.
  - trun_inv.
    match goal with
    | H : trun _ _ (RA_Loop _ _) _ _ |- _ =>
        apply retry_loop_run in H as (Hf & Hc & Hl)
    end.
    do 3 eexists. split_and!; [done|apply map_values_perm|done..|].
    rewrite actions_of_cons. cbn [snd app]. by rewrite Hl, Z.add_0_l.
  - apply map_values_perm.
  - intros Hr Hc Hlen. unfold RetryAllFailed.
    change (2 + ?n) with (S (S n)). rewrite run_unfold. cbn [tstep at_rest].
    edestruct (run_retry_loop_running order (map_values order (failedJobs dm))
                 (set_failedJobs ∅ dm) 0%Z (S (5 * size (failedJobs dm))))
      as (acts & -> & Hlast); [done | done | | | ].
    { cbn. by rewrite length_map_values. }
    { rewrite length_map_values. lia. }
    do 2 eexists. split_and!; [done | | done | done | ].
    + cbn. rewrite Hlast. by rewrite length_map_values.
    + intros job i Hjob. destruct Hok as (_ & _ & Hfailed).
      apply (map_values_ok _ order) in Hfailed.
      eapply Forall_forall in Hfailed as (h & -> & _ & Hlt); [|done].
      intros [=]. lia.
  - intros Hr. unfold RetryAllFailed.
    change (2 + ?n) with (S (S n)). rewrite run_unfold. cbn [tstep at_rest].
    edestruct (run_retry_loop_stopped order (map_values order (failedJobs dm))
                 (set_failedJobs ∅ dm) 0%Z (S (5 * size (failedJobs dm))))
      as (acts & -> & Hlast & _); [done | | ].
    { rewrite length_map_values. lia. }
    by eexists.
  - intros Hr Hc Hne. unfold RetryAllFailed.
    change (2 + ?n) with (S (S n)). rewrite run_unfold. cbn [tstep at_rest].
    pose proof (length_map_values order (failedJobs dm)) as Hlen.
    destruct (map_values order (failedJobs dm)) as [|job rest] eqn:Hjobs.
    { symmetry in Hlen. cbn in Hlen. by apply map_size_empty_inv in Hlen. }
    rewrite (run_retry_loop_closed order job rest (set_failedJobs ∅ dm) 0);
      [|done|done|cbn in Hlen; lia].
    by do 2 eexists.
Qed.

(** ** Executions and runs *)

Lemma exec_cons i fetch order s c :
  exec ((i, fetch, order) :: s) c = exec s (step i fetch order c).
Proof. done. Qed.

Lemma step_onProgress i fetch order c :
  onProgress (manager (step i fetch order c)) = onProgress (manager c).
Proof.
  unfold step. destruct (crashed c); [done|].
  destruct (threads c !! i) as [t|]; [|done].
  destruct (next_call t) as [[o rest]|]; [done|].
  destruct (tstep i fetch order (pc t) (manager c)) as [[[p' dm'] acts]|] eqn:Hstep;
    [|done].
  cbn. by eapply tstep_onProgress.
Qed.

(** The callback is the same in all the configurations of an execution. *)
Lemma exec_onProgress s c : onProgress (manager (exec s c)) = onProgress (manager c).
Proof.
  revert c. induction s as [|[[i f] ord] s IH]; intros c; [done|].
  by rewrite exec_cons, IH, step_onProgress.
Qed.

(** A step of another goroutine does not move goroutine [i]. *)
Lemma step_other i j fetch order c p :
  i ≠ j → pc_at i c = Some p → pc_at i (step j fetch order c) = Some p.
Proof.
  intros Hne Hi. unfold step. destruct (crashed c); [done|].
  destruct (threads c !! j) as [t|] eqn:Hj; [|done].
  assert (Hlt : i < length (threads c)).
  { unfold pc_at in Hi. destruct (threads c !! i) eqn:E; [|done].
    by eapply lookup_lt_Some. }
  destruct (next_call t) as [[o rest]|].
  { unfold pc_at in *. cbn. by rewrite list_lookup_insert_ne. }
  destruct (tstep j fetch order (pc t) (manager c)) as [[[p' dm'] acts]|]; [|done].
  unfold pc_at in *. cbn.
  rewrite lookup_app_l by by rewrite length_insert.
  by rewrite list_lookup_insert_ne.
Qed.

(** A step of goroutine [i] inside a call is a step of its code. *)
Lemma step_self i fetch order c p :
  pc_at i c = Some p → at_rest p = false → crashed c = false →
  match tstep i fetch order p (manager c) with
  | None => step i fetch order c = c
  | Some (p', dm', acts) =>
      manager (step i fetch order c) = dm'
      ∧ pc_at i (step i fetch order c) = Some p'
      ∧ trace (step i fetch order c) = trace c ++ ((λ a, (i, a)) <$> acts)
  end.
Proof.
  intros Hi Hp Hc. unfold step. rewrite Hc. unfold pc_at in *.
  destruct (threads c !! i) as [t|] eqn:Ht; [|done]. cbn in Hi. simplify_eq.
  assert (next_call t = None) as ->.
  { unfold next_call. by destruct (pc t). }
  destruct (tstep i fetch order (pc t) (manager c)) as [[[p' dm'] acts]|]; [|done].
  cbn. split_and!; [done| |done].
  rewrite lookup_app_l by (rewrite length_insert; by eapply lookup_lt_Some).
  rewrite list_lookup_insert_eq by by eapply lookup_lt_Some. done.
Qed.

(** Whatever the schedule: if goroutine [i] is inside a call and is at rest
    at the end, then the steps it made up to its first point of rest are a
    run of that call in the sense of [trun]. *)
Lemma exec_trun i : ∀ s c p p',
  pc_at i c = Some p → at_rest p = false →
  pc_at i (exec s c) = Some p' → at_rest p' = true →
  ∃ s1 s2 p1,
    s = s1 ++ s2
    ∧ pc_at i (exec s1 c) = Some p1
    ∧ trun (onProgress (manager c)) i p (local_steps i s1 c) p1.
Proof.
  induction s as [|[[j f] ord] s IH]; intros c p p' Hi Hp Hi' Hp'.
  { cbn in Hi'. congruence. }
  rewrite exec_cons in Hi'.
  destruct (decide (j = i)) as [->|Hne]; last first.
  { edestruct (IH (step j f ord c) p p') as (s1 & s2 & p1 & -> & Hp1 & Hrun);
      [by apply step_other|done..|].
    exists ((j, f, ord) :: s1), s2, p1. split_and!; [done|done|].
    rewrite step_onProgress in Hrun. cbn [local_steps].
    rewrite bool_decide_eq_false_2 by done. done. }
  destruct (crashed c) eqn:Hc.
  { assert (step i f ord c = c) as Hst by (unfold step; by rewrite Hc).
    rewrite Hst in Hi'.
    edestruct (IH c p p') as (s1 & s2 & p1 & -> & Hp1 & Hrun); [done..|].
    exists ((i, f, ord) :: s1), s2, p1. rewrite exec_cons, Hst.
    split_and!; [done|done|].
    cbn [local_steps]. rewrite Hc, andb_false_r, Hst. done. }
  pose proof (step_self i f ord c p Hi Hp Hc) as Hself.
  assert (Hnc : ∃ t, threads c !! i = Some t ∧ pc t = p ∧ next_call t = None).
  { unfold pc_at in Hi. destruct (threads c !! i) as [t|]; [|done].
    cbn in Hi. simplify_eq. exists t. split_and!; [done..|].
    unfold next_call. by destruct (pc t). }
  destruct Hnc as (t & Ht & <- & Hnc).
  destruct (tstep i f ord (pc t) (manager c)) as [[[p1 dm1] acts]|] eqn:Hstep.
  - destruct Hself as (Hdm & Hpc & _).
    destruct (at_rest p1) eqn:Hp1.
    + exists [(i, f, ord)], s, p1. split_and!; [done|done|].
      cbn [local_steps]. rewrite bool_decide_eq_true_2, Hc, Ht, Hnc, Hstep by done.
      cbn. by eapply trun_last.
    + edestruct (IH (step i f ord c) p1 p') as (s1 & s2 & p2 & -> & Hp2 & Hrun);
        [done..|].
      exists ((i, f, ord) :: s1), s2, p2. split_and!; [done|done|].
      cbn [local_steps]. rewrite bool_decide_eq_true_2, Hc, Ht, Hnc, Hstep by done.
      cbn. rewrite step_onProgress in Hrun. by eapply trun_more.
  - rewrite Hself in Hi'.
    edestruct (IH c (pc t) p') as (s1 & s2 & p1 & -> & Hp1 & Hrun); [done..|].
    exists ((i, f, ord) :: s1), s2, p1. rewrite exec_cons, Hself.
    split_and!; [done|done|].
    cbn [local_steps]. rewrite bool_decide_eq_true_2, Hc, Ht, Hnc, Hstep by done.
    cbn. by rewrite Hself.
Qed.

(** ** Runs without interference are runs *)

(** [run] and [run_steps] walk the same steps. *)
Lemma run_run_steps fuel me fetch order : ∀ p dm,
  (run fuel me fetch order p dm).1.1 = (run_steps fuel me fetch order p dm).2
  ∧ (run fuel me fetch order p dm).2 = actions_of (run_steps fuel me fetch order p dm).1.
Proof.
  induction fuel as [|fuel IH]; intros p dm; [done|]. cbn.
  destruct (tstep me fetch order p dm) as [[[p1 dm1] acts]|]; [|done].
  destruct (at_rest p1).
  { split; [done|]. unfold actions_of. cbn. by rewrite app_nil_r. }
  destruct (IH p1 dm1) as [Hp Ha].
  destruct (run fuel me fetch order p1 dm1) as [[p2 dm2] acts2].
  destruct (run_steps fuel me fetch order p1 dm1) as [steps p3].
  cbn in *. split; [done|]. unfold actions_of in *. cbn. by rewrite Ha.
Qed.

Lemma run_steps_trun cb fuel me fetch order : ∀ p dm steps p',
  onProgress dm = cb →
  run_steps fuel me fetch order p dm = (steps, p') →
  at_rest p = false → at_rest p' = true →
  trun cb me p steps p'.
Proof.
  induction fuel as [|fuel IH]; intros p dm steps p' Hcb Hrun Hp Hp'.
  { cbn in Hrun. simplify_eq. congruence. }
  cbn in Hrun.
  destruct (tstep me fetch order p dm) as [[[p1 dm1] acts]|] eqn:Hstep;
    [|simplify_eq; congruence].
  destruct (at_rest p1) eqn:Hp1.
  - simplify_eq. by eapply trun_last.
  - destruct (run_steps fuel me fetch order p1 dm1) as [steps1 p2] eqn:Hrest.
    simplify_eq. eapply trun_more; [done..|].
    eapply IH; [|done..]. by erewrite tstep_onProgress.
Qed.

(** ** The theorems at work on the scenarios *)

(** The worker of the race scenario executes the job of track 7: alone and
    with a fetch that succeeds ("downloading", then "completed"); and with a
    fetch that times out, finding at each step the manager as it was at the
    start. *)
Lemma C8_one_terminal_event_witness :
  let me := 1 in
  let job := job7 in
  let dm := manager (exec (runs [0;0;0;0; 0;0;0;0;0; 1;1;1]) race_init) in
  let steps := (run_steps 9 me (fetch_ok 7) [] (PJ_PreCheck job) dm).1 in
  let p' := W_Range in
  let fetch := fetch_timeout 7 in
  let order : list Z := [] in
  let dms := replicate 9 dm in
  trun true me (PJ_PreCheck job) steps p'
  ∧ 9 ≤ length dms
  ∧ Forall (λ d, onProgress d = true) dms
  ∧ (let evs := notified (actions_of steps) in
     (p' = W_Range ∨ p' = Crashed)
     ∧ NoDup (ev_Status <$> evs)
     ∧ length (filter terminal_event evs) ≤ 1
     ∧ (p' = W_Range →
        ∃ status result,
          filter terminal_event evs = [mkEvent (TrackID job) status result]
          ∧ (status = "cancelled" ∨ status = "error" ∨ status = "completed")
          ∧ (evs = [mkEvent (TrackID job) "cancelled" None]
             ∨ evs = [mkEvent (TrackID job) "downloading" None;
                      mkEvent (TrackID job) status result])))
  ∧ (let r := run_among me fetch order (PJ_PreCheck job) dms in
     trun true me (PJ_PreCheck job) r.1 r.2
     ∧ length r.1 ≤ 9
     ∧ (r.2 = W_Range ∨ (r.2 = Crashed ∧ fetch = (None, None)))
     ∧ (r.2 = W_Range →
        length (filter terminal_event (notified (actions_of r.1))) = 1)).
Proof.
  intros me job dm steps p' fetch order dms.
  assert (Hrun : trun true me (PJ_PreCheck job) steps p').
  { apply (run_steps_trun true 9 me (fetch_ok 7) [] (PJ_PreCheck job) dm);
      by vm_compute. }
  assert (Hlen : 9 ≤ length dms) by (vm_compute; lia).
  assert (Hcb : Forall (λ d, onProgress d = true) dms).
  { by repeat (apply Forall_cons_2; [by vm_compute|]). }
  split; [exact Hrun|]. split; [exact Hlen|]. split; [exact Hcb|].
  destruct (C8_one_terminal_event me job steps p' fetch order dms) as [H1 H2].
  split; [exact (H1 Hrun)|exact (H2 Hlen Hcb)].
Defined.

(** The client of the race scenario calls [QueueDownload] for track 7 on the
    started manager, alone: the call returns nil after "queued". *)
Lemma C1_queued_emitted_before_return_witness :
  let me := 0 in
  let trackID := 7%Z in
  let outputDir := "out" in
  let title := "t" in
  let artist := "a" in
  let dm := manager (exec (runs [0;0;0;0; 0]) race_init) in
  let steps :=
    (run_steps 4 me no_fetch []
       (QD_CheckRunning trackID outputDir title artist KClient) dm).1 in
  let p' := Idle in
  trun true me (QD_CheckRunning trackID outputDir title artist KClient) steps p'
  ∧ (let o := OQueueDownload trackID outputDir title artist in
     (p' = Idle
      ∧ ∃ dm, running dm = false
              ∧ steps = [(dm, dm, [ARet o (RErr (Some ErrNotRunning))])])
     ∨ (p' = Crashed
        ∧ last (actions_of steps) = Some (APanic "send on closed channel"))
     ∨ (p' = Idle
        ∧ ∃ d1 d2 d3 d4,
            let job := mkJob trackID outputDir title artist
                         (Some (ctx_next d2)) (Some (ctx_next d2)) in
            running d1 = true
            ∧ queue_closed d3 = false
            ∧ steps = [(d1, d1, []);
                       (d2, set_ctx_next (S (ctx_next d2)) d2, []);
                       (d3, set_queue (queue d3 ++ [job]) d3, []);
                       (d4, d4, [ANotify (mkEvent trackID "queued" None);
                                 ARet o (RErr None)])])).
Proof.
  intros me trackID outputDir title artist dm steps p'.
  assert (Hrun : trun true me
                   (QD_CheckRunning trackID outputDir title artist KClient)
                   steps p').
  { apply (run_steps_trun true 4 me no_fetch [] _ dm); by vm_compute. }
  split; [exact Hrun|].
  exact (C1_queued_emitted_before_return me trackID outputDir title artist
           steps p' Hrun).
Defined.


(** The cancel scenario: the client cancels track 7 while the worker is
    between the return of the fetch and the check of line 166; once with the
    fetch that succeeded, the worker running alone, and once with a fetch
    that failed, the worker finding the same manager at each step. *)
Lemma C3_cancelled_after_fetch_witness :
  let cb := true in
  let me := 1 in
  let job := job7 in
  let result := Some (timeout_result 7) in
  let err := Some "network timeout" in
  let dm := manager (exec (cancel_schedule ++ cancel_call) cancel_init) in
  let dm1 := dm in
  let acts1 := @nil action in
  let steps :=
    tail (run_steps 4 me no_fetch [] (PJ_PostCheck job result err) dm).1 in
  let p' := W_Range in
  let fetch := no_fetch in
  let order : list Z := [] in
  let d2 := dm in
  let d3 := dm in
  let d4 := dm in
  ctx_is_done job dm = true
  ∧ trun cb me (PJ_PostCheck job result err) ((dm, dm1, acts1) :: steps) p'
  ∧ onProgress dm = cb
  ∧ (p' = W_Range
     ∧ notified (actions_of ((dm, dm1, acts1) :: steps))
       = (if cb then [mkEvent (TrackID job) "cancelled" None] else [])
     ∧ Forall (λ s : tstep_record, failedJobs s.1.2 = failedJobs s.1.1)
         ((dm, dm1, acts1) :: steps))
  ∧ (let r := run_among me fetch order (PJ_PostCheck job result err)
                [dm; d2; d3; d4] in
     r.2 = W_Range
     ∧ r.1.*1.*1 = [dm; d2; d3; d4]
     ∧ trun cb me (PJ_PostCheck job result err) r.1 r.2
     ∧ notified (actions_of r.1)
       = (if cb then [mkEvent (TrackID job) "cancelled" None] else [])
     ∧ Forall (λ s : tstep_record, failedJobs s.1.2 = failedJobs s.1.1) r.1).
Proof.
  intros cb me job result err dm dm1 acts1 steps p' fetch order d2 d3 d4.
  assert (Hdone : ctx_is_done job dm = true) by by vm_compute.
  assert (Hrun : trun cb me (PJ_PostCheck job result err)
                   ((dm, dm1, acts1) :: steps) p').
  { apply (run_steps_trun cb 4 me no_fetch [] _ dm); by vm_compute. }
  assert (Hcb : onProgress dm = cb) by by vm_compute.
  split; [exact Hdone|]. split; [exact Hrun|]. split; [exact Hcb|].
  destruct (C3_cancelled_after_fetch cb me job result err dm dm1 acts1 steps p'
              fetch order d2 d3 d4 Hdone) as [H1 H2].
  split; [exact (H1 Hrun)|exact (H2 Hcb Hcb Hcb Hcb)].
Defined.

(** Tracks 5 and 9 have failed: [RetryAllFailed] run alone on that
    configuration, the runtime visiting track 9 first.  (Visiting track 5
    first gives the jobs in the other order.) *)
Lemma RetryAllFailed_retries_each_witness :
  let c := exec two_failed_schedule two_failed_init in
  let cb := true in
  let me := 0 in
  let order := [9%Z; 5%Z] in
  let steps := (run_steps 12 me no_fetch order RA_Snapshot (manager c)).1 in
  reachable c
  ∧ trun cb me RA_Snapshot steps Idle
  ∧ GetFailedCount (manager c) = 2%Z
  ∧ TrackID <$> map_values order (failedJobs (manager c)) = [9%Z; 5%Z]
  ∧ TrackID <$> map_values [5%Z; 9%Z] (failedJobs (manager c)) = [5%Z; 9%Z]
  ∧ (let dm := manager c in
     let jobs := map_values order (failedJobs dm) in
     (∃ dm0 rest taken,
        steps = (dm0, set_failedJobs ∅ dm0, []) :: rest
        ∧ taken ≡ₚ (map_to_list (failedJobs dm0)).*2
        ∧ Forall (λ s : tstep_record, failedJobs s.1.2 = failedJobs s.1.1) rest
        ∧ calls_of (actions_of steps) = op_of_job <$> taken
        ∧ last (actions_of steps)
          = Some (ARet ORetryAllFailed
                    (RInt (Z.of_nat (enqueued (actions_of steps))))))
     ∧ jobs ≡ₚ (map_to_list (failedJobs dm)).*2
     ∧ (running dm = true → queue_closed dm = false →
        length (queue dm) + size (failedJobs dm) ≤ chan_cap →
        ∃ dm' acts,
          RetryAllFailed order dm = (Idle, dm', acts)
          ∧ last acts = Some (ARet ORetryAllFailed (RInt (GetFailedCount dm)))
          ∧ failedJobs dm' = ∅
          ∧ queue dm' = queue dm ++ imap (λ i, fresh_copy (ctx_next dm + i)) jobs
          ∧ ∀ job i, job ∈ jobs → ctx job ≠ Some (ctx_next dm + i))
     ∧ (running dm = false →
        ∃ acts,
          RetryAllFailed order dm = (Idle, set_failedJobs ∅ dm, acts)
          ∧ last acts = Some (ARet ORetryAllFailed (RInt 0)))
     ∧ (running dm = true → queue_closed dm = true → failedJobs dm ≠ ∅ →
        ∃ dm' acts,
          RetryAllFailed order dm = (Crashed, dm', acts)
          ∧ last acts = Some (APanic "send on closed channel")
          ∧ failedJobs dm' = ∅
          ∧ queue dm' = queue dm)).
Proof.
  intros c cb me order steps.
  assert (Hreach : reachable c) by (by eexists _, _, _, _).
  assert (Hrun : trun cb me RA_Snapshot steps Idle).
  { apply (run_steps_trun cb 12 me no_fetch order _ (manager c)); by vm_compute. }
  split; [exact Hreach|]. split; [exact Hrun|]. split; [by vm_compute|].
  split; [by vm_compute|]. split; [by vm_compute|].
  exact (RetryAllFailed_retries_each c cb me order steps Hreach Hrun).
Defined.

(** A fetch that returns [(nil, nil)] for the job of track 7. *)
Lemma C9_nil_result_nil_error_panics_witness :
  let me := 1 in
  let job := job7 in
  let dm := manager (exec (runs [0;0;0;0; 0;0;0;0;0; 1;1;1]) race_init) in
  ctx_is_done job dm = false
  ∧ (processJob (None, None) job dm).1.1 = Crashed
  ∧ (processJob (None, None) job dm).2
    = notify dm (TrackID job) "downloading" None
      ++ [APanic "invalid memory address or nil pointer dereference"].
Proof.
  intros me job dm.
  assert (Hdone : ctx_is_done job dm = false) by by vm_compute.
  split; [exact Hdone|].
  by apply (C9_nil_result_nil_error_panics me no_fetch [] job dm).
Defined.

(** The race scenario ends in the window: "downloading" has been observed
    for track 7, which is not in the Active Registry yet. *)
Lemma C10_downloading_before_active_witness :
  let c := exec race_schedule race_init in
  let me := 1 in
  let fetch := fetch_ok 7 in
  let order : list Z := [] in
  let job := job7 in
  let dm := manager c in
  onProgress dm = true
  ∧ activeJobs dm !! TrackID job = None
  ∧ mkEvent 7 "downloading" None ∈ events c
  ∧ threads c !! me = Some (mkThread (PJ_MarkActive job) [])
  ∧ GetActiveCount dm = 0%Z
  ∧ tstep me fetch order (PJ_NotifyStart job) dm
    = Some (PJ_MarkActive job, dm,
            [ANotify (mkEvent (TrackID job) "downloading" None)])
  ∧ (∃ dm', tstep me fetch order (PJ_MarkActive job) dm
            = Some (PJ_Download job, dm', [])
            ∧ activeJobs dm' !! TrackID job = Some job
            ∧ GetActiveCount dm'
              = match activeJobs dm !! TrackID job with
                | Some _ => GetActiveCount dm
                | None => (GetActiveCount dm + 1)%Z
                end)
  ∧ (activeJobs dm !! TrackID job = None →
     CancelDownload (TrackID job) dm
     = (Some (ErrNotDownloading (TrackID job)), dm))
  ∧ (∀ other, activeJobs dm !! TrackID job = Some other →
       CancelDownload (TrackID job) dm = (None, call_cancelFunc other dm))
  ∧ (∀ p f ord dm0 dm1 acts,
       tstep me f ord p dm0 = Some (PJ_MarkActive job, dm1, acts) →
       p = PJ_NotifyStart job ∧ dm1 = dm0
       ∧ acts = notify dm0 (TrackID job) "downloading" None)
  ∧ (∀ p f ord dm0 p1 dm1 acts,
       tstep me f ord p dm0 = Some (p1, dm1, acts) →
       activeJobs dm0 !! TrackID job ≠ Some job →
       activeJobs dm1 !! TrackID job = Some job →
       p = PJ_MarkActive job).
Proof.
  intros c me fetch order job dm.
  assert (Hcb : onProgress dm = true) by by vm_compute.
  split; [exact Hcb|]. split; [by vm_compute|].
  split; [apply list_elem_of_In; vm_compute; tauto|].
  split; [by vm_compute|]. split; [by vm_compute|].
  exact (C10_downloading_before_active me fetch order job dm Hcb).
Defined.

(** * More properties of the manager *)

(** ** Construction and start *)

(** X1. Whatever count is asked for, a new manager has between 1 and 10
    workers: the count asked for when that is between 1 and 10, 3 when it is
    0 or less, 10 when it is more than 10.  The new manager is stopped, not
    paused, and its queue and registries are empty. *)
Theorem NewDownloadManager_workers (w : Z) :
  (1 ≤ workers (NewDownloadManager w) ≤ 10)%Z
  ∧ ((1 ≤ w ≤ 10)%Z → workers (NewDownloadManager w) = w)
  ∧ ((w ≤ 0)%Z → workers (NewDownloadManager w) = 3%Z)
  ∧ ((10 < w)%Z → workers (NewDownloadManager w) = 10%Z)
  ∧ GetQueueLength (NewDownloadManager w) = 0%Z
  ∧ GetActiveCount (NewDownloadManager w) = 0%Z
  ∧ GetFailedCount (NewDownloadManager w) = 0%Z
  ∧ IsRunning (NewDownloadManager w) = false
  ∧ IsPaused (NewDownloadManager w) = false.
Proof.
  unfold NewDownloadManager, GetQueueLength, GetActiveCount, GetFailedCount.
  cbn. rewrite map_size_empty.
  destruct (w <=? 0)%Z eqn:H1; destruct (10 <? _)%Z eqn:H2; cbn;
    split_and!; try done; lia.
Qed.

(** The loop of [Start] (lines 89-92) from its [i]-th round, alone. *)
Lemma run_spawn_loop fetch order (n : nat) : ∀ i dm fuel,
  (i ≤ workers dm)%Z → Z.to_nat (workers dm - i) = n → S n ≤ fuel →
  run fuel 0 fetch order (ST_Spawn i) dm
  = (Idle, set_wg (wg dm + (workers dm - i)) dm,
     (AGo <$> seqZ i (workers dm - i)) ++ [ARet OStart RUnit]).
Proof.
  induction n as [|n IH]; intros i dm fuel Hi Hn Hfuel.
  - destruct fuel as [|fuel]; [lia|]. cbn [run tstep].
    assert (i = workers dm) as -> by lia.
    rewrite Z.ltb_irrefl. cbn. rewrite Z.sub_diag, Z.add_0_r.
    by destruct dm.
  - destruct fuel as [|fuel]; [lia|]. cbn [run tstep].
    assert ((i <? workers dm)%Z = true) as -> by (apply Z.ltb_lt; lia).
    cbn [at_rest].
    rewrite (IH (i + 1)%Z (set_wg (wg dm + 1) dm) fuel); cbn; [|lia..].
    rewrite (seqZ_cons i) by lia. cbn.
    replace (Z.succ i) with (i + 1)%Z by lia.
    replace (Z.pred (workers dm - i)) with (workers dm - (i + 1))%Z by lia.
    do 2 f_equal. destruct dm. unfold set_wg. cbn. f_equal. lia.
Qed.

(** X2. [Start] with nothing interleaved.  On a stopped manager it sets
    [running], adds the worker count to the WaitGroup and starts exactly
    that many worker goroutines, numbered from 0; on a running manager it does
    nothing.  So a [Start] after a [Start] does nothing. *)
Theorem Start_spawns_workers (dm : DownloadManager) :
  (0 ≤ workers dm)%Z →
  (if running dm
   then Start dm = (Idle, dm, [ARet OStart RUnit])
   else Start dm
        = (Idle, set_wg (wg dm + workers dm) (set_running true dm),
           (AGo <$> seqZ 0 (workers dm)) ++ [ARet OStart RUnit]))
  ∧ length (spawned (Start dm).2)
    = (if running dm then 0 else Z.to_nat (workers dm))
  ∧ Start (Start dm).1.2 = (Idle, (Start dm).1.2, [ARet OStart RUnit]).
Proof.
  intros Hw. unfold Start.
  change (2 + ?n) with (S (S n)). rewrite !run_unfold. cbn [tstep].
  destruct (running dm) eqn:Hr; cbn [at_rest].
  { split_and!; [done|done|]. cbn. by rewrite Hr. }
  rewrite (run_spawn_loop _ _ (Z.to_nat (workers dm))); cbn; [|lia..].
  rewrite Z.sub_0_r. split_and!; [done| |done].
  unfold spawned. rewrite omap_app. cbn. rewrite app_nil_r.
  rewrite <-(length_seqZ 0 (workers dm)).
  generalize (seqZ 0 (workers dm)) as l. intros l.
  induction l as [|x l IHl]; [done|]. cbn. by rewrite IHl.
Qed.

(** ** What holds in every reachable configuration *)

(** A property of the manager that every step of the code keeps holds along
    every execution. *)
Lemma exec_manager_invariant (I : DownloadManager → Prop) :
  (∀ me fetch order p dm p' dm' acts,
     I dm → tstep me fetch order p dm = Some (p', dm', acts) → I dm') →
  ∀ s c, I (manager c) → I (manager (exec s c)).
Proof.
  intros Hstep s. induction s as [|[[i f] ord] s IH]; intros c Hc; [done|].
  rewrite exec_cons. apply IH. unfold step.
  destruct (crashed c); [done|].
  destruct (threads c !! i) as [t|]; [|done].
  destruct (next_call t) as [[o rest]|]; [done|].
  destruct (tstep i f ord (pc t) (manager c)) as [[[p' dm'] acts]|] eqn:Hs; [|done].
  cbn. by eapply Hstep.
Qed.

(** The same for a relation between the manager before and after. *)
Lemma exec_manager_preorder (R : relation DownloadManager) :
  Reflexive R → Transitive R →
  (∀ me fetch order p dm p' dm' acts,
     tstep me fetch order p dm = Some (p', dm', acts) → R dm dm') →
  ∀ s c, R (manager c) (manager (exec s c)).
Proof.
  intros Hrefl Htrans Hstep s c.
  apply (exec_manager_invariant (R (manager c))); [|done].
  intros. etrans; [done|]. by eapply Hstep.
Qed.

(** X3. In every reachable configuration the queue holds at most 1000 jobs
    and the results channel at most 1000 results: a send on a full queue
    waits, a send on full results is dropped. *)
Theorem channels_bounded (c : Config) :
  reachable c →
  length (queue (manager c)) ≤ chan_cap
  ∧ length (results (manager c)) ≤ chan_cap
  ∧ chan_cap = 1000.
Proof.
  intros (w & cb & scripts & s & ->).
  split_and!; [| |done].
  - apply (exec_manager_invariant (λ dm, length (queue dm) ≤ chan_cap));
      [|cbn; lia].
    intros me f ord p dm p' dm' acts Hdm H.
    destruct p; tstep_inv H; cbn in *; try done; try lia.
    + by rewrite H0.
    + rewrite length_app. cbn. case_bool_decide; [lia|done].
    + destruct (call_cancelFunc_fields d dm) as (-> & _). done.
  - apply (exec_manager_invariant (λ dm, length (results dm) ≤ chan_cap));
      [|cbn; lia].
    intros me f ord p dm p' dm' acts Hdm H.
    destruct p; tstep_inv H; cbn in *; try done.
    + case_bool_decide; cbn; [|done]. rewrite length_app. cbn. lia.
    + unfold call_cancelFunc. by case_match.
Qed.

(** ** The WaitGroup counts the workers *)

Lemma length_filter_insert (f : Thread → bool) (l : list Thread) : ∀ i t t',
  l !! i = Some t →
  length (List.filter f (<[i:=t']> l)) + (if f t then 1 else 0)
  = length (List.filter f l) + (if f t' then 1 else 0).
Proof.
  induction l as [|x l IH]; intros i t t' Hi; [done|].
  destruct i as [|i]; cbn in *.
  - simplify_eq. destruct (f t) eqn:E1, (f t') eqn:E2; cbn; rewrite ?E1, ?E2; cbn; lia.
  - specialize (IH i t t' Hi). destruct (f x) eqn:E; cbn; rewrite ?E; cbn;
      [f_equal|]; exact IH.
Qed.

Lemma live_spawned acts :
  List.filter (λ t, is_worker_pc (pc t)) (spawned acts) = spawned acts.
Proof.
  unfold spawned. induction acts as [|a acts IH]; [done|].
  destruct a; cbn; by rewrite ?IH.
Qed.

(** What one step does to the WaitGroup: [Add(1)] with each [go], [Done()]
    when a worker ends. *)
Lemma tstep_wg me fetch order p dm p' dm' acts :
  tstep me fetch order p dm = Some (p', dm', acts) →
  existsb is_panic acts = false →
  (wg dm' + (if is_worker_pc p then 1 else 0)
   = wg dm + (if is_worker_pc p' then 1 else 0) + Z.of_nat (length (spawned acts)))%Z.
Proof.
  intros H Hpanic. destruct p; tstep_inv H; cbn in *; try done; try lia.
  all: try (unfold notify; destruct (onProgress _); cbn; lia).
  all: try (unfold call_cancelFunc; case_match; cbn; lia).
Qed.

Lemma step_wg i fetch order c :
  crashed c = true ∨ wg (manager c) = Z.of_nat (live_workers c) →
  crashed (step i fetch order c) = true
  ∨ wg (manager (step i fetch order c)) = Z.of_nat (live_workers (step i fetch order c)).
Proof.
  intros [Hc|Hwg]; [left; unfold step; by rewrite Hc|].
  unfold step. destruct (crashed c) eqn:Hc; [by left|].
  destruct (threads c !! i) as [t|] eqn:Ht; [|by right].
  destruct (next_call t) as [[o rest]|] eqn:Hn.
  { right. cbn. rewrite Hwg. f_equal. unfold live_workers. cbn.
    pose proof (length_filter_insert (λ t, is_worker_pc (pc t)) (threads c)
                  i t (mkThread (entry o) rest) Ht) as Hlen.
    cbn in Hlen. unfold next_call in Hn.
    destruct (pc t) eqn:Hpc; try done.
    assert (is_worker_pc (entry o) = false) as Ho by by destruct o.
    rewrite Ho in Hlen. cbn in Hlen. lia. }
  destruct (tstep i fetch order (pc t) (manager c)) as [[[p' dm'] acts]|] eqn:Hs;
    [|by right].
  cbn. destruct (existsb is_panic acts) eqn:Hp; [by left|]. right.
  pose proof (tstep_wg _ _ _ _ _ _ _ _ Hs Hp) as Hstep.
  unfold live_workers in *. cbn.
  rewrite List.filter_app, length_app, live_spawned.
  pose proof (length_filter_insert (λ t, is_worker_pc (pc t)) (threads c)
                i t (mkThread p' (script t)) Ht) as Hlen.
  cbn in Hlen.
  destruct (is_worker_pc (pc t)), (is_worker_pc p'); lia.
Qed.

Lemma exec_wg s : ∀ c,
  crashed c = true ∨ wg (manager c) = Z.of_nat (live_workers c) →
  crashed (exec s c) = true
  ∨ wg (manager (exec s c)) = Z.of_nat (live_workers (exec s c)).
Proof.
  induction s as [|[[i f] ord] s IH]; intros c Hc; [done|].
  rewrite exec_cons. by apply IH, step_wg.
Qed.

Lemma live_workers_init w cb scripts :
  live_workers (init_config w cb scripts) = 0.
Proof.
  unfold live_workers. cbn. induction scripts as [|x l IH]; [done|].
  rewrite fmap_cons. cbn. exact IH.
Qed.

(** X4. In every reachable configuration that has not panicked, the
    WaitGroup counter is the number of worker goroutines that are alive.  So
    the [wg.Wait()] of [Stop] (line 108) can return only when no worker is
    left, and a configuration in which it returns has none. *)
Theorem wg_counts_live_workers (c : Config) (i : nat) (fetch : FetchRet)
    (order : list Z) :
  reachable c → crashed c = false →
  wg (manager c) = Z.of_nat (live_workers c)
  ∧ (pc_at i c = Some SP_Wait →
     (step i fetch order c ≠ c ↔ live_workers c = 0)
     ∧ (live_workers c = 0 →
        pc_at i (step i fetch order c) = Some Idle
        ∧ trace (step i fetch order c) = trace c ++ [(i, ARet OStop RUnit)]
        ∧ live_workers (step i fetch order c) = 0)).
Proof.
  intros (w & cb & scripts & s & ->) Hc.
  assert (Hwg : wg (manager (exec s (init_config w cb scripts)))
                = Z.of_nat (live_workers (exec s (init_config w cb scripts)))).
  { destruct (exec_wg s (init_config w cb scripts)) as [?|?]; [|congruence|done].
    right. by rewrite live_workers_init. }
  split; [done|]. intros Hpc.
  generalize dependent (exec s (init_config w cb scripts)). intros c Hc Hwg Hpc.
  pose proof (step_self i fetch order c SP_Wait Hpc eq_refl Hc) as Hself.
  cbn [tstep] in Hself. rewrite Hwg in Hself.
  destruct (Z.of_nat (live_workers c) =? 0)%Z eqn:Hz.
  - apply Z.eqb_eq in Hz. assert (Hlive : live_workers c = 0) by lia.
    destruct Hself as (Hm & Hp & Ht). split.
    + split; [done|]. intros _ Heq. rewrite Heq in Ht.
      apply (f_equal length) in Ht. rewrite length_app in Ht. cbn in Ht. lia.
    + intros _. split_and!; [done..|].
      destruct (step_wg i fetch order c) as [Hcr|Hw]; [by right| |].
      * unfold step in Hcr. rewrite Hc in Hcr. unfold pc_at in Hpc.
        destruct (threads c !! i) as [t|]; [|done]. cbn in Hpc. simplify_eq.
        unfold next_call in Hcr. rewrite Hpc in Hcr. cbn in Hcr.
        rewrite Hwg, Hz in Hcr. done.
      * rewrite Hm, Hwg in Hw. lia.
  - apply Z.eqb_neq in Hz. split; [|intros; lia].
    split; [done|]. intros; lia.
Qed.

(** ** The Active Registry holds jobs that are being executed *)

(** An entry of the Active Registry after a step was there before, and the
    goroutine goes on executing its job if it did, or is the job the
    goroutine has just begun to execute. *)
Lemma tstep_active me fetch order p dm p' dm' acts id job :
  active_keyed dm →
  tstep me fetch order p dm = Some (p', dm', acts) →
  activeJobs dm' !! id = Some job →
  (activeJobs dm !! id = Some job
   ∧ (executing p = Some job → executing p' = Some job))
  ∨ (executing p' = Some job ∧ id = TrackID job).
Proof.
  intros Hkey H Hentry.
  destruct p; tstep_inv H; cbn in *; try by left.
  - destruct (decide (TrackID job0 = id)) as [<-|Hne].
    + rewrite lookup_insert_eq in Hentry. simplify_eq. by right.
    + rewrite lookup_insert_ne in Hentry by done. by left.
  - apply lookup_delete_Some in Hentry as [Hne Hentry]. left.
    split; [done|]. intros [= ->]. by apply Hkey in Hentry.
  - left. destruct (call_cancelFunc_fields d dm) as (_ & Ha & _).
    by rewrite Ha in Hentry.
Qed.

Lemma step_active_held i fetch order c : active_held c → active_held (step i fetch order c).
Proof.
  intros Hc. unfold step. destruct (crashed c); [done|].
  destruct (threads c !! i) as [t|] eqn:Ht; [|done].
  destruct (next_call t) as [[o rest]|] eqn:Hn.
  { intros id job Hentry. cbn in Hentry.
    destruct (Hc id job Hentry) as (Hid & j & tj & Hj & Hex).
    split; [done|]. exists j, tj. split; [|done]. cbn.
    destruct (decide (i = j)) as [->|Hne]; [|by rewrite list_lookup_insert_ne].
    assert (tj = t) as -> by congruence.
    unfold next_call in Hn. by destruct (pc t). }
  destruct (tstep i fetch order (pc t) (manager c)) as [[[p' dm'] acts]|] eqn:Hs;
    [|done].
  intros id job Hentry. cbn in Hentry.
  assert (Hkey : active_keyed (manager c)) by (intros ???; by eapply Hc).
  assert (Hlt : i < length (threads c)) by by eapply lookup_lt_Some.
  destruct (tstep_active _ _ _ _ _ _ _ _ _ _ Hkey Hs Hentry)
    as [[Hold Hkeep]|[Hnew ->]].
  - destruct (Hc id job Hold) as (Hid & j & tj & Hj & Hex).
    split; [done|]. cbn.
    destruct (decide (i = j)) as [->|Hne].
    + assert (tj = t) as -> by congruence.
      exists j, (mkThread p' (script t)). split; [|by apply Hkeep].
      rewrite lookup_app_l by by rewrite length_insert.
      by rewrite list_lookup_insert_eq.
    + exists j, tj. split; [|done].
      rewrite lookup_app_l
        by (rewrite length_insert; by eapply lookup_lt_Some).
      by rewrite list_lookup_insert_ne.
  - split; [done|]. cbn. exists i, (mkThread p' (script t)). split; [|done].
    rewrite lookup_app_l by by rewrite length_insert.
    by rewrite list_lookup_insert_eq.
Qed.

Lemma exec_active_held s : ∀ c, active_held c → active_held (exec s c).
Proof.
  induction s as [|[[i f] ord] s IH]; intros c Hc; [done|].
  rewrite exec_cons. by apply IH, step_active_held.
Qed.

Lemma reachable_active_held c : reachable c → active_held c.
Proof.
  intros (w & cb & scripts & s & ->). apply exec_active_held.
  intros id job H. cbn in H. by rewrite lookup_empty in H.
Qed.

Lemma size_list_to_set_le (l : list Z) : size (list_to_set l : gset Z) ≤ length l.
Proof.
  induction l as [|x l IH]; [by rewrite list_to_set_nil, size_empty|].
  rewrite list_to_set_cons, size_union_alt, size_singleton. cbn.
  assert (size (list_to_set l ∖ {[x]} : gset Z) ≤ size (list_to_set l : gset Z))
    as Hle.
  { apply subseteq_size. apply subseteq_difference_l. done. }
  lia.
Qed.

Lemma length_executing_ids c : length (executing_ids c) ≤ live_workers c.
Proof.
  unfold executing_ids, live_workers.
  induction (threads c) as [|t l IH]; [done|]. cbn.
  destruct (pc t); cbn; lia.
Qed.

Lemma active_count_live c :
  active_held c → (GetActiveCount (manager c) ≤ Z.of_nat (live_workers c))%Z.
Proof.
  intros Hheld. unfold GetActiveCount. apply inj_le.
  etrans; [|apply length_executing_ids].
  etrans; [|apply size_list_to_set_le].
  rewrite <-size_dom. apply subseteq_size.
  intros id Hid. apply elem_of_dom in Hid as [job Hjob].
  destruct (Hheld id job Hjob) as (-> & i & t & Ht & Hex).
  apply elem_of_list_to_set, list_elem_of_omap. exists t.
  split; [by eapply list_elem_of_lookup_2|]. by rewrite Hex.
Qed.

(** X5. In every reachable configuration, every entry of the Active
    Registry is under the id of its job, and the job is one that a worker
    is executing (it is between lines 159 and 175 of [processJob]).  So
    [GetActiveCount] is at most the number of live workers, which is the
    WaitGroup counter when the program has not panicked. *)
Theorem active_jobs_are_executing (c : Config) :
  reachable c →
  (∀ id job, activeJobs (manager c) !! id = Some job →
     id = TrackID job
     ∧ ∃ i, pc_at i c = Some (PJ_Download job)
            ∨ (∃ result err, pc_at i c = Some (PJ_PostCheck job result err))
            ∨ (∃ result err cancelled,
                 pc_at i c = Some (PJ_RemoveActive job result err cancelled)))
  ∧ (GetActiveCount (manager c) ≤ Z.of_nat (live_workers c))%Z
  ∧ (crashed c = false → (GetActiveCount (manager c) ≤ wg (manager c))%Z).
Proof.
  intros Hr. pose proof (reachable_active_held c Hr) as Hheld.
  split_and!; [|by apply active_count_live|].
  - intros id job Hjob. destruct (Hheld id job Hjob) as (-> & i & t & Ht & Hex).
    split; [done|]. exists i. unfold pc_at. rewrite Ht. cbn.
    destruct (pc t); simplify_eq; cbn in *; simplify_eq; eauto 10.
  - intros Hc.
    destruct Hr as (w & cb & scripts & s & ->).
    destruct (exec_wg s (init_config w cb scripts)) as [?|Hwg];
      [right; by rewrite live_workers_init|congruence|].
    rewrite Hwg. by apply active_count_live.
Qed.

(** ** The size of the pool *)

Lemma tstep_workers me fetch order p dm p' dm' acts :
  tstep me fetch order p dm = Some (p', dm', acts) → workers dm' = workers dm.
Proof.
  intros H. destruct p; tstep_inv H; try done.
  unfold call_cancelFunc. by case_match.
Qed.

Lemma tstep_budget me fetch order p dm p' dm' acts :
  tstep me fetch order p dm = Some (p', dm', acts) →
  (if is_worker_pc p' then 1 else 0) + pending_spawns (workers dm) p'
  + length (spawned acts)
  ≤ (if is_worker_pc p then 1 else 0) + pending_spawns (workers dm) p.
Proof.
  intros H. destruct p; tstep_inv H; cbn in *; try lia.
  all: try (unfold notify; destruct (onProgress _); cbn; lia).
Qed.

Lemma sum_list_insert (f : Thread → nat) (l : list Thread) : ∀ i t t',
  l !! i = Some t →
  sum_list_with f (<[i:=t']> l) + f t = sum_list_with f l + f t'.
Proof.
  induction l as [|x l IH]; intros i t t' Hi; [done|].
  destruct i as [|i]; cbn in *.
  - simplify_eq. lia.
  - specialize (IH i t t' Hi).
    assert (∀ a b c d : nat, a + b = c + d → f x + a + b = f x + c + d) as Hx
      by (intros; lia).
    by apply Hx.
Qed.

Lemma budget_spawned w acts :
  sum_list_with (worker_budget w) (spawned acts) = length (spawned acts).
Proof.
  unfold spawned. induction acts as [|a acts IH]; [done|].
  destruct a; cbn in *; rewrite ?IH; try done. unfold worker_budget. cbn. lia.
Qed.

Lemma step_budget i fetch order c :
  workers (manager (step i fetch order c)) = workers (manager c)
  ∧ total_budget (step i fetch order c) ≤ total_budget c.
Proof.
  unfold step. destruct (crashed c); [done|].
  destruct (threads c !! i) as [t|] eqn:Ht; [|done].
  destruct (next_call t) as [[o rest]|] eqn:Hn.
  { split; [done|]. unfold total_budget. cbn.
    pose proof (sum_list_insert (worker_budget (workers (manager c)))
                  (threads c) i t (mkThread (entry o) rest) Ht) as Hsum.
    assert (worker_budget (workers (manager c)) (mkThread (entry o) rest)
            ≤ worker_budget (workers (manager c)) t) as Hle; [|lia].
    unfold next_call in Hn. destruct (pc t) eqn:Hpc; try done.
    destruct (script t) as [|o' rest'] eqn:Hscript; [done|]. simplify_eq.
    unfold worker_budget, count_starts. rewrite Hpc, Hscript.
    destruct o; cbn; lia. }
  destruct (tstep i fetch order (pc t) (manager c)) as [[[p' dm'] acts]|] eqn:Hs;
    [|done].
  pose proof (tstep_workers _ _ _ _ _ _ _ _ Hs) as Hw.
  split; [done|]. unfold total_budget. cbn. rewrite Hw.
  rewrite sum_list_with_app, budget_spawned.
  pose proof (sum_list_insert (worker_budget (workers (manager c)))
                (threads c) i t (mkThread p' (script t)) Ht) as Hsum.
  pose proof (tstep_budget _ _ _ _ _ _ _ _ Hs) as Hb.
  assert (worker_budget (workers (manager c)) (mkThread p' (script t))
          + length (spawned acts)
          ≤ worker_budget (workers (manager c)) t) as Hle.
  { unfold worker_budget. cbn [pc script]. lia. }
  lia.
Qed.

Lemma exec_budget s : ∀ c,
  workers (manager (exec s c)) = workers (manager c)
  ∧ total_budget (exec s c) ≤ total_budget c.
Proof.
  induction s as [|[[i f] ord] s IH]; intros c; [done|].
  rewrite exec_cons. destruct (IH (step i f ord c)) as [-> ?].
  destruct (step_budget i f ord c) as [-> ?]. split; [done|lia].
Qed.

Lemma live_workers_budget c : live_workers c ≤ total_budget c.
Proof.
  unfold live_workers, total_budget.
  induction (threads c) as [|t l IH]; [done|]. cbn.
  unfold worker_budget at 1. destruct (is_worker_pc (pc t)); cbn; lia.
Qed.

Lemma total_budget_init w cb scripts :
  total_budget (init_config w cb scripts)
  = Z.to_nat (workers (NewDownloadManager w)) * count_starts (concat scripts).
Proof.
  unfold total_budget. cbn [manager threads init_config].
  change (workers (set_onProgress cb (NewDownloadManager w)))
    with (workers (NewDownloadManager w)).
  induction scripts as [|x l IH]; [cbn; lia|].
  rewrite !fmap_cons. cbn [sum_list_with concat]. rewrite IH.
  unfold worker_budget, count_starts. cbn.
  rewrite List.filter_app, length_app. lia.
Qed.

(** X6. The pool never grows beyond what [Start] was asked for: whatever
    the schedule, the live workers are at most the worker count times the
    number of calls of [Start] in the scripts of the clients.  When the
    clients call [Start] at most once in all, at most [workers] goroutines
    are alive, so at most [workers] jobs are in the Active Registry, and that
    is at most 10. *)
Theorem pool_size_bounded (w : Z) (cb : bool) (scripts : list (list Op))
    (s : schedule) :
  let c := exec s (init_config w cb scripts) in
  live_workers c ≤ Z.to_nat (workers (manager c)) * count_starts (concat scripts)
  ∧ (1 ≤ workers (manager c) ≤ 10)%Z
  ∧ (count_starts (concat scripts) ≤ 1 →
     (Z.of_nat (live_workers c) ≤ workers (manager c))%Z
     ∧ (GetActiveCount (manager c) ≤ workers (manager c))%Z).
Proof.
  intros c.
  destruct (exec_budget s (init_config w cb scripts)) as [Hw Hb].
  fold c in Hw, Hb. rewrite total_budget_init in Hb.
  change (workers (manager (init_config w cb scripts)))
    with (workers (NewDownloadManager w)) in Hw.
  pose proof (live_workers_budget c) as Hlive.
  assert (Hrange : (1 ≤ workers (NewDownloadManager w) ≤ 10)%Z).
  { unfold NewDownloadManager. cbn.
    destruct (w <=? 0)%Z eqn:H1; destruct (10 <? _)%Z eqn:H2; cbn; lia. }
  rewrite Hw.
  split; [lia|]. split; [lia|]. intros Hone.
  assert (Hl : live_workers c ≤ Z.to_nat (workers (NewDownloadManager w))) by nia.
  split; [lia|].
  etrans; [apply active_count_live|lia].
  apply reachable_active_held. by exists w, cb, scripts, s.
Qed.

(** ** A job is never cancelled before it is executed *)

Lemma not_started_perm dm hs hs' :
  hs ≡ₚ hs' → not_started dm hs → not_started dm hs'.
Proof.
  intros Hp [Hnd Hall]. split; [by rewrite <-Hp|].
  intros h Hh. apply Hall. by rewrite Hp.
Qed.

Lemma not_started_sub dm hs hs' :
  hs' `sublist_of` hs → not_started dm hs → not_started dm hs'.
Proof.
  intros Hs [Hnd Hall]. split; [by eapply sublist_NoDup|].
  intros h Hh. apply Hall.
  eapply elem_of_submseteq; [done|]. by apply sublist_submseteq.
Qed.

Lemma not_started_same dm dm' hs :
  ctx_next dm' = ctx_next dm → ctx_done dm' = ctx_done dm →
  activeJobs dm' = activeJobs dm →
  not_started dm hs → not_started dm' hs.
Proof. unfold not_started. by intros -> -> ->. Qed.

Lemma job_ok_handles n job :
  job_ok n job → ∃ c, job_handles job = [c] ∧ cancelFunc job = Some c ∧ c < n.
Proof. intros (c & Hc & Hf & Hlt). exists c. unfold job_handles. by rewrite Hc. Qed.

Lemma tstep_waiting me fetch order p dm p' dm' acts rest :
  dm_ok dm → pc_ok (ctx_next dm) p → done_below dm →
  not_started dm (waiting_pc p ++ waiting_queue dm ++ rest) →
  tstep me fetch order p dm = Some (p', dm', acts) →
  done_below dm'
  ∧ not_started dm' (waiting_pc p' ++ waiting_queue dm' ++ rest)
  ∧ no_pre_cancelled p'.
Proof.
  intros (Hq & Ha & Hf) Hp Hd Hns H.
  destruct p; tstep_inv H; cbn in *; try done.
  - (* line 115: a job is received *)
    split_and!; [done| |done].
    apply (not_started_same dm); [done..|].
    unfold waiting_queue in Hns. rewrite H0, bind_cons in Hns.
    by rewrite <-(assoc_L (++)) in Hns.
  - (* line 128: the worker leaves with the job *)
    split_and!; [done| |done].
    eapply not_started_sub; [|done]. by apply sublist_inserts_l.
  - (* lines 138-147: the context is not done *)
    exfalso. unfold ctx_is_done in H0.
    destruct (ctx job) as [c|] eqn:Hc; [|done].
    apply bool_decide_eq_true_1 in H0.
    destruct Hns as [_ Hall]. destruct (Hall c) as (_ & Hnd & _); [|done].
    unfold job_handles. rewrite Hc. by left.
  - (* lines 141-144 *)
    split_and!; [done| |done].
    eapply not_started_sub; [|done]. by apply sublist_inserts_l.
  - (* lines 155-159 *)
    split_and!; [done| |done].
    destruct (job_ok_handles _ _ Hp) as (c & Hc & Hcf & Hlt). rewrite Hc in Hns.
    destruct Hns as [Hnd Hall]. apply NoDup_cons in Hnd as [Hnotin Hnd].
    split; [done|]. intros h Hh.
    destruct (Hall h) as (? & ? & Hact); [by right|].
    split_and!; [done..|]. intros id j Hj. cbn in Hj.
    apply lookup_insert_Some in Hj as [[<- <-]|[Hne Hj]].
    + rewrite Hcf. intros [= ->]. done.
    + by eapply Hact.
  - (* lines 175-177 *)
    split_and!; [done| |done].
    destruct Hns as [Hnd Hall]. split; [done|]. intros h Hh.
    destruct (Hall h Hh) as (? & ? & Hact). split_and!; [done..|].
    intros id j Hj. cbn in Hj.
    apply lookup_delete_Some in Hj as [_ Hj]. by eapply Hact.
  - (* lines 216-225: a new context *)
    split_and!; [| |done].
    + intros h Hh. specialize (Hd h Hh). cbn in *. lia.
    + destruct Hns as [Hnd Hall]. split.
      * apply NoDup_cons. split; [|done]. intros Hin.
        destruct (Hall _ Hin) as (? & _). lia.
      * intros h [->|Hh]%elem_of_cons; cbn.
        -- split_and!; [lia| |].
           ++ intros Hin. specialize (Hd _ Hin). lia.
           ++ intros id j Hj Hcf. apply Ha in Hj as (c & _ & Hcf' & Hlt).
              rewrite Hcf in Hcf'. simplify_eq. lia.
        -- destruct (Hall h Hh) as (? & ? & ?). split_and!; [lia|done..].
  - (* line 228: send on a closed queue *)
    split_and!; [done| |done].
    eapply not_started_sub; [|done]. by apply sublist_inserts_l.
  - (* line 228: the job enters the queue *)
    split_and!; [done| |done].
    apply (not_started_same dm); [done..|].
    eapply not_started_perm; [|done].
    unfold waiting_queue. rewrite bind_app. cbn. rewrite app_nil_r.
    rewrite (assoc_L (++)). rewrite (comm (++) (job_handles job)). done.
  - (* CancelDownload *)
    unfold call_cancelFunc. destruct (cancelFunc d) as [c|] eqn:Hcf; [|done].
    destruct (Ha _ _ H) as (c' & _ & Hcf' & Hlt).
    rewrite Hcf in Hcf'. simplify_eq.
    split_and!; [| |done].
    + intros h [->%elem_of_singleton|Hh]%elem_of_union; [done|by apply Hd].
    + destruct Hns as [Hnd Hall]. split; [done|]. intros h Hh.
      destruct (Hall h Hh) as (? & ? & Hact). cbn. split_and!; [done| |done].
      intros [->%elem_of_singleton|?]%elem_of_union; [|done].
      by eapply Hact.
Qed.

Lemma bind_insert_split (g : Thread → list ctx_handle) (l : list Thread) i t :
  l !! i = Some t →
  ∃ A B, l ≫= g = A ++ g t ++ B
         ∧ ∀ t', <[i:=t']> l ≫= g = A ++ g t' ++ B.
Proof.
  intros Hi. exists (take i l ≫= g), (drop (S i) l ≫= g). split.
  - rewrite <-(take_drop_middle l i t Hi) at 1. by rewrite bind_app, bind_cons.
  - intros t'. rewrite insert_take_drop by by eapply lookup_lt_Some.
    by rewrite bind_app, bind_cons.
Qed.

Lemma waiting_perm (X Y A B : list ctx_handle) :
  Y ++ A ++ X ++ B ≡ₚ X ++ Y ++ A ++ B.
Proof.
  rewrite (app_assoc Y A (X ++ B)), (app_assoc Y A B).
  apply Permutation_app_swap_app.
Qed.

Lemma waiting_spawned acts : spawned acts ≫= (λ t, waiting_pc (pc t)) = [].
Proof.
  unfold spawned. induction acts as [|a acts IH]; [done|].
  destruct a; cbn in *; by rewrite ?IH.
Qed.

Lemma step_waiting i fetch order c :
  config_ok c → waiting_ok c → waiting_ok (step i fetch order c).
Proof.
  intros [Hdm Hpcs] (Hd & Hns & Hnp). unfold step.
  destruct (crashed c); [done|].
  destruct (threads c !! i) as [t|] eqn:Ht; [|done].
  destruct (bind_insert_split (λ t, waiting_pc (pc t)) _ _ _ Ht)
    as (A & B & HAB & HAB').
  unfold waiting_ok, waiting in *. rewrite HAB in Hns.
  destruct (next_call t) as [[o rest]|] eqn:Hn.
  { cbn. split_and!; [done| |].
    - rewrite HAB'. cbn.
      assert (waiting_pc (entry o) = []) as -> by by destruct o.
      unfold next_call in Hn. destruct (pc t); try done.
    - apply Forall_insert; [done|]. by destruct o. }
  destruct (tstep i fetch order (pc t) (manager c)) as [[[p' dm'] acts]|] eqn:Hs;
    [|by rewrite HAB].
  destruct (tstep_waiting i fetch order (pc t) (manager c) p' dm' acts (A ++ B))
    as (Hd' & Hns' & Hnp'); [done| |done| |done|].
  { by eapply (Forall_lookup_1 _ _ _ _ Hpcs) in Ht. }
  { eapply not_started_perm; [|done]. apply waiting_perm. }
  cbn. split_and!; [done| |].
  - rewrite bind_app, HAB', waiting_spawned, app_nil_r. cbn.
    eapply not_started_perm; [|done]. symmetry. apply waiting_perm.
  - apply Forall_app_2.
    + by apply Forall_insert.
    + unfold spawned. apply Forall_forall. intros x Hx.
      apply list_elem_of_omap in Hx as (a & _ & Ha). by destruct a; simplify_eq.
Qed.

Lemma exec_waiting s : ∀ c,
  config_ok c → waiting_ok c → waiting_ok (exec s c).
Proof.
  induction s as [|[[i f] ord] s IH]; intros c Hok Hw; [done|].
  rewrite exec_cons. apply IH; [by apply step_ok|by apply step_waiting].
Qed.

Lemma reachable_waiting c : reachable c → waiting_ok c.
Proof.
  intros (w & cb & scripts & s & ->).
  apply exec_waiting; [apply init_config_ok|].
  split_and!.
  - intros h Hh. cbn in Hh. set_solver.
  - assert (waiting (init_config w cb scripts) = []) as ->.
    { unfold waiting. cbn. induction scripts as [|x l IH]; [done|].
      by rewrite fmap_cons, bind_cons. }
    split; [constructor|]. by intros h Hh%elem_of_nil.
  - cbn. apply Forall_fmap, Forall_forall. by intros.
Qed.

Lemma not_started_not_done dm hs job :
  not_started dm hs → job_handles job ⊆ hs → ctx_is_done job dm = false.
Proof.
  intros [_ Hall] Hsub. unfold ctx_is_done, job_handles in *.
  destruct (ctx job) as [h|]; [|done].
  apply bool_decide_eq_false_2.
  destruct (Hall h) as (_ & Hnd & _); [|done]. apply Hsub. by left.
Qed.

(** X7. No job is cancelled before a worker executes it: in every reachable
    configuration the context of a job that waits in the queue, or that a
    worker holds at the check of lines 138-147, is not done, so no worker is
    ever at lines 141-144.  A "cancelled" that a step reports is therefore
    the one of lines 180-183, after the fetch. *)
Theorem never_cancelled_before_execution (c : Config) :
  reachable c →
  (∀ job, job ∈ queue (manager c) → ctx_is_done job (manager c) = false)
  ∧ (∀ i job, pc_at i c = Some (PJ_PreCheck job) →
       ctx_is_done job (manager c) = false)
  ∧ (∀ i job, pc_at i c ≠ Some (PJ_PreCancelled job))
  ∧ (∀ i fetch order e,
       trace (step i fetch order c) = trace c ++ [(i, ANotify e)] →
       ev_Status e = "cancelled" →
       ∃ job result err,
         pc_at i c = Some (PJ_HandleResult job result err true)
         ∧ e = mkEvent (TrackID job) "cancelled" None).
Proof.
  intros Hr. destruct (reachable_waiting c Hr) as (Hd & Hns & Hnp).
  assert (Hpre : ∀ i job, pc_at i c ≠ Some (PJ_PreCancelled job)).
  { intros i job Hi. unfold pc_at in Hi.
    destruct (threads c !! i) as [t|] eqn:Ht; [|done]. cbn in Hi.
    eapply (Forall_lookup_1 _ _ _ _ Hnp) in Ht. simplify_eq.
    by rewrite Hi in Ht. }
  split_and!; [| |done|].
  - intros job Hjob. eapply not_started_not_done; [done|].
    intros h Hh. unfold waiting, waiting_queue.
    apply elem_of_app. left. apply list_elem_of_bind. eauto.
  - intros i job Hi. eapply not_started_not_done; [done|].
    intros h Hh. unfold waiting. apply elem_of_app. right.
    unfold pc_at in Hi. destruct (threads c !! i) as [t|] eqn:Ht; [|done].
    cbn in Hi. simplify_eq.
    apply list_elem_of_bind. exists t. split; [|by eapply list_elem_of_lookup_2].
    by rewrite Hi.
  - intros i fetch order e Htr Hst. unfold step in Htr.
    destruct (crashed c).
    { apply (f_equal length) in Htr. rewrite length_app in Htr. cbn in Htr. lia. }
    specialize (Hpre i). unfold pc_at in *.
    destruct (threads c !! i) as [t|] eqn:Ht; cbn in *.
    2:{ apply (f_equal length) in Htr. rewrite length_app in Htr. cbn in Htr. lia. }
    destruct (next_call t) as [[o rest]|].
    { cbn in Htr. by apply app_inv_head in Htr. }
    destruct (tstep i fetch order (pc t) (manager c)) as [[[p' dm'] acts]|] eqn:Hs.
    2:{ apply (f_equal length) in Htr. rewrite length_app in Htr. cbn in Htr. lia. }
    cbn in Htr. apply app_inv_head in Htr.
    destruct (pc t) eqn:Hpc; tstep_inv Hs; unfold notify in *;
      repeat case_match; cbn in *; simplify_eq; cbn in *; try done.
    + by destruct (Hpre job).
    + eauto.
Qed.

(** ** Cancellation is permanent *)

Lemma tstep_ctx_mono me fetch order p dm p' dm' acts :
  tstep me fetch order p dm = Some (p', dm', acts) →
  ctx_done dm ⊆ ctx_done dm' ∧ ctx_next dm ≤ ctx_next dm'.
Proof.
  intros H. destruct p; tstep_inv H; cbn; try done; try (split; [done|lia]).
  unfold call_cancelFunc. case_match; cbn; [|done]. split; [|done].
  apply union_subseteq_r.
Qed.

(** X8. A context that is done stays done along every execution (no step
    removes a context from the cancelled ones, and handles are never given
    out twice); and a second [CancelDownload] of the same id right after the
    first returns the same and changes nothing more. *)
Theorem cancellation_is_permanent (s : schedule) (c : Config) (job : DownloadJob)
    (trackID : Z) :
  ctx_is_done job (manager c) = true →
  ctx_is_done job (manager (exec s c)) = true
  ∧ ctx_done (manager c) ⊆ ctx_done (manager (exec s c))
  ∧ ctx_next (manager c) ≤ ctx_next (manager (exec s c))
  ∧ CancelDownload trackID (CancelDownload trackID (manager c)).2
    = CancelDownload trackID (manager c).
Proof.
  intros Hdone.
  assert (Hmono : ctx_done (manager c) ⊆ ctx_done (manager (exec s c))
                  ∧ ctx_next (manager c) ≤ ctx_next (manager (exec s c))).
  { apply (exec_manager_preorder
             (λ dm dm', ctx_done dm ⊆ ctx_done dm' ∧ ctx_next dm ≤ ctx_next dm')).
    - by intros dm.
    - intros d1 d2 d3 [? ?] [? ?]. split; [by etrans|lia].
    - apply tstep_ctx_mono. }
  destruct Hmono as [Hsub Hle]. split_and!; [|done|done|].
  - unfold ctx_is_done in *. destruct (ctx job) as [h|]; [|done].
    apply bool_decide_eq_true_1 in Hdone. apply bool_decide_eq_true_2.
    by apply Hsub.
  - generalize (manager c) as dm. intros dm. unfold CancelDownload.
    destruct (activeJobs dm !! trackID) as [j|] eqn:Hj; cbn; [|by rewrite Hj].
    destruct (call_cancelFunc_fields j dm) as (_ & -> & _). rewrite Hj.
    f_equal. unfold call_cancelFunc. destruct (cancelFunc j) as [h|]; [|done].
    destruct dm. unfold set_ctx_done. cbn. f_equal.
    apply set_eq. intros x. rewrite !elem_of_union. tauto.
Qed.

(** ** Cancelling the id of a job that waits (C5) *)




(** ** The Failed Registry *)

(** X9. What enters and what leaves the Failed Registry.  A step puts a job
    in it only at lines 186-188 of [processJob], for a job that was not
    cancelled at the check after the fetch and whose fetch returned an error
    or a result without success, under the id of the job; a step takes an id
    out of it only at line 158 (the job of that id starts to execute), in
    [RetryAllFailed] or in [ClearFailed]. *)
Theorem failed_registry_changes (me : nat) (fetch : FetchRet)
    (order : list Z) (p p' : PC)
    (dm dm' : DownloadManager) (acts : list action) (id : Z) (job : DownloadJob) :
  tstep me fetch order p dm = Some (p', dm', acts) →
  (failedJobs dm' !! id = Some job → failedJobs dm !! id ≠ Some job →
   ∃ result err,
     p = PJ_HandleResult job result err false
     ∧ p' = PJ_NotifyError job result
     ∧ id = TrackID job
     ∧ (is_Some err ∨ ∃ r, result = Some r ∧ Success r = false))
  ∧ (failedJobs dm !! id = Some job → failedJobs dm' !! id = None →
     (∃ j, p = PJ_MarkActive j ∧ TrackID j = id)
     ∨ p = RA_Snapshot ∨ p = Atomic OClearFailed).
Proof.
  intros H. split.
  - intros Hnew Hold.
    destruct p; tstep_inv H; cbn in *; try congruence.
    + apply lookup_delete_Some in Hnew as [_ Hnew]. congruence.
    + apply lookup_insert_Some in Hnew as [[<- <-]|[_ Hnew]]; [|congruence].
      do 2 eexists. split_and!; [done..|]. left. by eexists.
    + apply lookup_insert_Some in Hnew as [[<- <-]|[_ Hnew]]; [|congruence].
      do 2 eexists. split_and!; [done..|]. right. eexists. split; [done|].
      by apply negb_true_iff.
    + destruct (call_cancelFunc_fields d dm) as (_ & _ & Hf & _).
      rewrite Hf in Hnew. congruence.
  - intros Hold Hnew.
    destruct p; tstep_inv H; cbn in *; try congruence; eauto.
    + left. eexists. split; [done|].
      destruct (decide (TrackID job0 = id)) as [|Hne]; [done|].
      rewrite lookup_delete_ne in Hnew by done. congruence.
    + apply lookup_insert_None in Hnew as [Hnew _]. congruence.
    + apply lookup_insert_None in Hnew as [Hnew _]. congruence.
    + destruct (call_cancelFunc_fields d dm) as (_ & _ & Hf & _).
      rewrite Hf in Hnew. congruence.
Qed.

(** X10. Take any execution of [processJob] by a worker, whatever the other
    goroutines do meanwhile, with the progress callback installed.  If it
    reports "error", then one of its steps has put the job in the Failed
    Registry under its id and no later step of it touches the registry; if
    it reports "completed" or "cancelled", each of its steps leaves the
    registry as it is or takes the id of the job out of it. *)
Theorem processJob_failed_registry (me : nat) (job : DownloadJob)
    (steps : list tstep_record) (p' : PC) :
  trun true me (PJ_PreCheck job) steps p' →
  (∀ result, mkEvent (TrackID job) "error" result ∈ notified (actions_of steps) →
     ∃ before s after,
       steps = before ++ s :: after
       ∧ failedJobs s.1.2 = <[TrackID job := job]> (failedJobs s.1.1)
       ∧ Forall (λ s : tstep_record, failedJobs s.1.2 = failedJobs s.1.1) after)
  ∧ ((∃ result, mkEvent (TrackID job) "completed" result
                ∈ notified (actions_of steps))
     ∨ mkEvent (TrackID job) "cancelled" None ∈ notified (actions_of steps) →
     Forall (λ s : tstep_record,
               failedJobs s.1.2 = failedJobs s.1.1
               ∨ failedJobs s.1.2 = delete (TrackID job) (failedJobs s.1.1))
            steps).
Proof.
  intros H.
  repeat trun_inv; unfold actions_of; cbn;
    rewrite ?notify_callback by done; cbn.
  all: split.
  all: try (intros result Hin;
            repeat (apply elem_of_cons in Hin as [Hin|Hin]; [discriminate|]);
            by apply elem_of_nil in Hin).
  all: try (intros _; repeat (apply Forall_cons_2; [by eauto|]);
            by apply Forall_nil_2).
  all: try (intros result _; eexists [_; _; _; _; _; _], _, [_; _];
    split; [done|]; split; [done|];
    repeat (apply Forall_cons_2; [done|]); by apply Forall_nil_2).
  all: intros [[result Hin]|Hin];
    repeat (apply elem_of_cons in Hin as [Hin|Hin]; [discriminate|]);
    by apply elem_of_nil in Hin.
Qed.

(** X11. [ClearFailed] returns the number of entries of the Failed Registry,
    empties it and changes nothing else.  Right after it [GetFailedCount] is
    0, a second [ClearFailed] returns 0 and changes nothing, and
    [RetryAllFailed] returns 0 without calling [QueueDownload]. *)
Theorem ClearFailed_empties (dm : DownloadManager) (order : list Z) :
  let dm' := (ClearFailed dm).2 in
  (ClearFailed dm).1 = GetFailedCount dm
  ∧ dm' = set_failedJobs ∅ dm
  ∧ GetFailedCount dm' = 0%Z
  ∧ ClearFailed dm' = (0%Z, dm')
  ∧ RetryAllFailed order dm' = (Idle, dm', [ARet ORetryAllFailed (RInt 0)]).
Proof.
  cbn. unfold GetFailedCount, ClearFailed, RetryAllFailed. cbn.
  rewrite map_size_empty. cbn. by rewrite map_values_empty.
Qed.

(** ** The pause gate *)

(** X12. A worker that comes to the gate (lines 117-121) with its job while
    the manager is paused and running parks on the condition and reports
    nothing; while it is parked it cannot step; and the only steps of any
    goroutine that release a parked goroutine are the critical sections of
    [ResumeQueue] and of [Stop]. *)
Theorem pause_gate_holds_worker (me : nat) (fetch : FetchRet)
    (order : list Z) (job : DownloadJob)
    (dm : DownloadManager) :
  paused dm = true → running dm = true →
  tstep me fetch order (W_PauseGate job) dm
  = Some (W_Parked job, set_pauseCond (me :: pauseCond dm) dm, [])
  ∧ (∀ d, me ∈ pauseCond d → tstep me fetch order (W_Parked job) d = None)
  ∧ (∀ i f ord p d p' d' acts,
       tstep i f ord p d = Some (p', d', acts) →
       me ∈ pauseCond d → me ∉ pauseCond d' →
       (p = Atomic OResumeQueue ∧ paused d = true)
       ∨ (p = SP_Lock ∧ running d = true)).
Proof.
  intros Hp Hr. split_and!.
  - cbn. unfold pause_gate. by rewrite Hp, Hr.
  - intros d Hin. cbn. by rewrite bool_decide_eq_true_2.
  - intros i f ord p d p' d' acts H Hin Hout.
    destruct p; tstep_inv H; cbn in *; try done.
    + destruct Hout. by right.
    + destruct Hout. by right.
    + right. split; [done|]. by apply negb_false_iff.
    + destruct Hout. unfold call_cancelFunc. by case_match.
    + left. split; [done|]. by apply negb_false_iff.
Qed.

(** X13. [Stop] releases the workers parked at the gate, and a released
    worker leaves without executing its job as long as the manager has not
    been started again.  The critical section of [Stop] (lines 97-105) on a
    running manager clears [running] and [paused] and releases every parked
    goroutine.  A worker that was parked with a job and, once released,
    finds [running] false at the gate and at the check of lines 124-129,
    whatever else the other goroutines have done to the manager, ends in
    three steps, none of them blocked: it reports nothing and changes
    nothing but the WaitGroup.  So does, in four steps, a worker that
    receives a job left in the queue.  But a worker that finds [running]
    true at the check of lines 124-129, because a [Start] came in between,
    goes on to execute the job. *)
Theorem Stop_releases_workers (me : nat) (fetch : FetchRet) (order : list Z)
    (job : DownloadJob) (dm d0 d1 d2 d3 : DownloadManager)
    (q : list DownloadJob) :
  running dm = true →
  let dm1 := Broadcast (set_paused false (set_running false dm)) in
  tstep 0 fetch order SP_Lock dm = Some (SP_Close, dm1, [])
  ∧ running dm1 = false ∧ paused dm1 = false ∧ pauseCond dm1 = []
  ∧ (me ∉ pauseCond d1 → running d1 = false → running d2 = false →
     run_among me fetch order (W_Parked job) [d1; d2; d3]
     = ([(d1, d1, []); (d2, d2, []); (d3, set_wg (wg d3 - 1) d3, [])],
        Finished))
  ∧ (queue d0 = job :: q → running d1 = false → running d2 = false →
     run_among me fetch order W_Range [d0; d1; d2; d3]
     = ([(d0, set_queue q d0, []); (d1, d1, []); (d2, d2, []);
         (d3, set_wg (wg d3 - 1) d3, [])],
        Finished))
  ∧ (me ∉ pauseCond d1 → running d1 = false → running d2 = true →
     run_among me fetch order (W_Parked job) [d1; d2; d3]
     = ([(d1, d1, []); (d2, d2, [])]
        ++ (run_among me fetch order (PJ_PreCheck job) [d3]).1,
        (run_among me fetch order (PJ_PreCheck job) [d3]).2)
       ∧ in_processJob (run_among me fetch order (PJ_PreCheck job) [d3]).2
         = true)
  ∧ run 3 me fetch order (W_Parked job) dm1
    = (Finished, set_wg (wg dm - 1) dm1, [])
  ∧ (queue dm = job :: q →
     run 4 me fetch order W_Range dm1
     = (Finished, set_wg (wg dm - 1) (set_queue q dm1), [])).
Proof.
  intros Hr dm1. split_and!; try done.
  - cbn. by rewrite Hr.
  - intros Hme H1 H2. cbn [run_among tstep]. unfold pause_gate.
    rewrite bool_decide_eq_false_2, H1, andb_false_r by done.
    cbn [run_among tstep at_rest]. by rewrite H2.
  - intros Hq H1 H2. cbn [run_among tstep]. rewrite Hq.
    cbn [run_among tstep at_rest]. unfold pause_gate.
    rewrite H1, andb_false_r. cbn [run_among tstep at_rest]. by rewrite H2.
  - intros Hme H1 H2. cbn [run_among tstep]. unfold pause_gate.
    rewrite bool_decide_eq_false_2, H1, andb_false_r by done.
    cbn [run_among tstep at_rest]. rewrite H2.
    cbn [negb run_among tstep at_rest].
    by destruct (ctx_is_done job d3).
  - intros Hq. cbn. by rewrite Hq.
Qed.

Lemma tstep_paused me fetch order p dm b :
  in_processJob p = true →
  tstep me fetch order p (set_paused b dm) = with_paused b <$> tstep me fetch order p dm.
Proof.
  intros Hp. destruct p; try done; cbn; unfold with_paused;
    change (ctx_is_done ?j (set_paused b dm)) with (ctx_is_done j dm);
    repeat (case_match; cbn; try done).
Qed.

Lemma tstep_in_processJob me fetch order p dm p' dm' acts :
  in_processJob p = true → tstep me fetch order p dm = Some (p', dm', acts) →
  at_rest p' = false → in_processJob p' = true.
Proof. intros Hp H Hr. by destruct p; tstep_inv H. Qed.

Lemma run_paused me fetch order b fuel : ∀ p dm,
  in_processJob p = true →
  run fuel me fetch order p (set_paused b dm) = with_paused b (run fuel me fetch order p dm).
Proof.
  induction fuel as [|fuel IH]; intros p dm Hp; [done|].
  rewrite !run_unfold, tstep_paused by done.
  destruct (tstep me fetch order p dm) as [[[p1 dm1] acts]|] eqn:Hs; [|done].
  cbn. destruct (at_rest p1) eqn:Hr; [done|].
  rewrite IH by by eapply tstep_in_processJob.
  by destruct (run fuel me fetch order p1 dm1) as [[p2 dm2] acts2].
Qed.

(** X14. Pausing does not reach a job that is past the gate: every step of
    [processJob] does the same whatever the pause flag is, and leaves the
    flag as it finds it; so does a whole execution of [processJob] with
    nothing interleaved. *)
Theorem processJob_ignores_pause (me : nat) (fetch : FetchRet)
    (order : list Z) (p : PC)
    (job : DownloadJob) (dm : DownloadManager) (b : bool) :
  in_processJob p = true →
  tstep me fetch order p (set_paused b dm)
  = with_paused b <$> tstep me fetch order p dm
  ∧ processJob fetch job (set_paused b dm)
    = with_paused b (processJob fetch job dm).
Proof.
  intros Hp. split; [by apply tstep_paused|].
  unfold processJob. by apply run_paused.
Qed.

(** ** The batch helper *)

Lemma returned_nil_queued dm trackID outputDir title artist :
  returned_nil (notify dm trackID "queued" None
                ++ [ARet (OQueueDownload trackID outputDir title artist)
                         (RErr None)]) = true.
Proof. unfold returned_nil. by rewrite last_snoc. Qed.

Lemma notified_app acts1 acts2 :
  notified (acts1 ++ acts2) = notified acts1 ++ notified acts2.
Proof. apply omap_app. Qed.

Lemma notified_notify dm trackID status result :
  notified (notify dm trackID status result)
  = if onProgress dm then [mkEvent trackID status result] else [].
Proof. unfold notify. by destruct (onProgress dm). Qed.

Lemma QueueMultiple_loop_running outputDir tracks : ∀ queued dm,
  running dm = true → queue_closed dm = false →
  length (queue dm) + length tracks ≤ chan_cap →
  ∃ acts,
    QueueMultiple_loop tracks outputDir queued dm
    = (Idle,
       set_queue (queue dm
                  ++ imap (λ i, job_of_track outputDir (ctx_next dm + i)) tracks)
         (set_ctx_next (ctx_next dm + length tracks) dm),
       acts, (queued + Z.of_nat (length tracks))%Z)
    ∧ notified acts
      = if onProgress dm
        then (λ t, mkEvent (track_ID t) "queued" None) <$> tracks else [].
Proof.
  induction tracks as [|track tracks IH]; intros queued dm Hr Hc Hlen.
  { cbn. exists []. split; [|by destruct (onProgress dm)].
    rewrite Z.add_0_r, app_nil_r, Nat.add_0_r. by destruct dm. }
  cbn [QueueMultiple_loop length] in *.
  rewrite QueueDownload_running_open by (done || lia).
  rewrite returned_nil_queued.
  edestruct (IH (queued + 1)%Z
               (set_queue (queue dm ++ [job_of_track outputDir (ctx_next dm) track])
                  (set_ctx_next (S (ctx_next dm)) dm)))
    as (acts & Hloop & Hev); [done|done| |].
  { cbn. rewrite length_app. cbn. lia. }
  unfold job_of_track at 1 in Hloop. rewrite Hloop.
  eexists. split.
  - f_equal; [|lia]. do 2 f_equal. destruct dm. unfold set_queue, set_ctx_next.
    cbn. f_equal; [|lia]. rewrite <-(assoc_L (++)). cbn. do 2 f_equal.
    + by rewrite Nat.add_0_r.
    + apply imap_ext. intros i x _. cbn. f_equal. lia.
  - rewrite notified_app, Hev, notified_app, notified_notify. cbn.
    by destruct (onProgress dm).
Qed.

Lemma QueueMultiple_loop_stopped outputDir tracks : ∀ queued dm,
  running dm = false →
  QueueMultiple_loop tracks outputDir queued dm
  = (Idle, dm,
     (λ t, ARet (OQueueDownload (track_ID t) outputDir (track_Title t)
                   (track_Artist t))
                (RErr (Some ErrNotRunning))) <$> tracks,
     queued).
Proof.
  induction tracks as [|track tracks IH]; intros queued dm Hr; [done|].
  cbn [QueueMultiple_loop]. rewrite QueueDownload_not_running by done.
  cbn. by rewrite IH.
Qed.

(** X15. [QueueMultiple] with nothing interleaved, on a running manager
    whose queue is open and has room for the tracks: every track is
    enqueued, in the order of the list and behind the jobs that were waiting,
    each with a context of its own; the count returned is the number of
    tracks; "queued" is reported once for each track, in order. *)
Theorem QueueMultiple_enqueues_all (tracks : list TidalTrack) (outputDir : string)
    (dm : DownloadManager) :
  running dm = true → queue_closed dm = false →
  length (queue dm) + length tracks ≤ chan_cap →
  ∃ dm' acts,
    QueueMultiple tracks outputDir dm
    = (Idle, dm', acts, Z.of_nat (length tracks))
    ∧ dm' = set_queue (queue dm
                       ++ imap (λ i, job_of_track outputDir (ctx_next dm + i))
                            tracks)
              (set_ctx_next (ctx_next dm + length tracks) dm)
    ∧ GetQueueLength dm' = (GetQueueLength dm + Z.of_nat (length tracks))%Z
    ∧ notified acts
      = if onProgress dm
        then (λ t, mkEvent (track_ID t) "queued" None) <$> tracks else [].
Proof.
  intros Hr Hc Hlen. unfold QueueMultiple.
  destruct (QueueMultiple_loop_running outputDir tracks 0%Z dm Hr Hc Hlen)
    as (acts & -> & Hev).
  do 2 eexists. split_and!; [done|done| |done].
  unfold GetQueueLength. cbn. rewrite length_app, length_imap. lia.
Qed.

(** X16. [QueueMultiple] on a manager that is not running: every call of
    [QueueDownload] returns its error, the count returned is 0, nothing is
    reported and the manager is unchanged. *)
Theorem QueueMultiple_stopped (tracks : list TidalTrack) (outputDir : string)
    (dm : DownloadManager) :
  running dm = false →
  QueueMultiple tracks outputDir dm
  = (Idle, dm,
     (λ t, ARet (OQueueDownload (track_ID t) outputDir (track_Title t)
                   (track_Artist t))
                (RErr (Some ErrNotRunning))) <$> tracks,
     0%Z)
  ∧ notified (QueueMultiple tracks outputDir dm).1.2 = [].
Proof.
  intros Hr. unfold QueueMultiple.
  rewrite QueueMultiple_loop_stopped by done. split; [done|]. cbn.
  induction tracks as [|t l IH]; [done|]. by rewrite fmap_cons.
Qed.

(** ** A failure, a retry, a success *)

(** An execution of [processJob] that nothing interferes with, on a context
    that is not done and a fetch that fails. *)
Lemma processJob_failure job fetch dm :
  ctx_is_done job dm = false →
  (is_Some fetch.2 ∨ ∃ r, fetch.1 = Some r ∧ Success r = false) →
  ∃ dm',
    processJob fetch job dm
    = (W_Range, dm',
       notify dm (TrackID job) "downloading" None
       ++ notify dm (TrackID job) "error" fetch.1)
    ∧ failedJobs dm' = <[TrackID job := job]> (failedJobs dm)
    ∧ activeJobs dm' = delete (TrackID job) (activeJobs dm)
    ∧ queue dm' = queue dm ∧ queue_closed dm' = queue_closed dm
    ∧ running dm' = running dm ∧ ctx_next dm' = ctx_next dm
    ∧ ctx_done dm' = ctx_done dm ∧ onProgress dm' = onProgress dm.
Proof.
  intros Hdone Hfail. unfold processJob. cbn [run tstep at_rest fst snd].
  rewrite Hdone. cbn [run tstep at_rest fst snd].
  rewrite (ctx_is_done_ext job _ dm), Hdone by done.
  destruct fetch as [res err]. cbn in Hfail. cbn.
  assert (Hins : <[TrackID job:=job]> (delete (TrackID job) (failedJobs dm))
                 = <[TrackID job:=job]> (failedJobs dm))
    by apply insert_delete_eq.
  assert (Hdel : delete (TrackID job) (<[TrackID job:=job]> (activeJobs dm))
                 = delete (TrackID job) (activeJobs dm))
    by apply delete_insert_eq.
  destruct err as [e|].
  - cbn. eexists. split; [by rewrite app_nil_r|].
    destruct (bool_decide _); cbn; by rewrite Hins, Hdel.
  - destruct Hfail as [[? [=]]|(r & -> & Hr)]. rewrite Hr. cbn.
    eexists. split; [by rewrite app_nil_r|].
    destruct (bool_decide _); cbn; by rewrite Hins, Hdel.
Qed.

(** X17. A failure, [RetryAllFailed], a success, each with nothing
    interleaved, on a running manager with an open queue that has room.  The
    failed execution leaves the job in the Failed Registry; [RetryAllFailed]
    then returns the number of failed jobs and leaves the registry empty and
    a copy of the job, with a new context that is not done, in the queue; and
    a successful execution of that copy reports "downloading" and
    "completed" and leaves the registry empty. *)
Theorem failure_retry_success (job : DownloadJob) (fetch : FetchRet)
    (order : list Z)
    (r : DownloadResult) (dm : DownloadManager) :
  ctx_is_done job dm = false →
  (is_Some fetch.2 ∨ ∃ r0, fetch.1 = Some r0 ∧ Success r0 = false) →
  Success r = true →
  running dm = true → queue_closed dm = false →
  length (queue dm) + S (size (failedJobs dm)) ≤ chan_cap →
  done_below dm →
  let dm1 := (processJob fetch job dm).1.2 in
  let dm2 := (RetryAllFailed order dm1).1.2 in
  failedJobs dm1 !! TrackID job = Some job
  ∧ (RetryAllFailed order dm1).1.1 = Idle
  ∧ last (RetryAllFailed order dm1).2
    = Some (ARet ORetryAllFailed (RInt (GetFailedCount dm1)))
  ∧ GetFailedCount dm2 = 0%Z
  ∧ ∃ i, let copy := fresh_copy (ctx_next dm + i) job in
         copy ∈ queue dm2
         ∧ ctx_is_done copy dm2 = false
         ∧ (processJob (Some r, None) copy dm2).1.1 = W_Range
         ∧ notified (processJob (Some r, None) copy dm2).2
           = (if onProgress dm
              then [mkEvent (TrackID job) "downloading" None;
                    mkEvent (TrackID job) "completed" (Some r)]
              else [])
         ∧ GetFailedCount (processJob (Some r, None) copy dm2).1.2 = 0%Z.
Proof.
  intros Hdone Hfail Hr Hrun Hopen Hroom Hbelow.
  destruct (processJob_failure job fetch dm Hdone Hfail)
    as (dm1 & -> & Hf1 & _ & Hq1 & Hc1 & Hr1 & Hn1 & Hd1 & Hcb1).
  cbn [fst snd].
  assert (Hsize : size (failedJobs dm1) ≤ S (size (failedJobs dm))).
  { rewrite Hf1. destruct (failedJobs dm !! TrackID job) eqn:E.
    - rewrite map_size_insert_Some by done. lia.
    - rewrite map_size_insert_None by done. lia. }
  assert (Hin : failedJobs dm1 !! TrackID job = Some job)
    by by rewrite Hf1, lookup_insert_eq.
  unfold RetryAllFailed. change (2 + ?n) with (S (S n)).
  rewrite run_unfold. cbn [tstep at_rest].
  edestruct (run_retry_loop_running order (map_values order (failedJobs dm1))
               (set_failedJobs ∅ dm1) 0%Z (S (5 * size (failedJobs dm1))))
    as (acts & -> & Hlast).
  { cbn. by rewrite Hr1. }
  { cbn. by rewrite Hc1. }
  { cbn. rewrite length_map_values, Hq1. lia. }
  { rewrite length_map_values. lia. }
  cbn [fst snd app]. split_and!; [done|done| | |].
  - rewrite Hlast. unfold GetFailedCount. by rewrite length_map_values.
  - unfold GetFailedCount. cbn. by rewrite map_size_empty.
  - assert (Hjob : job ∈ map_values order (failedJobs dm1)).
    { apply elem_of_map_values. by exists (TrackID job). }
    apply list_elem_of_lookup in Hjob as [i Hi]. exists i. cbn zeta.
    set (dm2 := set_ctx_next _ _).
    assert (Hcopy_done : ctx_is_done (fresh_copy (ctx_next dm + i) job) dm2 = false).
    { unfold ctx_is_done. cbn. apply bool_decide_eq_false_2. rewrite Hd1.
      intros Hx. apply Hbelow in Hx. lia. }
    destruct (processJob_success (fresh_copy (ctx_next dm + i) job) r dm2
                Hcopy_done Hr) as (dm3 & -> & Hf3 & _).
    split_and!; [|done|done| |].
    + subst dm2. cbn. apply elem_of_app. right.
      apply list_elem_of_lookup. exists i. rewrite list_lookup_imap, Hi. cbn.
      by rewrite Hn1.
    + cbn [fst snd]. rewrite notified_app, !notified_notify. cbn.
      subst dm2. cbn. rewrite Hcb1. by destruct (onProgress dm).
    + cbn [fst snd]. unfold GetFailedCount. rewrite Hf3. subst dm2. cbn.
      by rewrite delete_empty, map_size_empty.
Qed.

(** ** File names *)

Lemma space_valid c : space c = true → invalid c = false → c = " "%char.
Proof.
  destruct c as [[] [] [] [] [] [] [] []]; vm_compute; intros; congruence.
Qed.

Lemma remove_invalid_valid s : Forall (λ c, invalid c = false) (remove_invalid s).
Proof.
  induction s as [|c r IH]; [constructor|]. cbn [remove_invalid List.filter].
  destruct (invalid c) eqn:E; cbn [negb]; [done|]. by constructor.
Qed.

Lemma remove_invalid_id s :
  Forall (λ c, invalid c = false) s → remove_invalid s = s.
Proof.
  induction 1 as [|c r Hc _ IH]; [done|]. cbn [remove_invalid List.filter].
  rewrite Hc. cbn [negb]. by f_equal.
Qed.

Lemma remove_invalid_length s : length (remove_invalid s) ≤ length s.
Proof. apply List.filter_length_le. Qed.

Lemma collapse_spaces_valid b s :
  Forall (λ c, invalid c = false) s →
  Forall (λ c, invalid c = false) (collapse_spaces b s).
Proof.
  intros H. revert b. induction H as [|c r Hc _ IH]; intros b; [constructor|].
  cbn [collapse_spaces]. destruct (space c), b; try done; by constructor.
Qed.

Lemma collapse_spaces_length b s : length (collapse_spaces b s) ≤ length s.
Proof.
  revert b. induction s as [|c r IH]; intros b; [done|].
  cbn [collapse_spaces].
  pose proof (IH true). pose proof (IH false).
  destruct (space c), b; cbn [length]; lia.
Qed.

Lemma collapse_spaces_head s :
  match collapse_spaces true s with d :: _ => space d | [] => false end = false.
Proof.
  induction s as [|c r IH]; [done|]. cbn [collapse_spaces].
  by destruct (space c) eqn:E.
Qed.

Lemma collapse_spaces_single b s : single_spaced (collapse_spaces b s) = true.
Proof.
  revert b. induction s as [|c r IH]; intros b; [done|].
  cbn [collapse_spaces].
  destruct (space c) eqn:E; [destruct b|]; [done| |].
  - cbn [single_spaced]. by rewrite collapse_spaces_head, IH.
  - cbn [single_spaced]. by rewrite E, IH.
Qed.

Lemma collapse_spaces_id b s :
  Forall (λ c, invalid c = false) s → single_spaced s = true →
  (b = true → match s with d :: _ => space d | [] => false end = false) →
  collapse_spaces b s = s.
Proof.
  intros H. revert b. induction H as [|c r Hc _ IH]; intros b Hs Hb; [done|].
  cbn [single_spaced] in Hs. apply andb_true_iff in Hs as [Hcd Hs].
  cbn [collapse_spaces]. destruct (space c) eqn:E.
  - destruct b; [by specialize (Hb eq_refl)|].
    rewrite (space_valid c E Hc). f_equal. apply IH; [done|].
    intros _. by apply negb_true_iff in Hcd.
  - f_equal. by apply IH.
Qed.

Lemma TrimLeft_drop s : ∃ k, TrimLeft s = drop k s.
Proof.
  induction s as [|c r [k IH]]; [by exists 0|]. cbn [TrimLeft].
  destruct (cutset c); [by exists (S k)|by exists 0].
Qed.

Lemma TrimRight_take s : ∃ k, TrimRight s = take k s.
Proof.
  unfold TrimRight. destruct (TrimLeft_drop (reverse s)) as [k ->].
  rewrite drop_reverse, reverse_involutive. eauto.
Qed.

Lemma Trim_drop_take s : ∃ j k, Trim s = drop j (take k s).
Proof.
  unfold Trim. destruct (TrimRight_take s) as [k ->].
  destruct (TrimLeft_drop (take k s)) as [j ->]. eauto.
Qed.

Lemma TrimLeft_head s c : head (TrimLeft s) = Some c → cutset c = false.
Proof.
  induction s as [|d r IH]; cbn [TrimLeft]; [done|].
  destruct (cutset d) eqn:E; [done|]. cbn [head]. by intros [= <-].
Qed.

Lemma TrimLeft_id s :
  (∀ c, head s = Some c → cutset c = false) → TrimLeft s = s.
Proof.
  destruct s as [|c r]; cbn [TrimLeft head]; [done|]. intros H. by rewrite H.
Qed.

Lemma TrimLeft_last s : TrimLeft s ≠ [] → last (TrimLeft s) = last s.
Proof.
  induction s as [|d r IH]; [done|]. cbn [TrimLeft].
  destruct (cutset d); [|done]. intros Hne. rewrite IH by done.
  destruct r; [done|]. by rewrite last_cons_cons.
Qed.

Lemma TrimRight_last s c : last (TrimRight s) = Some c → cutset c = false.
Proof. unfold TrimRight. rewrite last_reverse. apply TrimLeft_head. Qed.

Lemma TrimRight_id s :
  (∀ c, last s = Some c → cutset c = false) → TrimRight s = s.
Proof.
  intros H. unfold TrimRight. rewrite TrimLeft_id, reverse_involutive; [done|].
  intros c. rewrite head_reverse. apply H.
Qed.

Lemma Trim_last s c : last (Trim s) = Some c → cutset c = false.
Proof.
  unfold Trim. intros H. rewrite TrimLeft_last in H.
  - by apply TrimRight_last in H.
  - intros E. by rewrite E in H.
Qed.

Lemma single_spaced_tail c s :
  single_spaced (c :: s) = true → single_spaced s = true.
Proof. cbn [single_spaced]. by intros [_ ?]%andb_true_iff. Qed.

Lemma single_spaced_drop k s :
  single_spaced s = true → single_spaced (drop k s) = true.
Proof.
  revert s. induction k as [|k IH]; intros [|c r]; try done.
  intros H. cbn [drop]. apply IH. by apply single_spaced_tail in H.
Qed.

Lemma single_spaced_take k s :
  single_spaced s = true → single_spaced (take k s) = true.
Proof.
  revert k. induction s as [|c r IH]; intros [|k]; try done.
  intros H. cbn [take single_spaced]. cbn [single_spaced] in H.
  apply andb_true_iff in H as [Hcd H]. rewrite (IH k H), andb_true_r.
  destruct k, r; cbn [take] in *; try done; by rewrite andb_false_r.
Qed.

Lemma trimmed_valid name :
  Forall (λ c, invalid c = false)
    (Trim (collapse_spaces false (remove_invalid name))).
Proof.
  destruct (Trim_drop_take
    (collapse_spaces false (remove_invalid name))) as (j & k & ->).
  apply Forall_drop, Forall_take, collapse_spaces_valid, remove_invalid_valid.
Qed.

Lemma trimmed_single name :
  single_spaced (Trim (collapse_spaces false (remove_invalid name))) = true.
Proof.
  destruct (Trim_drop_take
    (collapse_spaces false (remove_invalid name))) as (j & k & ->).
  apply single_spaced_drop, single_spaced_take, collapse_spaces_single.
Qed.

Lemma trimmed_length name :
  length (Trim (collapse_spaces false (remove_invalid name))) ≤ length name.
Proof.
  destruct (Trim_drop_take
    (collapse_spaces false (remove_invalid name))) as (j & k & ->).
  rewrite length_drop, length_take.
  pose proof (collapse_spaces_length false (remove_invalid name)).
  pose proof (remove_invalid_length name). lia.
Qed.

Lemma Unknown_clean : clean Unknown.
Proof.
  unfold clean, Unknown. cbn. split_and!; try done; try lia.
  - by repeat constructor.
  - by intros c [= <-].
  - by intros c [= <-].
Qed.

Lemma trimmed_clean name :
  let trimmed := Trim (collapse_spaces false (remove_invalid name)) in
  trimmed ≠ [] → length trimmed ≤ 200 → clean trimmed.
Proof.
  intros trimmed Hne Hlen. split_and!; [done|done|..].
  - apply trimmed_valid.
  - apply trimmed_single.
  - apply TrimLeft_head.
  - apply Trim_last.
Qed.

Lemma SanitizeFileName_clean_id s : clean s → SanitizeFileName s = s.
Proof.
  intros (Hne & Hlen & Hv & Hs & Hh & Hl). unfold SanitizeFileName.
  rewrite decide_False by done.
  rewrite remove_invalid_id, collapse_spaces_id by done.
  unfold Trim. rewrite TrimRight_id, TrimLeft_id by done.
  replace (200 <? length s) with false by (symmetry; apply Nat.ltb_ge; lia).
  by rewrite decide_False.
Qed.

Lemma SanitizeFileName_short_clean s :
  length s ≤ 200 → clean (SanitizeFileName s).
Proof.
  intros Hlen. unfold SanitizeFileName.
  destruct (decide (s = [])); [apply Unknown_clean|].
  pose proof (trimmed_length s) as Ht.
  replace (200 <? _) with false by (symmetry; apply Nat.ltb_ge; lia).
  destruct (decide _) as [|Hne]; [apply Unknown_clean|].
  apply trimmed_clean; [done|lia].
Qed.

(** X18. [SanitizeFileName] returns, for every name, a non-empty name of at
    most 200 bytes that holds no byte of the invalid class, so no byte below
    32 and no path separator; it has no two neighbouring bytes of the class
    [\s] and starts with neither a dot nor a space; the empty name gives
    "Unknown".  The class stops at byte 31: the byte 127 (DEL) is kept. *)
Theorem SanitizeFileName_safe (name : list Ascii.ascii) :
  SanitizeFileName name ≠ []
  ∧ length (SanitizeFileName name) ≤ 200
  ∧ Forall (λ c, invalid c = false) (SanitizeFileName name)
  ∧ Forall (λ c, 32 ≤ Ascii.nat_of_ascii c
                 ∧ Ascii.nat_of_ascii c ≠ 47 ∧ Ascii.nat_of_ascii c ≠ 92)
      (SanitizeFileName name)
  ∧ single_spaced (SanitizeFileName name) = true
  ∧ (∀ c, head (SanitizeFileName name) = Some c → cutset c = false)
  ∧ SanitizeFileName [] = String.list_ascii_of_string "Unknown"
  ∧ SanitizeFileName [Ascii.ascii_of_nat 127] = [Ascii.ascii_of_nat 127].
Proof.
  assert (Hclass : ∀ l, Forall (λ c, invalid c = false) l →
            Forall (λ c, 32 ≤ Ascii.nat_of_ascii c
                         ∧ Ascii.nat_of_ascii c ≠ 47
                         ∧ Ascii.nat_of_ascii c ≠ 92) l).
  { intros l Hl. eapply Forall_impl; [exact Hl|]. intros c. unfold invalid.
    intros [Hlow Hrest]%orb_false_iff. apply Nat.leb_gt in Hlow.
    split; [lia|]. split; intros Heq; rewrite Heq in Hrest; discriminate. }
  cut (SanitizeFileName name ≠ []
       ∧ length (SanitizeFileName name) ≤ 200
       ∧ Forall (λ c, invalid c = false) (SanitizeFileName name)
       ∧ single_spaced (SanitizeFileName name) = true
       ∧ (∀ c, head (SanitizeFileName name) = Some c → cutset c = false)
       ∧ SanitizeFileName [] = String.list_ascii_of_string "Unknown").
  { intros (? & ? & ? & ? & ? & ?). split_and!; auto. }
  destruct Unknown_clean as (Une & Ulen & Uv & Us & Uh & _).
  unfold SanitizeFileName.
  destruct (decide (name = [])); [done|].
  set (trimmed := Trim _).
  destruct (200 <? length trimmed) eqn:E.
  - destruct (decide _) as [|Hne]; [done|].
    split_and!; [done| | | | |done].
    + rewrite length_take. lia.
    + apply Forall_take, trimmed_valid.
    + apply single_spaced_take, trimmed_single.
    + intros c Hc.
      apply (TrimLeft_head
               (TrimRight (collapse_spaces false (remove_invalid name)))).
      change (head trimmed = Some c). by destruct trimmed.
  - apply Nat.ltb_ge in E.
    destruct (decide _) as [|Hne]; [done|].
    destruct (trimmed_clean name Hne E) as (_ & _ & ? & ? & ? & _).
    done.
Qed.

(** X19. The names [SanitizeFileName] leaves as they are, are the clean ones:
    non-empty, of at most 200 bytes, without a byte of the invalid class,
    without two neighbouring spaces, and with neither a dot nor a space at
    either end. *)
Theorem SanitizeFileName_fixed_points (name : list Ascii.ascii) :
  SanitizeFileName name = name ↔ clean name.
Proof.
  split; [|apply SanitizeFileName_clean_id].
  unfold SanitizeFileName.
  destruct (decide (name = [])) as [->|Hne]; [done|].
  pose proof (trimmed_length name) as Hlen.
  set (trimmed := Trim _) in *.
  destruct (200 <? length trimmed) eqn:E.
  - apply Nat.ltb_lt in E.
    destruct (decide _) as [|Hne']; [intros <-; apply Unknown_clean|].
    intros Heq. apply (f_equal length) in Heq. rewrite length_take in Heq. lia.
  - apply Nat.ltb_ge in E.
    destruct (decide _) as [|Hne']; [intros <-; apply Unknown_clean|].
    intros Heq. rewrite <- Heq. by apply trimmed_clean.
Qed.

(** X20. On a name of at most 200 bytes [SanitizeFileName] gives a clean
    name (in particular one that ends with neither a dot nor a space), and
    applying it again changes nothing.  On longer names neither holds: the
    cut at 200 bytes comes after the trimming, so the 201 bytes of 199 times
    [a], a space and [b] give a name that ends with a space and that a second
    application shortens. *)
Theorem SanitizeFileName_idempotent_short :
  (∀ name, length name ≤ 200 →
     clean (SanitizeFileName name)
     ∧ SanitizeFileName (SanitizeFileName name) = SanitizeFileName name)
  ∧ (let name := replicate 199 "a"%char ++ [" "%char; "b"%char] in
     length name = 201
     ∧ SanitizeFileName name = replicate 199 "a"%char ++ [" "%char]
     ∧ SanitizeFileName (SanitizeFileName name) = replicate 199 "a"%char).
Proof.
  split.
  - intros name Hlen. pose proof (SanitizeFileName_short_clean name Hlen).
    split; [done|]. by apply SanitizeFileName_clean_id.
  - by vm_compute.
Qed.

(** ** The properties at work *)

(** The application asks for four workers. *)
Lemma NewDownloadManager_workers_witness :
  let w := 4%Z in
  (1 ≤ w ≤ 10)%Z ∧ workers (NewDownloadManager w) = w.
Proof.
  intros w. assert (H : (1 ≤ w ≤ 10)%Z) by (by vm_compute).
  split; [exact H|]. exact (proj1 (proj2 (NewDownloadManager_workers w)) H).
Defined.

(** [Start] on the new manager of the application starts four workers. *)
Lemma Start_spawns_workers_witness :
  let dm := NewDownloadManager 4 in
  (0 ≤ workers dm)%Z
  ∧ (if running dm
     then Start dm = (Idle, dm, [ARet OStart RUnit])
     else Start dm
          = (Idle, set_wg (wg dm + workers dm) (set_running true dm),
             (AGo <$> seqZ 0 (workers dm)) ++ [ARet OStart RUnit]))
  ∧ length (spawned (Start dm).2)
    = (if running dm then 0 else Z.to_nat (workers dm))
  ∧ Start (Start dm).1.2 = (Idle, (Start dm).1.2, [ARet OStart RUnit]).
Proof.
  intros dm. assert (H : (0 ≤ workers dm)%Z) by (by vm_compute).
  split; [exact H|]. exact (Start_spawns_workers dm H).
Defined.

(** The race scenario. *)
Lemma channels_bounded_witness :
  let c := exec race_schedule race_init in
  reachable c
  ∧ length (queue (manager c)) ≤ chan_cap
  ∧ length (results (manager c)) ≤ chan_cap
  ∧ chan_cap = 1000.
Proof.
  intros c. assert (H : reachable c) by (by eexists _, _, _, _).
  split; [exact H|]. exact (channels_bounded c H).
Defined.

(** The restart scenario at the point where the worker has ended and [Stop]
    is at its [wg.Wait()]. *)
Lemma wg_counts_live_workers_witness :
  let c := exec (runs [0;0;0;0; 0;0;0; 1;1]) restart_init in
  let i := 0 in
  let fetch := no_fetch in
  let order : list Z := [] in
  reachable c ∧ crashed c = false
  ∧ pc_at i c = Some SP_Wait
  ∧ wg (manager c) = Z.of_nat (live_workers c)
  ∧ (pc_at i c = Some SP_Wait →
     (step i fetch order c ≠ c ↔ live_workers c = 0)
     ∧ (live_workers c = 0 →
        pc_at i (step i fetch order c) = Some Idle
        ∧ trace (step i fetch order c) = trace c ++ [(i, ARet OStop RUnit)]
        ∧ live_workers (step i fetch order c) = 0)).
Proof.
  intros c i fetch order. assert (H : reachable c) by (by eexists _, _, _, _).
  assert (Hc : crashed c = false) by (by vm_compute).
  split; [exact H|]. split; [exact Hc|]. split; [by vm_compute|].
  exact (wg_counts_live_workers c i fetch order H Hc).
Defined.

(** The cancel scenario at the point where the fetch of track 7 has
    returned: the track is in the Active Registry. *)
Lemma active_jobs_are_executing_witness :
  let c := exec cancel_schedule cancel_init in
  reachable c
  ∧ activeJobs (manager c) !! 7%Z = Some job7
  ∧ (∀ id job, activeJobs (manager c) !! id = Some job →
       id = TrackID job
       ∧ ∃ i, pc_at i c = Some (PJ_Download job)
              ∨ (∃ result err, pc_at i c = Some (PJ_PostCheck job result err))
              ∨ (∃ result err cancelled,
                   pc_at i c = Some (PJ_RemoveActive job result err cancelled)))
  ∧ (GetActiveCount (manager c) ≤ Z.of_nat (live_workers c))%Z
  ∧ (crashed c = false → (GetActiveCount (manager c) ≤ wg (manager c))%Z).
Proof.
  intros c. assert (H : reachable c) by (by eexists _, _, _, _).
  split; [exact H|]. split; [by vm_compute|].
  exact (active_jobs_are_executing c H).
Defined.

(** The race scenario: one call of [Start]. *)
Lemma pool_size_bounded_witness :
  let w := 1%Z in
  let cb := true in
  let scripts := [[OStart; OQueueDownload 7 "out" "t" "a"]] in
  let s := race_schedule in
  let c := exec s (init_config w cb scripts) in
  count_starts (concat scripts) ≤ 1
  ∧ (Z.of_nat (live_workers c) ≤ workers (manager c))%Z
  ∧ (GetActiveCount (manager c) ≤ workers (manager c))%Z.
Proof.
  intros w cb scripts s c.
  assert (H : count_starts (concat scripts) ≤ 1) by (vm_compute; lia).
  split; [exact H|].
  exact (proj2 (proj2 (pool_size_bounded w cb scripts s)) H).
Defined.

(** The cancel scenario after the call of [CancelDownload]: the "cancelled"
    that the worker reports next is the one after the fetch. *)
Lemma never_cancelled_before_execution_witness :
  let c := exec (cancel_schedule ++ cancel_call ++ runs [1;1]) cancel_init in
  reachable c
  ∧ trace (step 1 no_fetch [] c)
    = trace c ++ [(1, ANotify (mkEvent 7 "cancelled" None))]
  ∧ (∀ job, job ∈ queue (manager c) → ctx_is_done job (manager c) = false)
  ∧ (∀ i job, pc_at i c = Some (PJ_PreCheck job) →
       ctx_is_done job (manager c) = false)
  ∧ (∀ i job, pc_at i c ≠ Some (PJ_PreCancelled job))
  ∧ (∀ i fetch order e,
       trace (step i fetch order c) = trace c ++ [(i, ANotify e)] →
       ev_Status e = "cancelled" →
       ∃ job result err,
         pc_at i c = Some (PJ_HandleResult job result err true)
         ∧ e = mkEvent (TrackID job) "cancelled" None).
Proof.
  intros c. assert (H : reachable c) by (by eexists _, _, _, _).
  split; [exact H|]. split; [by vm_compute|].
  exact (never_cancelled_before_execution c H).
Defined.

(** The cancel scenario after the call of [CancelDownload]: the context of
    track 7 is done, and stays so while the worker goes on. *)
Lemma cancellation_is_permanent_witness :
  let c := exec (cancel_schedule ++ cancel_call) cancel_init in
  let s := runs [1;1;1;1] in
  let job := job7 in
  let trackID := 7%Z in
  ctx_is_done job (manager c) = true
  ∧ ctx_is_done job (manager (exec s c)) = true
  ∧ ctx_done (manager c) ⊆ ctx_done (manager (exec s c))
  ∧ ctx_next (manager c) ≤ ctx_next (manager (exec s c))
  ∧ CancelDownload trackID (CancelDownload trackID (manager c)).2
    = CancelDownload trackID (manager c).
Proof.
  intros c s job trackID.
  assert (H : ctx_is_done job (manager c) = true) by (by vm_compute).
  split; [exact H|]. exact (cancellation_is_permanent s c job trackID H).
Defined.

(** The step of lines 186-188 for track 7, after a fetch that timed out. *)
Lemma failed_registry_changes_witness :
  let me := 1 in
  let fetch := no_fetch in
  let order : list Z := [] in
  let job := job7 in
  let id := 7%Z in
  let p := PJ_HandleResult job (Some (timeout_result 7))
             (Some "network timeout") false in
  let p' := PJ_NotifyError job (Some (timeout_result 7)) in
  let dm := NewDownloadManager 1 in
  let dm' := set_failedJobs (<[id := job]> (failedJobs dm)) dm in
  let acts : list action := [] in
  tstep me fetch order p dm = Some (p', dm', acts)
  ∧ failedJobs dm' !! id = Some job
  ∧ failedJobs dm !! id ≠ Some job
  ∧ (failedJobs dm' !! id = Some job → failedJobs dm !! id ≠ Some job →
     ∃ result err,
       p = PJ_HandleResult job result err false
       ∧ p' = PJ_NotifyError job result
       ∧ id = TrackID job
       ∧ (is_Some err ∨ ∃ r, result = Some r ∧ Success r = false))
  ∧ (failedJobs dm !! id = Some job → failedJobs dm' !! id = None →
     (∃ j, p = PJ_MarkActive j ∧ TrackID j = id)
     ∨ p = RA_Snapshot ∨ p = Atomic OClearFailed).
Proof.
  intros me fetch order job id p p' dm dm' acts.
  assert (H : tstep me fetch order p dm = Some (p', dm', acts)) by reflexivity.
  split; [exact H|]. split; [by vm_compute|]. split; [by vm_compute|].
  exact (failed_registry_changes me fetch order p p' dm dm' acts id job H).
Defined.

(** The worker of the race scenario executes the job of track 7, alone and
    with a fetch that times out. *)
Lemma processJob_failed_registry_witness :
  let me := 1 in
  let job := job7 in
  let dm := manager (exec (runs [0;0;0;0; 0;0;0;0;0; 1;1;1]) race_init) in
  let steps := (run_steps 9 me (fetch_timeout 7) [] (PJ_PreCheck job) dm).1 in
  let p' := W_Range in
  trun true me (PJ_PreCheck job) steps p'
  ∧ (∀ result, mkEvent (TrackID job) "error" result ∈ notified (actions_of steps) →
       ∃ before s after,
         steps = before ++ s :: after
         ∧ failedJobs s.1.2 = <[TrackID job := job]> (failedJobs s.1.1)
         ∧ Forall (λ s : tstep_record, failedJobs s.1.2 = failedJobs s.1.1) after)
  ∧ ((∃ result, mkEvent (TrackID job) "completed" result
                ∈ notified (actions_of steps))
     ∨ mkEvent (TrackID job) "cancelled" None ∈ notified (actions_of steps) →
     Forall (λ s : tstep_record,
               failedJobs s.1.2 = failedJobs s.1.1
               ∨ failedJobs s.1.2 = delete (TrackID job) (failedJobs s.1.1))
            steps).
Proof.
  intros me job dm steps p'.
  assert (Hrun : trun true me (PJ_PreCheck job) steps p').
  { apply (run_steps_trun true 9 me (fetch_timeout 7) [] (PJ_PreCheck job) dm);
      by vm_compute. }
  split; [exact Hrun|]. exact (processJob_failed_registry me job steps p' Hrun).
Defined.

(** A worker with the job of track 7 at the gate of a started and paused
    manager. *)
Lemma pause_gate_holds_worker_witness :
  let me := 1 in
  let fetch := no_fetch in
  let order : list Z := [] in
  let job := job7 in
  let dm := (PauseQueue (Start (NewDownloadManager 1)).1.2).2 in
  paused dm = true ∧ running dm = true
  ∧ tstep me fetch order (W_PauseGate job) dm
    = Some (W_Parked job, set_pauseCond (me :: pauseCond dm) dm, [])
  ∧ (∀ d, me ∈ pauseCond d → tstep me fetch order (W_Parked job) d = None)
  ∧ (∀ i f ord p d p' d' acts,
       tstep i f ord p d = Some (p', d', acts) →
       me ∈ pauseCond d → me ∉ pauseCond d' →
       (p = Atomic OResumeQueue ∧ paused d = true)
       ∨ (p = SP_Lock ∧ running d = true)).
Proof.
  intros me fetch order job dm.
  assert (Hp : paused dm = true) by (by vm_compute).
  assert (Hr : running dm = true) by (by vm_compute).
  split; [exact Hp|]. split; [exact Hr|].
  exact (pause_gate_holds_worker me fetch order job dm Hp Hr).
Defined.

(** [Stop] on a started manager with one worker, which is parked with the
    job of track 7 or finds it in the queue; the worker finds the manager as
    [Stop] has left it, or, at the check of lines 124-129, started again. *)
Lemma Stop_releases_workers_witness :
  let me := 1 in
  let fetch := no_fetch in
  let order : list Z := [] in
  let job := job7 in
  let q := @nil DownloadJob in
  let dm := (Start (NewDownloadManager 1)).1.2 in
  let d1 := Broadcast (set_paused false (set_running false dm)) in
  let d0 := set_queue [job] d1 in
  let d2 := d1 in
  let d3 := d1 in
  let d2' := set_running true d1 in
  running dm = true
  ∧ (me ∉ pauseCond d1) ∧ running d1 = false ∧ running d2 = false
  ∧ queue d0 = job :: q ∧ running d2' = true
  ∧ run_among me fetch order (W_Parked job) [d1; d2; d3]
    = ([(d1, d1, []); (d2, d2, []); (d3, set_wg (wg d3 - 1) d3, [])],
       Finished)
  ∧ run_among me fetch order W_Range [d0; d1; d2; d3]
    = ([(d0, set_queue q d0, []); (d1, d1, []); (d2, d2, []);
        (d3, set_wg (wg d3 - 1) d3, [])],
       Finished)
  ∧ (run_among me fetch order (W_Parked job) [d1; d2'; d3]
     = ([(d1, d1, []); (d2', d2', [])]
        ++ (run_among me fetch order (PJ_PreCheck job) [d3]).1,
        (run_among me fetch order (PJ_PreCheck job) [d3]).2)
     ∧ in_processJob (run_among me fetch order (PJ_PreCheck job) [d3]).2
       = true).
Proof.
  intros me fetch order job q dm d1 d0 d2 d3 d2'.
  assert (Hr : running dm = true) by (by vm_compute).
  assert (Hme : me ∉ pauseCond d1) by apply not_elem_of_nil.
  assert (H1 : running d1 = false) by reflexivity.
  assert (Hq : queue d0 = job :: q) by reflexivity.
  assert (H2' : running d2' = true) by reflexivity.
  split; [exact Hr|]. split; [exact Hme|]. split; [exact H1|].
  split; [exact H1|]. split; [exact Hq|]. split; [exact H2'|].
  destruct (Stop_releases_workers me fetch order job dm d0 d1 d2 d3 q Hr)
    as (_ & _ & _ & _ & Ha & Hb & _).
  destruct (Stop_releases_workers me fetch order job dm d0 d1 d2' d3 q Hr)
    as (_ & _ & _ & _ & _ & _ & Hc & _).
  split; [exact (Ha Hme H1 H1)|].
  split; [exact (Hb Hq H1 H1)|exact (Hc Hme H1 H2')].
Defined.

(** The worker of the race scenario at the fetch of track 7, and a pause. *)
Lemma processJob_ignores_pause_witness :
  let me := 1 in
  let fetch := fetch_ok 7 in
  let order : list Z := [] in
  let job := job7 in
  let p := PJ_Download job in
  let dm := manager (exec race_schedule race_init) in
  let b := true in
  in_processJob p = true
  ∧ tstep me fetch order p (set_paused b dm)
    = with_paused b <$> tstep me fetch order p dm
  ∧ processJob fetch job (set_paused b dm)
    = with_paused b (processJob fetch job dm).
Proof.
  intros me fetch order job p dm b.
  assert (H : in_processJob p = true) by reflexivity.
  split; [exact H|]. exact (processJob_ignores_pause me fetch order p job dm b H).
Defined.

(** Two tracks on the started manager of the application. *)
Lemma QueueMultiple_enqueues_all_witness :
  let tracks := [mkTrack 7 "t" "a" "a" "al" 1 "" 180 1 "" false "";
                 mkTrack 8 "u" "a" "a" "al" 1 "" 200 2 "" false ""] in
  let outputDir := "out/al" in
  let dm := (Start (NewDownloadManager 4)).1.2 in
  running dm = true ∧ queue_closed dm = false
  ∧ length (queue dm) + length tracks ≤ chan_cap
  ∧ ∃ dm' acts,
      QueueMultiple tracks outputDir dm
      = (Idle, dm', acts, Z.of_nat (length tracks))
      ∧ dm' = set_queue (queue dm
                         ++ imap (λ i, job_of_track outputDir (ctx_next dm + i))
                              tracks)
                (set_ctx_next (ctx_next dm + length tracks) dm)
      ∧ GetQueueLength dm' = (GetQueueLength dm + Z.of_nat (length tracks))%Z
      ∧ notified acts
        = if onProgress dm
          then (λ t, mkEvent (track_ID t) "queued" None) <$> tracks else [].
Proof.
  intros tracks outputDir dm.
  assert (Hr : running dm = true) by (by vm_compute).
  assert (Hc : queue_closed dm = false) by (by vm_compute).
  assert (Hl : length (queue dm) + length tracks ≤ chan_cap)
    by (vm_compute; lia).
  split; [exact Hr|]. split; [exact Hc|]. split; [exact Hl|].
  exact (QueueMultiple_enqueues_all tracks outputDir dm Hr Hc Hl).
Defined.

(** The same two tracks on the manager before [Start]. *)
Lemma QueueMultiple_stopped_witness :
  let tracks := [mkTrack 7 "t" "a" "a" "al" 1 "" 180 1 "" false "";
                 mkTrack 8 "u" "a" "a" "al" 1 "" 200 2 "" false ""] in
  let outputDir := "out/al" in
  let dm := NewDownloadManager 4 in
  running dm = false
  ∧ QueueMultiple tracks outputDir dm
    = (Idle, dm,
       (λ t, ARet (OQueueDownload (track_ID t) outputDir (track_Title t)
                     (track_Artist t))
                  (RErr (Some ErrNotRunning))) <$> tracks,
       0%Z)
  ∧ notified (QueueMultiple tracks outputDir dm).1.2 = [].
Proof.
  intros tracks outputDir dm.
  assert (Hr : running dm = false) by reflexivity.
  split; [exact Hr|]. exact (QueueMultiple_stopped tracks outputDir dm Hr).
Defined.

(** The worker of the race scenario executes the job of track 7 with a fetch
    that times out; then [RetryAllFailed], and the copy succeeds. *)
Lemma failure_retry_success_witness :
  let job := job7 in
  let fetch := fetch_timeout 7 in
  let order : list Z := [] in
  let r := ok_result 7 in
  let dm := manager (exec (runs [0;0;0;0; 0;0;0;0;0; 1;1;1]) race_init) in
  ctx_is_done job dm = false
  ∧ (is_Some fetch.2 ∨ ∃ r0, fetch.1 = Some r0 ∧ Success r0 = false)
  ∧ Success r = true
  ∧ running dm = true ∧ queue_closed dm = false
  ∧ length (queue dm) + S (size (failedJobs dm)) ≤ chan_cap
  ∧ done_below dm
  ∧ (let dm1 := (processJob fetch job dm).1.2 in
     let dm2 := (RetryAllFailed order dm1).1.2 in
     failedJobs dm1 !! TrackID job = Some job
     ∧ (RetryAllFailed order dm1).1.1 = Idle
     ∧ last (RetryAllFailed order dm1).2
       = Some (ARet ORetryAllFailed (RInt (GetFailedCount dm1)))
     ∧ GetFailedCount dm2 = 0%Z
     ∧ ∃ i, let copy := fresh_copy (ctx_next dm + i) job in
            copy ∈ queue dm2
            ∧ ctx_is_done copy dm2 = false
            ∧ (processJob (Some r, None) copy dm2).1.1 = W_Range
            ∧ notified (processJob (Some r, None) copy dm2).2
              = (if onProgress dm
                 then [mkEvent (TrackID job) "downloading" None;
                       mkEvent (TrackID job) "completed" (Some r)]
                 else [])
            ∧ GetFailedCount (processJob (Some r, None) copy dm2).1.2 = 0%Z).
Proof.
  intros job fetch order r dm.
  assert (H1 : ctx_is_done job dm = false) by (by vm_compute).
  assert (H2 : is_Some fetch.2 ∨ ∃ r0, fetch.1 = Some r0 ∧ Success r0 = false)
    by (left; by eexists).
  assert (H3 : Success r = true) by reflexivity.
  assert (H4 : running dm = true) by (by vm_compute).
  assert (H5 : queue_closed dm = false) by (by vm_compute).
  assert (H6 : length (queue dm) + S (size (failedJobs dm)) ≤ chan_cap)
    by (vm_compute; lia).
  assert (H7 : done_below dm).
  { intros h Hh. exfalso. revert Hh. by vm_compute. }
  split; [exact H1|]. split; [exact H2|]. split; [exact H3|].
  split; [exact H4|]. split; [exact H5|]. split; [exact H6|].
  split; [exact H7|].
  exact (failure_retry_success job fetch order r dm H1 H2 H3 H4 H5 H6 H7).
Defined.

(** A name with a path separator, a colon and dots and spaces at its ends. *)
Lemma SanitizeFileName_safe_witness :
  let name := String.list_ascii_of_string " AC/DC:  Live. " in
  let c := "A"%char in
  SanitizeFileName name = String.list_ascii_of_string "ACDC Live"
  ∧ head (SanitizeFileName name) = Some c
  ∧ cutset c = false.
Proof.
  intros name c.
  assert (H : head (SanitizeFileName name) = Some c) by (by vm_compute).
  split; [by vm_compute|]. split; [exact H|].
  destruct (SanitizeFileName_safe name) as (_ & _ & _ & _ & _ & Hhead & _).
  exact (Hhead c H).
Defined.

(** A clean name. *)
Lemma SanitizeFileName_fixed_points_witness :
  let name := String.list_ascii_of_string "ACDC Live" in
  clean name ∧ SanitizeFileName name = name.
Proof.
  intros name.
  assert (H : clean name).
  { split_and!; [done | vm_compute; lia | by repeat constructor | done
                | by intros ? [= <-] | by intros ? [= <-]]. }
  split; [exact H|]. exact (proj2 (SanitizeFileName_fixed_points name) H).
Defined.

(** A short name that is not clean. *)
Lemma SanitizeFileName_idempotent_short_witness :
  let name := String.list_ascii_of_string " AC/DC:  Live. " in
  length name ≤ 200
  ∧ clean (SanitizeFileName name)
  ∧ SanitizeFileName (SanitizeFileName name) = SanitizeFileName name.
Proof.
  intros name. assert (H : length name ≤ 200) by (vm_compute; lia).
  split; [exact H|]. exact (proj1 SanitizeFileName_idempotent_short name H).
Defined.
